(** * squoosh: src/client/lazy-app/util/index.ts

    A shallow embedding of the utility module of the image compressor:
    the magic-number sniffer ([sniffMimeType]), the abortable-promise
    helper ([assertSignal], [abortable]), the memoised capability probe
    ([canDecodeImageType]) and the canvas encoder ([canvasEncode]). *)

From Stdlib Require Import Strings.String Strings.Ascii Strings.Byte.
From Stdlib Require Import Lists.List ZArith Lia Bool.
From stdpp Require Import gmap strings list.
Import ListNotations.

Local Open Scope string_scope.
Local Open Scope list_scope.

(** ** Regular expressions

    The fragment of JavaScript regular expressions that the module
    writes down: a sequence of single-character atoms, each taken once,
    or under [*] or [+], possibly inside a capturing group, an optional
    leading [^] and the assertion [$].  No flag is ever set, so [.]
    excludes the line terminators and [^]/[$] only hold at the two ends
    of the input. *)
Module RegExp.

Inductive cset : Type :=
| Chr (c : ascii)              (* a literal character, also \xHH *)
| Dot                          (* . *)
| OneOf (cs : list ascii)      (* [abc] *)
| NoneOf (cs : list ascii).    (* [^abc] *)

Inductive quant : Type := One | Star | Plus.

Inductive item : Type :=
| Atom (a : cset) (q : quant) (capture : bool)
| Eol.                         (* $ *)

Record t : Type := mk { anchored : bool; items : list item }.

(** Line terminators that a byte-sized code unit can be: LF and CR. *)
Definition isLineTerminator (c : ascii) : bool :=
  Ascii.eqb c (ascii_of_byte x0a) || Ascii.eqb c (ascii_of_byte x0d).

Definition cset_mem (a : cset) (c : ascii) : bool :=
  match a with
  | Chr x => Ascii.eqb x c
  | Dot => negb (isLineTerminator c)
  | OneOf cs => existsb (Ascii.eqb c) cs
  | NoneOf cs => negb (existsb (Ascii.eqb c) cs)
  end.

(** The backtracking matcher.  [k] is the rest of the pattern; the
    result is the text the atom consumed and the captures of [k].
    [star] is greedy: it gives characters back one at a time. *)
Fixpoint star (a : cset) (k : string -> option (list string)) (s : string)
  : option (string * list string) :=
  match s with
  | String c s' =>
      if cset_mem a c then
        match star a k s' with
        | Some (w, caps) => Some (String c w, caps)
        | None => pair EmptyString <$> k s
        end
      else pair EmptyString <$> k s
  | EmptyString => pair EmptyString <$> k s
  end.

Definition match_quant (a : cset) (q : quant)
    (k : string -> option (list string)) (s : string)
  : option (string * list string) :=
  match q with
  | One =>
      match s with
      | String c s' =>
          if cset_mem a c then pair (String c EmptyString) <$> k s' else None
      | EmptyString => None
      end
  | Star => star a k s
  | Plus =>
      match s with
      | String c s' =>
          if cset_mem a c
          then (fun r => (String c (fst r), snd r)) <$> star a k s'
          else None
      | EmptyString => None
      end
  end.

Fixpoint match_here (r : list item) (s : string) : option (list string) :=
  match r with
  | [] => Some []
  | Eol :: r' =>
      match s with
      | EmptyString => match_here r' s
      | String _ _ => None
      end
  | Atom a q capture :: r' =>
      match match_quant a q (match_here r') s with
      | Some (w, caps) => Some (if capture then w :: caps else caps)
      | None => None
      end
  end.

(** An unanchored pattern is tried at every position, leftmost first. *)
Fixpoint search (r : list item) (s : string) : option (list string) :=
  match match_here r s with
  | Some caps => Some caps
  | None =>
      match s with
      | String _ s' => search r s'
      | EmptyString => None
      end
  end.

(** [exec] gives the captures of the match (groups 1, 2, ...), [None]
    for JavaScript's null; [test] says whether there is a match. *)
Definition exec (r : t) (s : string) : option (list string) :=
  if anchored r then match_here (items r) s else search (items r) s.

Definition test (r : t) (s : string) : bool :=
  match exec r s with Some _ => true | None => false end.

(** Writing patterns down. *)
Definition chars (s : string) : list item :=
  map (fun c => Atom (Chr c) One false) (list_ascii_of_string s).

Definition hex (b : byte) : list item := [Atom (Chr (ascii_of_byte b)) One false].

(** The language of a pattern: [Matches r w rest] says that [r] matches
    the text [w] when [rest] is what follows it in the input. *)
Fixpoint all_in (a : cset) (w : string) : Prop :=
  match w with
  | EmptyString => True
  | String c w' => cset_mem a c = true /\ all_in a w'
  end.

Fixpoint Matches (r : list item) (w rest : string) : Prop :=
  match r with
  | [] => w = EmptyString
  | Eol :: r' => w = EmptyString /\ rest = EmptyString /\ Matches r' w rest
  | Atom a One _ :: r' =>
      exists c w', w = String c w' /\ cset_mem a c = true /\ Matches r' w' rest
  | Atom a Star _ :: r' =>
      exists w1 w2, w = (w1 ++ w2)%string /\ all_in a w1 /\ Matches r' w2 rest
  | Atom a Plus _ :: r' =>
      exists c w1 w2, w = String c (w1 ++ w2)%string /\ cset_mem a c = true /\
        all_in a w1 /\ Matches r' w2 rest
  end.

(** The texts a pattern matches from their first to their last
    character, nothing following. *)
Definition Lang (r : t) (w : string) : Prop := Matches (items r) w EmptyString.

Fixpoint eol_free (r : list item) : bool :=
  match r with
  | [] => true
  | Eol :: _ => false
  | Atom _ _ _ :: r' => eol_free r'
  end.

(** The least number of characters a match consumes. *)
Fixpoint min_len (r : list item) : nat :=
  match r with
  | [] => 0
  | Eol :: r' => min_len r'
  | Atom _ Star _ :: r' => min_len r'
  | Atom _ _ _ :: r' => S (min_len r')
  end.

End RegExp.

Import RegExp.

(** ** The sniffer *)

(** [Blob.slice(start, end)]: both ends are clamped to the blob, a
    negative one counts from its end. *)
Definition blob_clamp (size i : Z) : Z :=
  if (i <? 0)%Z then Z.max (size + i) 0 else Z.min i size.

Definition blob_slice (start end_ : Z) (blob : list byte) : list byte :=
  let size := Z.of_nat (length blob) in
  let relativeStart := blob_clamp size start in
  let relativeEnd := blob_clamp size end_ in
  let span := Z.max (relativeEnd - relativeStart) 0 in
  take (Z.to_nat span) (drop (Z.to_nat relativeStart) blob).

(** [new Response(blob).arrayBuffer()]: the bytes of the blob. *)
Definition blobToArrayBuffer (blob : list byte) : list byte := blob.

Definition fromCodePoint (v : byte) : string :=
  String (ascii_of_byte v) EmptyString.

Definition join (sep : string) (l : list string) : string := String.concat sep l.

Definition pdf := "application/pdf".
Definition gif := "image/gif".
Definition png := "image/png".
Definition jpeg := "image/jpeg".
Definition bmp := "image/bmp".
Definition tiff := "image/tiff".
Definition webp := "image/webp".
Definition webp2 := "image/webp2".
Definition avif := "image/avif".
Definition jxl := "image/jxl".

Definition re (l : list item) : RegExp.t := RegExp.mk true l.

Definition magicNumberMapInput : list (RegExp.t * string) :=
  [ (re (chars "%PDF-"), pdf);
    (re (chars "GIF87a"), gif);
    (re (chars "GIF89a"), gif);
    (re (hex x89 ++ chars "PNG" ++ hex x0d ++ hex x0a ++ hex x1a ++ hex x0a), png);
    (re (hex xff ++ hex xd8 ++ hex xff), jpeg);
    (re (chars "BM"), bmp);
    (re (chars "I I"), tiff);
    (re (chars "I" ++ [Atom (Chr "I") Star false]), tiff);
    (re (chars "MM" ++ [Atom (Chr (ascii_of_byte x00)) Star false]), tiff);
    (re (chars "RIFF" ++ [Atom Dot One false; Atom Dot One false;
                          Atom Dot One false; Atom Dot One false]
           ++ chars "WEBPVP8" ++ [Atom (OneOf ["L"; "X"; " "]%char) One false]), webp);
    (re (hex xf4 ++ hex xff ++ hex x6f), webp2);
    (re (hex x00 ++ hex x00 ++ hex x00 ++ chars " ftypavif"
           ++ hex x00 ++ hex x00 ++ hex x00 ++ hex x00), avif);
    (re (hex xff ++ hex x0a), jxl);
    (re (hex x00 ++ hex x00 ++ hex x00 ++ hex x0c ++ chars "JXL "
           ++ hex x0d ++ hex x0a ++ hex x87 ++ hex x0a), jxl) ].

(** [new Map(magicNumberMapInput)]: the keys are fourteen different
    RegExp objects, so the map keeps every entry, in insertion order. *)
Definition magicNumberToMimeType : list (RegExp.t * string) := magicNumberMapInput.

(** The [for ... of] loop of [sniffMimeType] over the entries of a map. *)
Fixpoint firstDetected (entries : list (RegExp.t * string)) (s : string) : string :=
  match entries with
  | [] => ""
  | (detector, mimeType) :: entries' =>
      if test detector s then mimeType else firstDetected entries' s
  end.

Definition firstChunkString (blob : list byte) : string :=
  let firstChunk := blobToArrayBuffer (blob_slice 0 16 blob) in
  join "" (map fromCodePoint firstChunk).

(** [sniffMimeType(blob)]: what its promise is fulfilled with. *)
Definition sniffMimeType (blob : list byte) : string :=
  firstDetected magicNumberToMimeType (firstChunkString blob).

(** ** Promises, microtasks and the abort signal

    The part of the host that [abortable] and [canDecodeImageType] talk
    to: a heap of promises addressed by their index, each pending with
    its list of reactions or settled; the queue of microtasks; one
    [AbortSignal] with its [abort] listeners. *)

Inductive exn : Type :=
| DOMException (message name : string)
| Error (message : string).

(** [new DOMException('AbortError', 'AbortError')] *)
Definition AbortError : exn := DOMException "AbortError" "AbortError".

(** [e.name], by which callers recognise an error. *)
Definition exn_name (e : exn) : string :=
  match e with
  | DOMException _ name => name
  | Error _ => "Error"
  end.

Section Promises.

Context {V : Type}.

Inductive outcome : Type :=
| Fulfilled (v : V)
| Rejected (e : exn).

Inductive pstate : Type :=
| Pending
| Settled (o : outcome).

(** A reaction registered by [then(resolve, reject)] with the resolving
    functions of another promise is kept as the index of that promise. *)
Record promise : Type := mkPromise {
  p_state : pstate;
  p_reactions : list nat
}.

Inductive job : Type :=
| ReactionJob (target : nat) (o : outcome)
    (* PromiseReactionJob: hand [o] to the resolving functions of [target] *)
| ResolveThenableJob (target source : nat).
    (* NewPromiseResolveThenableJob: [source.then(resolve, reject)] of [target] *)

Record AbortSignal : Type := mkSignal {
  aborted : bool;
  listeners : list nat   (* each listener rejects this promise with an AbortError *)
}.

Record state : Type := mkState {
  heap : list promise;
  jobs : list job;
  signal : AbortSignal
}.

Definition pstateOf (st : state) (q : nat) : option pstate :=
  p_state <$> heap st !! q.

Definition reactionsOf (st : state) (q : nat) : list nat :=
  default [] (p_reactions <$> heap st !! q).

(** A new pending promise; its index is the reference handed out. *)
Definition newPromise (st : state) : nat * state :=
  (length (heap st),
   mkState (heap st ++ [mkPromise Pending []]) (jobs st) (signal st)).

(** The resolving functions of promise [q], called with a value that is
    not a thenable, or with a reason: the first call settles [q] and
    queues one job per reaction, later calls do nothing. *)
Definition settle (q : nat) (o : outcome) (st : state) : state :=
  match heap st !! q with
  | Some (mkPromise Pending rs) =>
      mkState (<[q := mkPromise (Settled o) []]> (heap st))
              (jobs st ++ map (fun t => ReactionJob t o) rs)
              (signal st)
  | _ => st
  end.

(** [q.then(resolve, reject)] with the resolving functions of [target]. *)
Definition promiseThen (q target : nat) (st : state) : state :=
  match heap st !! q with
  | Some (mkPromise Pending rs) =>
      mkState (<[q := mkPromise Pending (rs ++ [target])]> (heap st))
              (jobs st) (signal st)
  | Some (mkPromise (Settled o) _) =>
      mkState (heap st) (jobs st ++ [ReactionJob target o]) (signal st)
  | None => st
  end.

(** Resolving [target] with the promise [source] (a thenable). *)
Definition resolveWithPromise (target source : nat) (st : state) : state :=
  mkState (heap st) (jobs st ++ [ResolveThenableJob target source]) (signal st).

Definition runJob (j : job) (st : state) : state :=
  match j with
  | ReactionJob target o => settle target o st
  | ResolveThenableJob target source => promiseThen source target st
  end.

(** One microtask: the oldest job of the queue. *)
Definition runMicrotask (st : state) : state :=
  match jobs st with
  | [] => st
  | j :: js => runJob j (mkState (heap st) js (signal st))
  end.

(** [signal.addEventListener('abort', () => reject(new DOMException(...)))]
    where [reject] belongs to promise [q]. *)
Definition addEventListener (q : nat) (st : state) : state :=
  mkState (heap st) (jobs st)
          (mkSignal (aborted (signal st)) (listeners (signal st) ++ [q])).

(** [controller.abort()]: the first call sets the flag and fires the
    [abort] event, the listeners running in the order they were added. *)
Definition signalAbort (st : state) : state :=
  if aborted (signal st) then st
  else
    foldl (fun s q => settle q (Rejected AbortError) s)
          (mkState (heap st) (jobs st) (mkSignal true (listeners (signal st))))
          (listeners (signal st)).

(** [assertSignal(signal)]: [Some e] when it throws [e]. *)
Definition assertSignal (st : state) : option exn :=
  if aborted (signal st) then Some AbortError else None.

(** [abortable(signal, promise)].  An async function: its promise
    exists before the body runs, an exception of the body rejects it, and
    [return] of a promise resolves it with that promise.  [Promise.race]
    subscribes to its elements in order; the array holds [promise] and the
    promise that the [abort] listener rejects. *)
Definition abortable (promise : nat) (st : state) : nat * state :=
  let (result, st) := newPromise st in
  match assertSignal st with
  | Some e => (result, settle result (Rejected e) st)
  | None =>
      let (abortPromise, st) := newPromise st in
      let st := addEventListener abortPromise st in
      let (race, st) := newPromise st in
      let st := promiseThen promise race st in
      let st := promiseThen abortPromise race st in
      (result, resolveWithPromise result race st)
  end.

(** What the program can do to the state afterwards. *)
Inductive event : Type :=
| Microtask                         (* the event loop runs one microtask *)
| Settle (q : nat) (o : outcome)    (* the owner of promise [q] settles it *)
| Abort                             (* [controller.abort()] *)
| Create                            (* a new pending promise is made *)
| Subscribe (q target : nat)        (* [q.then(resolve, reject)] of [target] *)
| Adopt (target source : nat).      (* [target] is resolved with promise [source] *)

Definition step (e : event) (st : state) : state :=
  match e with
  | Microtask => runMicrotask st
  | Settle q o => settle q o st
  | Abort => signalAbort st
  | Create => (newPromise st).2
  | Subscribe q target => promiseThen q target st
  | Adopt target source => resolveWithPromise target source st
  end.

Definition run (tr : list event) (st : state) : state :=
  foldl (fun s e => step e s) st tr.

(** The microtask checkpoint: run jobs until the queue is empty.
    [weight] bounds the number of jobs that can still run. *)
Definition jobWeight (j : job) : nat :=
  match j with
  | ReactionJob _ _ => 1
  | ResolveThenableJob _ _ => 2
  end.

Definition weight (st : state) : nat :=
  sum_list_with jobWeight (jobs st) +
  sum_list_with (fun p => length (p_reactions p)) (heap st).

Definition drain (st : state) : state :=
  run (replicate (weight st) Microtask) st.

(** References of a well-formed state point into its heap. *)
Definition jobRefs (j : job) : list nat :=
  match j with
  | ReactionJob t _ => [t]
  | ResolveThenableJob t s => [t; s]
  end.

Definition wf (st : state) : Prop :=
  Forall (fun j => Forall (fun t => t < length (heap st)) (jobRefs j)) (jobs st) /\
  Forall (fun p => Forall (fun t => t < length (heap st)) (p_reactions p)) (heap st) /\
  Forall (fun q => q < length (heap st)) (listeners (signal st)).

End Promises.

Arguments outcome : clear implicits.
Arguments promise : clear implicits.
Arguments pstate : clear implicits.
Arguments job : clear implicits.
Arguments state : clear implicits.
Arguments event : clear implicits.

(** ** The memoised capability probe *)
Section CanDecode.

(** What the browser answers: whether [img.currentSrc] is set once the
    [source] element of the given type has been considered. *)
Variable currentSrcSet : string -> bool.

(** The module state: the host, [canDecodeCache], and a log of the
    probes made (one [picture] element built per entry). *)
Record cdstate : Type := mkCd {
  host : state bool;
  canDecodeCache : gmap string nat;
  probes : list string
}.

Definition cd_init : cdstate :=
  mkCd (mkState [] [] (mkSignal false [])) ∅ [].

(** The async arrow function called at once: it builds the elements,
    reaches [await 0] and hands back its promise; what follows the
    [await] is a microtask that fulfils the promise with
    [!!img.currentSrc]. *)
Definition probe (type : string) (st : cdstate) : nat * cdstate :=
  let (resultPromise, h) := newPromise (host st) in
  (resultPromise,
   mkCd (mkState (heap h)
                 (jobs h ++ [ReactionJob resultPromise (Fulfilled (currentSrcSet type))])
                 (signal h))
        (canDecodeCache st)
        (probes st ++ [type])).

Definition cache_has (type : string) (st : cdstate) : bool :=
  bool_decide (is_Some (canDecodeCache st !! type)).

Definition cache_set (type : string) (p : nat) (st : cdstate) : cdstate :=
  mkCd (host st) (<[type := p]> (canDecodeCache st)) (probes st).

(** [canDecodeImageType(type)]; [None] would be [undefined]. *)
Definition canDecodeImageType (type : string) (st : cdstate) : option nat * cdstate :=
  let st :=
    if negb (cache_has type st) then
      let (resultPromise, st) := probe type st in
      cache_set type resultPromise st
    else st in
  (canDecodeCache st !! type, st).

Inductive cd_event : Type :=
| Call (type : string)     (* somebody calls [canDecodeImageType(type)] *)
| Tick.                    (* the event loop runs one microtask *)

Definition cd_step (e : cd_event) (st : cdstate) : cdstate :=
  match e with
  | Call type => (canDecodeImageType type st).2
  | Tick => mkCd (runMicrotask (host st)) (canDecodeCache st) (probes st)
  end.

Definition cd_run (evs : list cd_event) (st : cdstate) : cdstate :=
  foldl (fun s e => cd_step e s) st evs.

End CanDecode.

(** One probe per key of the cache. *)
Definition cd_inv (st : cdstate) : Prop :=
  NoDup (probes st) /\
  forall t, t ∈ probes st <-> is_Some (canDecodeCache st !! t).

(** ** The canvas encoder *)

(** A function that returns or throws. *)
Inductive completion (A : Type) : Type :=
| Return (a : A)
| Throw (e : exn).
Arguments Return {A} a.
Arguments Throw {A} e.

#[global] Instance completion_bind : MBind completion :=
  fun A B (k : A -> completion B) (c : completion A) =>
    match c with
    | Return a => k a
    | Throw e => Throw e
    end.

Record Blob : Type := mkBlob { blob_bytes : list byte; blob_type : string }.

Record ImageData : Type := mkImageData {
  width : nat; height : nat; pixels : list byte
}.

(** The pattern of the data URL: [data:], a first group of one or more
    characters other than [;], then [;base64,], a second group of any
    characters up to the end of the input. *)
Definition dataUrlRegExp : RegExp.t :=
  RegExp.mk false
    (chars "data:" ++ [Atom (NoneOf [";"%char]) Plus true]
       ++ chars ";base64," ++ [Atom Dot Star true; Eol]).

(** What the pattern asks of the two groups. *)
Definition wellFormedDataUrl (outputType b64 : string) : Prop :=
  outputType <> "" /\ all_in (NoneOf [";"%char]) outputType /\ all_in Dot b64.

(** The [type] of [new Blob(parts, { type })]: the empty string if a
    character is outside U+0020..U+007E, else lower-cased. *)
Definition asciiLower (c : ascii) : ascii :=
  let n := nat_of_ascii c in
  if (65 <=? n)%nat && (n <=? 90)%nat then ascii_of_nat (n + 32) else c.

Definition printable (c : ascii) : bool :=
  let n := nat_of_ascii c in (32 <=? n)%nat && (n <=? 126)%nat.

Definition blobType (t : string) : string :=
  if forallb printable (list_ascii_of_string t)
  then string_of_list_ascii (map asciiLower (list_ascii_of_string t))
  else "".

Definition newBlob (part : list byte) (type : string) : Blob :=
  mkBlob part (blobType type).

(** [binaryStr.charCodeAt(i)], a byte since [atob] gives a binary string. *)
Definition charCodeAt (s : string) (i : nat) : byte :=
  match String.get i s with
  | Some c => byte_of_ascii c
  | None => x00
  end.

(** [new Uint8Array(n)] and the loop [data[i] = binaryStr.charCodeAt(i)]. *)
Definition fillFrom (binaryStr : string) : list byte :=
  foldl (fun data i => <[i := charCodeAt binaryStr i]> data)
        (replicate (String.length binaryStr) x00)
        (seq 0 (String.length binaryStr)).

Section CanvasEncode.

(** The browser: the quality is a number it interprets. *)
Variable number : Type.

Record Canvas : Type := mkCanvas {
  getContext2d : bool;      (* whether [getContext('2d')] gives a context *)
  hasToBlob : bool;         (* ['toBlob' in canvas] *)
  toBlob : ImageData -> string -> option number -> option Blob;
  toDataURL : ImageData -> string -> option number -> string;
  atob : string -> completion string
}.

Variable canvas : Canvas.

Definition canvasEncode (data : ImageData) (type : string) (quality : option number)
  : completion Blob :=
  if negb (getContext2d canvas) then Throw (Error "Canvas not initialized")
  else
    blob ←
      (if hasToBlob canvas then Return (toBlob canvas data type quality)
       else
         let dataUrl := toDataURL canvas data type quality in
         match RegExp.exec dataUrlRegExp dataUrl with
         | None => Throw (Error "Data URL reading failed")
         | Some result =>
             let outputType := default "" (result !! 0) in
             binaryStr ← atob canvas (default "" (result !! 1));
             Return (Some (newBlob (fillFrom binaryStr) outputType))
         end);
    match blob with
    | None => Throw (Error "Encoding failed")
    | Some b => Return b
    end.

(** [canvasEncodeTest(mimeType)]; the image is [new ImageData(1, 1)]. *)
Definition canvasEncodeTest (mimeType : string) : bool :=
  match canvasEncode (mkImageData 1 1 [x00; x00; x00; x00]) mimeType None with
  | Return blob => bool_decide (blob_type blob = mimeType)
  | Throw _ => false
  end.

End CanvasEncode.

Arguments mkCanvas {number}.
Arguments getContext2d {number}.
Arguments hasToBlob {number}.
Arguments toBlob {number}.
Arguments toDataURL {number}.
Arguments atob {number}.
Arguments canvasEncode {number}.
Arguments canvasEncodeTest {number}.

(** ** What holds after [abortable] has been called

    [abortable promise] was called in a state whose heap had [n0]
    promises, with the signal not aborted: the result promise is [n0],
    the promise of the listener [n0 + 1] and the race [n0 + 2]. *)
Section AbortableInvariant.

Context {V : Type}.
Variables (n0 promise : nat).

Let result := n0.
Let abortPromise := S n0.
Let race := S (S n0).

(** The promises of the rest of the program: those that were there
    before the call and those made after it. *)
Definition outside (q : nat) : Prop := q < n0 \/ n0 + 3 <= q.

(** Who may settle what: a job for the race carries the outcome of one of
    its two elements, a job for the result carries the outcome of the
    race. *)
Definition settle_ok (st : state V) (t : nat) (o : outcome V) : Prop :=
  outside t \/
  (t = race /\ (pstateOf st promise = Some (Settled o) \/
                pstateOf st abortPromise = Some (Settled o))) \/
  (t = result /\ pstateOf st race = Some (Settled o)).

Definition job_ok (st : state V) (j : job V) : Prop :=
  match j with
  | ReactionJob t o => settle_ok st t o
  | ResolveThenableJob t s =>
      (outside t /\ (outside s \/ s = result)) \/ (t = result /\ s = race)
  end.

Definition reaction_ok (q t : nat) : Prop :=
  ((outside q \/ q = result) /\ outside t) \/
  (t = race /\ (q = promise \/ q = abortPromise)) \/
  (t = result /\ q = race).

Record Safe (st : state V) : Prop := mkSafe {
  safe_length : n0 + 3 <= length (heap st);
  safe_promise : promise < n0;
  safe_abortPromise :
    pstateOf st abortPromise = Some Pending \/
    (pstateOf st abortPromise = Some (Settled (Rejected AbortError)) /\
     aborted (signal st) = true);
  safe_race : forall o,
    pstateOf st race = Some (Settled o) ->
    pstateOf st promise = Some (Settled o) \/
    pstateOf st abortPromise = Some (Settled o);
  safe_result : forall o,
    pstateOf st result = Some (Settled o) ->
    pstateOf st race = Some (Settled o);
  safe_jobs : forall j, j ∈ jobs st -> job_ok st j;
  safe_reactions : forall q t, t ∈ reactionsOf st q -> reaction_ok q t;
  safe_listeners : forall l,
    l ∈ listeners (signal st) -> outside l \/ l = abortPromise
}.

(** Events of the rest of the program.  It holds the resolving
    functions of its own promises only; of the three promises of the
    call it knows the result, to which it can subscribe. *)
Definition admissible (e : event V) : Prop :=
  match e with
  | Settle q _ => outside q
  | Subscribe q t => (outside q \/ q = result) /\ outside t
  | Adopt t s => outside t /\ (outside s \/ s = result)
  | _ => True
  end.

End AbortableInvariant.

Section Following.

Context {V : Type}.

(** The state [abortable promise] leaves when the signal is not aborted. *)
Definition started (promise : nat) (st : state V) : state V :=
  let n0 := length (heap st) in
  resolveWithPromise n0 (S (S n0))
    (promiseThen (S n0) (S (S n0))
      (promiseThen promise (S (S n0))
        (mkState (heap st ++ [mkPromise Pending []; mkPromise Pending [];
                              mkPromise Pending []])
                 (jobs st)
                 (mkSignal (aborted (signal st))
                           (listeners (signal st) ++ [S n0]))))).


(** [y] is subscribed to [x]: a reaction of [x] while it is pending,
    then a job for [y], then [y] settled. *)
Definition follows (st : state V) (x y : nat) : Prop :=
  (pstateOf st x = Some Pending /\ y ∈ reactionsOf st x) \/
  (exists o, pstateOf st x = Some (Settled o) /\
     (ReactionJob y o ∈ jobs st \/ exists o', pstateOf st y = Some (Settled o'))).

(** A settled promise stays as it is. *)
Definition settled_mono (st st' : state V) : Prop :=
  forall x o, pstateOf st x = Some (Settled o) -> pstateOf st' x = Some (Settled o).

(** [y] was resolved with the promise [x]. *)
Definition adopts (st : state V) (y x : nat) : Prop :=
  ResolveThenableJob y x ∈ jobs st \/ follows st x y.

End Following.

(** ** More on the sniffer: the literal head of a pattern *)

(** The characters a pattern asks for before its first class, dot or
    quantifier. *)
Fixpoint lits (r : list item) : string :=
  match r with
  | Atom (Chr c) One _ :: r' => String c (lits r')
  | _ => EmptyString
  end.

(** Two texts that agree as far as both go. *)
Fixpoint compatible (a b : string) : bool :=
  match a, b with
  | String x a', String y b' => Ascii.eqb x y && compatible a' b'
  | _, _ => true
  end.

(** No two entries of different types have compatible heads. *)
Definition heads_apart (entries : list (RegExp.t * string)) : bool :=
  forallb (fun e1 =>
    forallb (fun e2 =>
      implb (compatible (lits (items e1.1)) (lits (items e2.1)))
            (String.eqb e1.2 e2.2)) entries) entries.

(** ** Who wins the race *)
Section Leads.

Context {V : Type}.

(** Promise [q] is settled with [o], or it is pending and the first job
    of the queue that reaches it carries [o]. *)
Definition leads (st : state V) (q : nat) (o : outcome V) : Prop :=
  pstateOf st q = Some (Settled o) \/
  (pstateOf st q = Some Pending /\
   exists pre post, jobs st = pre ++ ReactionJob q o :: post /\
                    forall o', ReactionJob q o' ∉ pre).

End Leads.

(** ** More on the probe: what its promises become *)
Section ProbeLive.

Variable currentSrcSet : string -> bool.

(** Every job of the queue is the continuation of a probe, every cached
    promise is fulfilled with the answer for its label or waits for that
    continuation, no promise has a reaction and no two labels share a
    promise. *)
Record cd_live (st : cdstate) : Prop := mkCdLive {
  live_jobs : forall j, j ∈ jobs (host st) ->
    exists t p, j = ReactionJob p (Fulfilled (currentSrcSet t)) /\
                canDecodeCache st !! t = Some p;
  live_cache : forall t p, canDecodeCache st !! t = Some p ->
    pstateOf (host st) p = Some (Settled (Fulfilled (currentSrcSet t))) \/
    (pstateOf (host st) p = Some Pending /\
     ReactionJob p (Fulfilled (currentSrcSet t)) ∈ jobs (host st));
  live_reactions : forall q, reactionsOf (host st) q = [];
  live_inj : forall t1 t2 p,
    canDecodeCache st !! t1 = Some p -> canDecodeCache st !! t2 = Some p ->
    t1 = t2
}.

End ProbeLive.

(** ** shallowEqual *)
Section ShallowEqual.

(** Numbers other than NaN, up to [===] (the two zeros are one). *)
Context {number : Type} `{EqDecision number}.

Inductive jsval : Type :=
| Undefined
| Null
| Boolean (b : bool)
| NaN
| Number (n : number)
| Str (s : string)
| Ref (address : nat).       (* an object, a function: compared by identity *)

#[global] Instance jsval_eq_dec : EqDecision jsval.
Proof. solve_decision. Defined.

(** [a === b] *)
Definition strictEq (a b : jsval) : bool :=
  match a, b with
  | NaN, _ | _, NaN => false
  | _, _ => bool_decide (a = b)
  end.

(** An ordinary object: its own properties, all enumerable, over a
    prototype whose properties are inherited and are not enumerable. *)
Variable objectPrototype : gmap string jsval.

(** [o[i]] *)
Definition getProp (o : gmap string jsval) (i : string) : jsval :=
  match o !! i with
  | Some v => v
  | None => default Undefined (objectPrototype !! i)
  end.

(** [i in o] *)
Definition hasProp (o : gmap string jsval) (i : string) : bool :=
  bool_decide (is_Some (o !! i)) || bool_decide (is_Some (objectPrototype !! i)).

(** The names that [for (const i in o)] goes through. *)
Definition forInKeys (o : gmap string jsval) : list string := (map_to_list o).*1.

Definition shallowEqual (one two : gmap string jsval) : bool :=
  if existsb (fun i => negb (strictEq (getProp one i) (getProp two i)))
             (forInKeys one)
  then false
  else if existsb (fun i => negb (hasProp one i)) (forInKeys two)
  then false
  else true.

End ShallowEqual.

Arguments jsval : clear implicits.

(** ** konami *)

From Stdlib Require Import DecimalString NArith.

(** [ToString] of a key code, a non-negative integer. *)
Definition numberToString (n : N) : string :=
  NilZero.string_of_uint (N.to_uint n).

Fixpoint dropString (n : nat) (s : string) : string :=
  match n, s with
  | O, _ => s
  | S n', String _ s' => dropString n' s'
  | S _, EmptyString => EmptyString
  end.

(** [s.slice(start)]: from [start], counted from the end when negative,
    to the end of the string. *)
Definition stringSlice (start : Z) (s : string) : string :=
  let len := Z.of_nat (String.length s) in
  let from := if (start <? 0)%Z then Z.max (len + start) 0 else Z.min start len in
  dropString (Z.to_nat from) s.

Definition expectedPattern : string := "38384040373937396665".

(** The closure of [konami]: the digits kept, and whether the promise is
    resolved, the listener being removed when it is. *)
Record konamiState : Type := mkKonami {
  rollingPattern : string;
  resolved : bool
}.

Definition konamiListener (keyCode : N) (st : konamiState) : konamiState :=
  let rollingPattern := rollingPattern st +:+ numberToString keyCode in
  let rollingPattern :=
    stringSlice (- Z.of_nat (String.length expectedPattern)) rollingPattern in
  mkKonami rollingPattern (String.eqb rollingPattern expectedPattern).

(** A [keydown] event: it reaches the listener while it is registered. *)
Definition keydown (keyCode : N) (st : konamiState) : konamiState :=
  if resolved st then st else konamiListener keyCode st.

(** [konami()], then the keys pressed. *)
Definition konami (keys : list N) : konamiState :=
  foldl (fun st keyCode => keydown keyCode st) (mkKonami "" false) keys.

(** The digits of the keys pressed, one key after the other. *)
Definition typed (keys : list N) : string :=
  String.concat "" (map numberToString keys).

(** Up, up, down, down, left, right, left, right, B, A. *)
Definition konamiCode : list N := [38; 38; 40; 40; 37; 39; 37; 39; 66; 65]%N.

(** ** decodeImage and blobToImg *)

(** An asynchronous function seen from its caller: it returns, throws,
    or never settles. *)
Inductive settlement (A : Type) : Type :=
| Settles (c : completion A)
| Never.
Arguments Settles {A} c.
Arguments Never {A}.

Section BlobToImg.

Variable Image : Type.      (* HTMLImageElement *)

(** What the browser does with an image whose [src] is set: whether
    [img.decode] exists and how its promise ends, and which of [onload]
    and [onerror] is called, if any. *)
Record ImageLoading : Type := mkImageLoading {
  img : Image;
  hasDecode : bool;
  decode : settlement unit;
  load : option bool     (* [Some true]: onload, [Some false]: onerror *)
}.

(** [promise.catch(() => null)] *)
Definition catchNull (s : settlement unit) : settlement unit :=
  match s with
  | Settles (Throw _) => Settles (Return tt)
  | _ => s
  end.

(** [await loaded] *)
Definition loaded (l : ImageLoading) : settlement Image :=
  match load l with
  | Some true => Settles (Return (img l))
  | Some false => Settles (Throw (Error "Image loading error"))
  | None => Never
  end.

Definition decodeImage (l : ImageLoading) : settlement Image :=
  if hasDecode l then
    match catchNull (decode l) with
    | Settles (Return _) => loaded l
    | Settles (Throw e) => Settles (Throw e)
    | Never => Never
    end
  else loaded l.

(** The object URLs that are alive, each with its blob. *)
Definition createObjectURL (blob : Blob) (urls : gmap nat Blob) : nat * gmap nat Blob :=
  let url := fresh (dom urls) in (url, <[url := blob]> urls).

Definition revokeObjectURL (url : nat) (urls : gmap nat Blob) : gmap nat Blob :=
  delete url urls.

(** What loading the image of a URL does. *)
Variable loading : nat -> ImageLoading.

(** [blobToImg(blob)]: the [finally] block runs when [decodeImage]
    has settled, one way or the other. *)
Definition blobToImg (blob : Blob) (urls : gmap nat Blob)
  : settlement Image * gmap nat Blob :=
  let (url, urls) := createObjectURL blob urls in
  match decodeImage (loading url) with
  | Settles c => (Settles c, revokeObjectURL url urls)
  | Never => (Never, urls)
  end.

End BlobToImg.

Arguments mkImageLoading {Image}.
Arguments img {Image}.
Arguments hasDecode {Image}.
Arguments decode {Image}.
Arguments load {Image}.
Arguments loaded {Image}.
Arguments decodeImage {Image}.
Arguments blobToImg {Image}.

(** ** transitionHeight *)
Section TransitionHeight.

(** Numbers, with [===] on them and their conversion to a string. *)
Context {number : Type}.
Variable numberEq : number -> number -> bool.
Variable numberString : number -> string.
Variable zero thousand : number.

Record TransitionOptions : Type := mkTransitionOptions {
  from : option number;
  to : option number;
  duration : option number;
  easing : option string
}.

Inductive transitionEvent : Type := transitionend | transitioncancel.

(** An event that reaches the element: they bubble, so the target is
    the element or one below it. Elements are told apart by identity. *)
Record Event : Type := mkEvent {
  type : transitionEvent;
  target : nat
}.

(** The element's inline style, whether [listener] is registered for
    each of the two events, and whether the returned promise is
    resolved. *)
Record elState : Type := mkElState {
  styleHeight : string;
  styleTransition : string;
  onTransitionend : bool;
  onTransitioncancel : bool;
  finished : bool
}.

Definition listener (el : nat) (event : Event) (st : elState) : elState :=
  if negb (Nat.eqb (target event) el) then st
  else mkElState (styleHeight st) "" false false true.

(** [clientHeight] is [el.getBoundingClientRect().height]. *)
Definition transitionHeight (el : nat) (clientHeight : number)
    (opts : TransitionOptions) (st : elState) : elState :=
  let from := default clientHeight (from opts) in
  let to := default clientHeight (to opts) in
  let duration := default thousand (duration opts) in
  let easing := default "ease-in-out" (easing opts) in
  if numberEq from to || numberEq duration zero then
    mkElState (numberString to +:+ "px") (styleTransition st)
              (onTransitionend st) (onTransitioncancel st) true
  else
    mkElState (numberString to +:+ "px")
              ("height " +:+ numberString duration +:+ "ms " +:+ easing)
              true true false.

(** The browser dispatching an event on the element. *)
Definition dispatch (el : nat) (event : Event) (st : elState) : elState :=
  if match type event with
     | transitionend => onTransitionend st
     | transitioncancel => onTransitioncancel st
     end
  then listener el event st else st.

Definition dispatchAll (el : nat) (events : list Event) (st : elState) : elState :=
  foldl (fun st event => dispatch el event st) st events.

End TransitionHeight.

Arguments TransitionOptions : clear implicits.

(** ** builtinDecode *)
Section BuiltinDecode.

Context {V : Type}.

(** The platform: whether a value counts as true, whether a canvas gives
    a 2d context, what drawing a drawable on a canvas of its size and
    reading the canvas back gives. *)
Variable truthy : V -> bool.
Variable canvasContext : bool.
Variable getImageData : V -> V.

(** What a call of [WebCodecs.isTypeSupported], of [WebCodecs.decode] and
    of [createImageBitmap] (or [blobToImg] where the platform lacks it)
    does: it throws, or returns a promise in the given state. *)
Variables isTypeSupported webCodecsDecode createImageBitmap : completion (pstate V).

(** [drawableToImageData(drawable)], without options. *)
Definition drawableToImageData (drawable : V) : completion V :=
  if negb canvasContext then Throw (Error "Could not create canvas context")
  else Return (getImageData drawable).

(** A call that returns a promise makes a new one. *)
Definition callAsync (call : completion (pstate V)) (st : state V)
  : completion nat * state V :=
  match call with
  | Return s =>
      (Return (length (heap st)),
       mkState (heap st ++ [mkPromise s []]) (jobs st) (signal st))
  | Throw e => (Throw e, st)
  end.

Definition settlementOf (o : outcome V) : settlement V :=
  match o with
  | Fulfilled v => Settles (Return v)
  | Rejected e => Settles (Throw e)
  end.

(** [await p]: the function is suspended while the rest of the program
    does [tr], and goes on with the outcome of [p] if [p] is settled
    then. *)
Definition await (p : nat) (tr : list (event V)) (st : state V)
  : settlement V * state V :=
  let st := run tr st in
  (match pstateOf st p with
   | Some (Settled o) => settlementOf o
   | _ => Never
   end, st).

(** From the second [assertSignal] to the end. *)
Definition decodeWithCanvas (tr3 : list (event V)) (st : state V)
  : settlement V * state V :=
  match assertSignal st with
  | Some e => (Settles (Throw e), st)
  | None =>
      match callAsync createImageBitmap st with
      | (Throw e, st) => (Settles (Throw e), st)
      | (Return bitmap, st) =>
          let (p, st) := abortable bitmap st in
          match await p tr3 st with
          | (Settles (Return drawable), st) =>
              (Settles (drawableToImageData drawable), st)
          | r => r
          end
      end
  end.

(** The [if] on [WebCodecs.isTypeSupported]: [None] when control leaves
    it at its end, through the condition being false or through the
    [catch]. *)
Definition decodeWithWebCodecs (tr1 tr2 : list (event V)) (st : state V)
  : option (settlement V) * state V :=
  match callAsync isTypeSupported st with
  | (Throw e, st) => (Some (Settles (Throw e)), st)
  | (Return supported, st) =>
      match await supported tr1 st with
      | (Settles (Return v), st) =>
          if truthy v then
            match assertSignal st with
            | Some e => (Some (Settles (Throw e)), st)
            | None =>
                match callAsync webCodecsDecode st with
                | (Throw _, st) => (None, st)
                | (Return decoding, st) =>
                    let (p, st) := abortable decoding st in
                    match await p tr2 st with
                    | (Settles (Return data), st) =>
                        (Some (Settles (Return data)), st)
                    | (Settles (Throw _), st) => (None, st)
                    | (Never, st) => (Some Never, st)
                    end
                end
            end
          else (None, st)
      | (r, st) => (Some r, st)
      end
  end.

(** [builtinDecode(signal, blob, mimeType)], with what the rest of the
    program does during each of the three [await]s. *)
Definition builtinDecode (tr1 tr2 tr3 : list (event V)) (st : state V)
  : settlement V * state V :=
  match decodeWithWebCodecs tr1 tr2 st with
  | (Some r, st) => (r, st)
  | (None, st) => decodeWithCanvas tr3 st
  end.

(** Events that name promises of the heap. *)
Definition inrange (st : state V) (e : event V) : Prop :=
  match e with
  | Subscribe _ t => t < length (heap st)
  | Adopt t s => t < length (heap st) /\ s < length (heap st)
  | _ => True
  end.

Fixpoint runs (tr : list (event V)) (st : state V) : Prop :=
  match tr with
  | [] => True
  | e :: tr => inrange st e /\ runs tr (step e st)
  end.

End BuiltinDecode.

(** * Properties *)

(** ** The matcher against the language of a pattern *)
Section RegExpFacts.

Local Open Scope string_scope.
Local Arguments String.append : simpl nomatch.

Lemma append_assoc (a b c : string) : a ++ (b ++ c) = (a ++ b) ++ c.
Proof. induction a; simpl; congruence. Qed.

Lemma length_append (a b : string) :
  String.length (a ++ b) = String.length a + String.length b.
Proof. induction a; simpl; congruence. Qed.

Lemma star_sound a k s w caps :
  star a k s = Some (w, caps) ->
  exists s2, s = w ++ s2 /\ all_in a w /\ k s2 = Some caps.
Proof.
  revert w caps.
  assert (Hk : forall s w caps, pair EmptyString <$> k s = Some (w, caps) ->
            exists s2, s = w ++ s2 /\ all_in a w /\ k s2 = Some caps).
  { intros s0 w caps H. destruct (k s0) as [c0|] eqn:E; simpl in H; [|discriminate].
    injection H as <- <-. exists s0. simpl. auto. }
  induction s as [|c s IH]; intros w caps H; simpl in H.
  - now apply Hk.
  - destruct (cset_mem a c) eqn:Hc; [|now apply Hk].
    destruct (star a k s) as [[w' caps']|] eqn:E; [|now apply Hk].
    injection H as <- <-.
    destruct (IH _ _ eq_refl) as (s2 & -> & Hall & Hks).
    exists s2. simpl. auto.
Qed.

Lemma star_base a k s : is_Some (k s) -> is_Some (star a k s).
Proof.
  intros [caps Hk].
  destruct s as [|c s]; simpl.
  - rewrite Hk. simpl. eauto.
  - destruct (cset_mem a c); [|rewrite Hk; simpl; eauto].
    destruct (star a k s) as [[w c']|]; [eauto|]. rewrite Hk. simpl. eauto.
Qed.

Lemma star_complete a k w1 s2 :
  all_in a w1 -> is_Some (k s2) -> is_Some (star a k (w1 ++ s2)).
Proof.
  induction w1 as [|c w1 IH]; simpl.
  - intros _. apply star_base.
  - intros [Hc Hall] Hk. rewrite Hc.
    destruct (IH Hall Hk) as [[w caps] ->]. eauto.
Qed.

Lemma match_here_sound r : forall s caps,
  match_here r s = Some caps ->
  exists w rest, s = w ++ rest /\ Matches r w rest.
Proof.
  induction r as [|i r IH]; intros s caps H.
  - exists EmptyString, s. simpl. auto.
  - destruct i as [a q cp|]; simpl in H.
    + destruct (match_quant a q (match_here r) s) as [[w0 caps0]|] eqn:E;
        [clear H|discriminate].
      destruct q; simpl in E.
      * destruct s as [|c s]; [discriminate|].
        destruct (cset_mem a c) eqn:Hc; [|discriminate].
        destruct (match_here r s) as [cs|] eqn:Hr; [|discriminate].
        destruct (IH _ _ Hr) as (w & rest & -> & HM).
        exists (String c w), rest. simpl. eauto 6.
      * apply star_sound in E as (s2 & -> & Hall & Hk).
        destruct (IH _ _ Hk) as (w & rest & -> & HM).
        exists (w0 ++ w), rest. split.
        { apply append_assoc. }
        simpl. eauto.
      * destruct s as [|c s]; [discriminate|].
        destruct (cset_mem a c) eqn:Hc; [|discriminate].
        destruct (star a (match_here r) s) as [[w1 caps1]|] eqn:Es; [|discriminate].
        apply star_sound in Es as (s2 & -> & Hall & Hk).
        destruct (IH _ _ Hk) as (w & rest & -> & HM).
        exists (String c (w1 ++ w)), rest. split.
        { simpl. f_equal. apply append_assoc. }
        simpl. eauto 8.
    + destruct s; [|discriminate].
      destruct (IH _ _ H) as (w & rest & Hs & HM).
      destruct w; [|discriminate]. simpl in Hs. subst rest.
      exists EmptyString, EmptyString. simpl. auto.
Qed.

Lemma match_here_complete r : forall w rest,
  Matches r w rest -> is_Some (match_here r (w ++ rest)).
Proof.
  induction r as [|i r IH]; intros w rest HM; simpl.
  - eauto.
  - destruct i as [a q cp|].
    + destruct q; simpl in HM.
      * destruct HM as (c & w' & -> & Hc & HM). simpl. rewrite Hc.
        destruct (IH _ _ HM) as [cs ->]. simpl. eauto.
      * destruct HM as (w1 & w2 & -> & Hall & HM). simpl.
        rewrite <- append_assoc.
        destruct (star_complete a (match_here r) w1 (w2 ++ rest) Hall (IH _ _ HM))
          as [[w0 cs] ->]. eauto.
      * destruct HM as (c & w1 & w2 & -> & Hc & Hall & HM). simpl. rewrite Hc.
        rewrite <- append_assoc.
        destruct (star_complete a (match_here r) w1 (w2 ++ rest) Hall (IH _ _ HM))
          as [[w0 cs] ->]. simpl. eauto.
    + simpl in HM. destruct HM as (-> & -> & HM). simpl.
      apply (IH EmptyString EmptyString HM).
Qed.

(** [test] on an anchored pattern: some prefix of the input is in the
    language of the pattern. *)
Lemma test_anchored_spec l s :
  test (RegExp.mk true l) s = true <->
  exists w rest, s = w ++ rest /\ Matches l w rest.
Proof.
  unfold test, exec. simpl. split.
  - destruct (match_here l s) eqn:E; [|discriminate].
    intros _. eapply match_here_sound; eauto.
  - intros (w & rest & -> & HM).
    destruct (match_here_complete _ _ _ HM) as [cs ->]. reflexivity.
Qed.

Lemma star_min_len a k s n w caps :
  (forall s' cs, k s' = Some cs -> n <= String.length s') ->
  star a k s = Some (w, caps) -> n <= String.length s.
Proof.
  intros Hk H. apply star_sound in H as (s2 & -> & _ & H2).
  apply Hk in H2. rewrite length_append. lia.
Qed.

Lemma match_here_min_len r : forall s caps,
  match_here r s = Some caps -> min_len r <= String.length s.
Proof.
  induction r as [|i r IH]; intros s caps H; simpl; [lia|].
  destruct i as [a q cp|]; simpl in H.
  - destruct (match_quant a q (match_here r) s) as [[w0 caps0]|] eqn:E;
      [clear H|discriminate].
    destruct q; simpl in E.
    + destruct s as [|c s]; [discriminate|].
      destruct (cset_mem a c); [|discriminate].
      destruct (match_here r s) eqn:Hr; [|discriminate].
      apply IH in Hr. simpl. lia.
    + eapply star_min_len; eauto.
    + destruct s as [|c s]; [discriminate|].
      destruct (cset_mem a c); [|discriminate].
      destruct (star a (match_here r) s) as [[w1 c1]|] eqn:Es; [|discriminate].
      apply star_min_len with (n := min_len r) in Es; eauto. simpl. lia.
  - destruct s; [|discriminate]. eauto.
Qed.

End RegExpFacts.

(** ** The sniffer reads the first sixteen bytes *)
Section SniffFacts.

Local Open Scope string_scope.
Local Arguments String.append : simpl nomatch.

Lemma Matches_eol_free r : forall w rest rest',
  eol_free r = true -> Matches r w rest -> Matches r w rest'.
Proof.
  induction r as [|i r IH]; intros w rest rest' Hf HM; simpl in *; auto.
  destruct i as [a q cp|]; [|discriminate].
  destruct q.
  - destruct HM as (c & w' & -> & Hc & HM). eauto 6.
  - destruct HM as (w1 & w2 & -> & Hall & HM). eauto 6.
  - destruct HM as (c & w1 & w2 & -> & Hc & Hall & HM). eauto 8.
Qed.

Lemma blob_slice_0_16 (blob : list byte) : blob_slice 0 16 blob = take 16 blob.
Proof.
  unfold blob_slice, blob_clamp.
  change (0 <? 0)%Z with false. change (16 <? 0)%Z with false. cbv iota.
  rewrite (Z.min_l 0) by lia. rewrite Z.sub_0_r. change (Z.to_nat 0) with 0%nat.
  rewrite drop_0.
  destruct (Z.min_spec 16 (Z.of_nat (length blob))) as [[Hlt ->]|[Hge ->]].
  - reflexivity.
  - rewrite Z.max_l by lia. rewrite Nat2Z.id.
    rewrite !take_ge; auto; lia.
Qed.

Lemma join_fromCodePoint (l : list byte) :
  join "" (map fromCodePoint l) = string_of_list_byte l.
Proof.
  unfold join. induction l as [|b l IH]; [reflexivity|].
  change (string_of_list_byte (b :: l))
    with (String (ascii_of_byte b) (string_of_list_byte l)).
  rewrite <- IH. simpl. destruct l; reflexivity.
Qed.

Lemma firstChunkString_take (blob : list byte) :
  firstChunkString blob = string_of_list_byte (take 16 blob).
Proof.
  unfold firstChunkString, blobToArrayBuffer.
  now rewrite blob_slice_0_16, join_fromCodePoint.
Qed.

Lemma sniffMimeType_unfold (blob : list byte) :
  sniffMimeType blob =
  firstDetected magicNumberToMimeType (string_of_list_byte (take 16 blob)).
Proof. unfold sniffMimeType. now rewrite firstChunkString_take. Qed.

Lemma string_of_list_byte_cons b l :
  string_of_list_byte (b :: l) = String (ascii_of_byte b) (string_of_list_byte l).
Proof. reflexivity. Qed.

Lemma list_byte_of_string_String c s :
  list_byte_of_string (String c s) = byte_of_ascii c :: list_byte_of_string s.
Proof. reflexivity. Qed.

Lemma list_byte_of_string_app (a b : string) :
  list_byte_of_string (a ++ b) = (list_byte_of_string a ++ list_byte_of_string b)%list.
Proof.
  induction a as [|c a IH]; [reflexivity|].
  simpl String.append. rewrite !list_byte_of_string_String, IH. reflexivity.
Qed.

Lemma star_always a s :
  is_Some (star a (fun _ => Some []) s).
Proof. apply star_base. eauto. Qed.

(** One step of the loop, and one step of an anchored pattern. *)
Lemma firstDetected_cons d m entries s :
  firstDetected ((d, m) :: entries) s =
  if test d s then m else firstDetected entries s.
Proof. reflexivity. Qed.

Lemma test_re_nil s : test (re []) s = true.
Proof. reflexivity. Qed.

Lemma test_re_one a cp l c s :
  test (re (Atom a One cp :: l)) (String c s) = cset_mem a c && test (re l) s.
Proof.
  unfold test, exec. simpl. destruct (cset_mem a c); [|reflexivity].
  now destruct (match_here l s).
Qed.

Lemma test_re_one_empty a cp l : test (re (Atom a One cp :: l)) "" = false.
Proof. reflexivity. Qed.

Lemma test_re_star_last a cp s : test (re [Atom a Star cp]) s = true.
Proof.
  unfold test, exec. simpl.
  now destruct (star_always a s) as [[w cs] ->].
Qed.

Lemma cset_mem_Chr x c : cset_mem (Chr x) c = Ascii.eqb x c.
Proof. reflexivity. Qed.

End SniffFacts.

(** Evaluate the comparisons of closed characters only. *)
Ltac eval_closed :=
  repeat match goal with
    | |- context [ascii_of_byte ?b] =>
        let v := eval vm_compute in (ascii_of_byte b) in
        match v with Ascii _ _ _ _ _ _ _ _ => idtac end;
        change (ascii_of_byte b) with v
    end;
  repeat match goal with
    | |- context [cset_mem ?a ?c] =>
        let v := eval vm_compute in (cset_mem a c) in
        match v with true => idtac | false => idtac end;
        change (cset_mem a c) with v
    end.

Ltac open_table :=
  let t := eval cbv in magicNumberToMimeType in
  change magicNumberToMimeType with t.

Ltac sniff_steps :=
  repeat first
    [ match goal with
      | H : cset_mem ?a ?c = true |- context [cset_mem ?a ?c] => rewrite H
      end
    | rewrite firstDetected_cons
    | rewrite test_re_one
    | rewrite test_re_one_empty
    | rewrite test_re_star_last
    | rewrite test_re_nil
    | progress eval_closed
    | progress cbn [andb] ].

Ltac sniff_start :=
  rewrite sniffMimeType_unfold; simpl take;
  rewrite ?string_of_list_byte_cons, ?ascii_of_byte_of_ascii; open_table.

Ltac inv_matches :=
  repeat match goal with
    | H : exists _, _ |- _ => destruct H as [? H]
    | H : _ /\ _ |- _ => destruct H as [? ?]
    | H : cset_mem (Chr _) _ = true |- _ =>
        rewrite cset_mem_Chr in H; apply Ascii.eqb_eq in H
    end; subst.

Section SniffTable.

Local Open Scope string_scope.
Local Arguments String.append : simpl nomatch.

(** A leading [I], or a leading [MM], is enough for the TIFF entries. *)
Lemma sniff_I (rest : list byte) : sniffMimeType (x49 :: rest) = tiff.
Proof.
  sniff_start. sniff_steps.
  match goal with |- (if ?b then _ else _) = _ => now destruct b end.
Qed.

Lemma sniff_MM (rest : list byte) : sniffMimeType (x4d :: x4d :: rest) = tiff.
Proof. sniff_start. sniff_steps. reflexivity. Qed.

(** Every entry of the table is found by the text it stands for. *)
Lemma sniff_entry r T w (rest : list byte) :
  In (r, T) magicNumberMapInput -> Lang r w ->
  sniffMimeType (list_byte_of_string w ++ rest)%list = T.
Proof.
  intros Hin HM. unfold magicNumberMapInput in Hin.
  repeat (destruct Hin as [Hin|Hin];
    [ injection Hin as <- <-; unfold Lang in HM;
      cbn [Matches items re chars hex map list_ascii_of_string app all_in] in HM;
      inv_matches;
      rewrite ?list_byte_of_string_String; cbn [app]
    | ]); try contradiction.
  all: try (change (byte_of_ascii "I") with x49; apply sniff_I).
  all: try (change (byte_of_ascii "M") with x4d; apply sniff_MM).
  all: sniff_start; sniff_steps; reflexivity.
Qed.

Lemma table_shape :
  Forall (fun e => anchored e.1 = true /\ eol_free (items e.1) = true)
    magicNumberMapInput.
Proof. repeat constructor. Qed.

Lemma firstDetected_none entries s :
  (forall d m, In (d, m) entries -> test d s = false) ->
  firstDetected entries s = "".
Proof.
  induction entries as [|[d m] entries IH]; intros H; [reflexivity|].
  rewrite firstDetected_cons, (H d m) by (left; reflexivity).
  apply IH. intros d' m' Hin. apply (H d' m'). now right.
Qed.

Lemma firstDetected_in entries s :
  firstDetected entries s = "" \/
  exists d, In (d, firstDetected entries s) entries /\ test d s = true.
Proof.
  induction entries as [|[d m] entries IH]; [now left|].
  rewrite firstDetected_cons. destruct (test d s) eqn:E.
  - right. exists d. split; [now left|assumption].
  - destruct IH as [IH|(d' & Hin & Ht)]; [now left|].
    right. exists d'. split; [now right|assumption].
Qed.

Lemma firstDetected_first entries s : forall i d m,
  entries !! i = Some (d, m) -> test d s = true ->
  (forall j d' m', j < i -> entries !! j = Some (d', m') -> test d' s = false) ->
  firstDetected entries s = m.
Proof.
  induction entries as [|[d0 m0] entries IH]; intros i d m Hi Ht Hbefore.
  - destruct i; discriminate.
  - rewrite firstDetected_cons. destruct i as [|i]; simpl in Hi.
    + injection Hi as -> ->. now rewrite Ht.
    + rewrite (Hbefore 0 d0 m0) by (simpl; auto; lia).
      apply (IH i d m Hi Ht). intros j d' m' Hj Hl.
      apply (Hbefore (S j) d' m'); [lia|exact Hl].
Qed.

Lemma sniff_unrecognized (blob : list byte) :
  (forall r T w rest, In (r, T) magicNumberMapInput -> Lang r w ->
     blob <> (list_byte_of_string w ++ rest)%list) ->
  sniffMimeType blob = "".
Proof.
  intros H. rewrite sniffMimeType_unfold. apply firstDetected_none.
  intros d m Hin. destruct (test d _) eqn:Ht; [exfalso|reflexivity].
  pose proof table_shape as Hshape. rewrite Forall_forall in Hshape.
  destruct (Hshape (d, m)) as [Hanch Hfree].
  { apply list_elem_of_In. exact Hin. }
  destruct d as [anch l]. simpl in Hanch, Hfree. subst anch.
  apply test_anchored_spec in Ht as (w & rest' & Heq & HM).
  apply (H _ m w (list_byte_of_string rest' ++ drop 16 blob)%list Hin).
  - unfold Lang. simpl. eapply Matches_eol_free; eauto.
  - rewrite app_assoc, <- list_byte_of_string_app, <- Heq.
    rewrite list_byte_of_string_of_list_byte. symmetry. apply take_drop.
Qed.

Lemma sniff_png (rest : list byte) :
  sniffMimeType ([x89; x50; x4e; x47; x0d; x0a; x1a; x0a] ++ rest)%list = "image/png".
Proof. cbn [app]. sniff_start. sniff_steps. reflexivity. Qed.

Lemma sniff_zeros (rest : list byte) :
  sniffMimeType ([x00; x00; x00; x00] ++ rest)%list = "".
Proof. cbn [app]. sniff_start. sniff_steps. reflexivity. Qed.

(** The dot of the WebP entry stands for any character but a line
    terminator: a size field that holds the byte 0A or 0D is not matched. *)
Lemma sniff_webp_size_with_newline :
  sniffMimeType (list_byte_of_string "RIFF" ++ [x0a; x00; x00; x00]
                   ++ list_byte_of_string "WEBPVP8 ")%list = "" /\
  sniffMimeType (list_byte_of_string "RIFF" ++ [x0b; x00; x00; x00]
                   ++ list_byte_of_string "WEBPVP8 ")%list = "image/webp".
Proof. split; reflexivity. Qed.

End SniffTable.

(** ** Promises: what the primitive operations change *)
Section PromiseFacts.

Context {V : Type}.
Implicit Types (st : state V) (o : outcome V) (j : job V) (q t x : nat).

Lemma pstateOf_lt st q s : pstateOf st q = Some s -> q < length (heap st).
Proof.
  unfold pstateOf. intros H. apply lookup_lt_is_Some.
  destruct (heap st !! q); [eauto|discriminate].
Qed.

Lemma pstateOf_ge st q : length (heap st) <= q -> pstateOf st q = None.
Proof. intros H. unfold pstateOf. now rewrite lookup_ge_None_2. Qed.

Lemma reactionsOf_ge st q : length (heap st) <= q -> reactionsOf st q = [].
Proof. intros H. unfold reactionsOf. now rewrite lookup_ge_None_2. Qed.

Lemma settle_spec q o st :
  (pstateOf st q = Some Pending /\
   (forall x, pstateOf (settle q o st) x =
              if decide (x = q) then Some (Settled o) else pstateOf st x) /\
   (forall x, reactionsOf (settle q o st) x =
              if decide (x = q) then [] else reactionsOf st x) /\
   jobs (settle q o st) = jobs st ++ map (fun t => ReactionJob t o) (reactionsOf st q) /\
   signal (settle q o st) = signal st /\
   length (heap (settle q o st)) = length (heap st))
  \/ (pstateOf st q <> Some Pending /\ settle q o st = st).
Proof.
  unfold settle, pstateOf, reactionsOf.
  destruct (heap st !! q) as [[[|o'] rs]|] eqn:E; simpl.
  - left. pose proof (lookup_lt_Some _ _ _ E) as Hlt.
    split; [reflexivity|]. repeat split.
    + intros x. case_decide as Hx.
      * subst x. now rewrite list_lookup_insert_eq.
      * now rewrite list_lookup_insert_ne.
    + intros x. case_decide as Hx.
      * subst x. now rewrite list_lookup_insert_eq.
      * now rewrite list_lookup_insert_ne.
    + apply length_insert.
  - right. split; [discriminate|reflexivity].
  - right. split; [discriminate|reflexivity].
Qed.

Lemma promiseThen_spec q t st :
  (pstateOf st q = Some Pending /\
   (forall x, pstateOf (promiseThen q t st) x = pstateOf st x) /\
   (forall x, reactionsOf (promiseThen q t st) x =
              if decide (x = q) then reactionsOf st q ++ [t] else reactionsOf st x) /\
   jobs (promiseThen q t st) = jobs st /\
   signal (promiseThen q t st) = signal st /\
   length (heap (promiseThen q t st)) = length (heap st))
  \/ (exists o, pstateOf st q = Some (Settled o) /\
      promiseThen q t st = mkState (heap st) (jobs st ++ [ReactionJob t o]) (signal st))
  \/ (pstateOf st q = None /\ promiseThen q t st = st).
Proof.
  unfold promiseThen, pstateOf, reactionsOf.
  destruct (heap st !! q) as [[[|o'] rs]|] eqn:E; simpl.
  - left. pose proof (lookup_lt_Some _ _ _ E) as Hlt.
    split; [reflexivity|]. repeat split.
    + intros x. destruct (decide (x = q)) as [->|Hx].
      * now rewrite list_lookup_insert_eq, E.
      * now rewrite list_lookup_insert_ne.
    + intros x. case_decide as Hx.
      * subst x. now rewrite list_lookup_insert_eq.
      * now rewrite list_lookup_insert_ne.
    + apply length_insert.
  - right. left. eauto.
  - right. right. auto.
Qed.

Lemma newPromise_spec st :
  (newPromise st).1 = length (heap st) /\
  (forall x, pstateOf (newPromise st).2 x =
             if decide (x = length (heap st)) then Some Pending else pstateOf st x) /\
  (forall x, reactionsOf (newPromise st).2 x = reactionsOf st x) /\
  jobs (newPromise st).2 = jobs st /\
  signal (newPromise st).2 = signal st /\
  length (heap (newPromise st).2) = S (length (heap st)).
Proof.
  unfold newPromise, pstateOf, reactionsOf. simpl. repeat split.
  - intros x. case_decide as Hx.
    + subst x. now rewrite lookup_app_r, Nat.sub_diag by lia.
    + destruct (decide (x < length (heap st))).
      * now rewrite lookup_app_l.
      * rewrite !lookup_ge_None_2; auto; rewrite ?length_app; simpl; lia.
  - intros x. destruct (decide (x < length (heap st))).
    + now rewrite lookup_app_l.
    + destruct (decide (x = length (heap st))) as [->|].
      * rewrite lookup_app_r, Nat.sub_diag by lia. simpl.
        now rewrite lookup_ge_None_2 by lia.
      * rewrite !lookup_ge_None_2; auto; rewrite ?length_app; simpl; lia.
  - rewrite length_app. simpl. lia.
Qed.

(** A promise settles once. *)
Lemma settle_settled q o st x o' :
  pstateOf st x = Some (Settled o') ->
  pstateOf (settle q o st) x = Some (Settled o').
Proof.
  intros H. destruct (settle_spec q o st) as [(Hp & Hs & _)|[_ ->]]; [|exact H].
  rewrite Hs. case_decide; [subst; congruence|exact H].
Qed.

End PromiseFacts.

(** ** A subscription is never lost *)
Section FollowFacts.

Context {V : Type}.
Implicit Types (st : state V) (o : outcome V) (j : job V) (q t x y : nat).

Lemma follows_settle st x y q o :
  x <> y -> follows st x y -> follows (settle q o st) x y.
Proof.
  intros Hxy Hf.
  destruct (settle_spec q o st) as [(Hp & Hs & Hr & Hj & _)|[_ ->]]; [|exact Hf].
  destruct Hf as [[Hx Hin]|(ox & Hx & Hy)].
  - destruct (decide (x = q)) as [->|Hne].
    + right. exists o. rewrite Hs, decide_True by reflexivity. split; [reflexivity|].
      left. rewrite Hj. apply elem_of_app. right.
      apply list_elem_of_fmap. eauto.
    + left. rewrite Hs, Hr, !decide_False by assumption. auto.
  - right. exists ox. split.
    + rewrite Hs. case_decide; [subst; congruence|exact Hx].
    + destruct Hy as [Hy|[o' Hy]].
      * left. rewrite Hj. apply elem_of_app. now left.
      * right. exists o'. rewrite Hs. case_decide; [subst; congruence|exact Hy].
Qed.

Lemma follows_then st x y q t :
  follows st x y -> follows (promiseThen q t st) x y.
Proof.
  intros Hf.
  destruct (promiseThen_spec q t st)
    as [(Hp & Hs & Hr & Hj & _)|[(oq & Hq & ->)|[_ ->]]]; [| |exact Hf].
  - destruct Hf as [[Hx Hin]|(ox & Hx & Hy)].
    + left. rewrite Hs, Hr. split; [exact Hx|].
      case_decide; [subst; apply elem_of_app; now left|exact Hin].
    + right. exists ox. rewrite Hs, Hj. split; [exact Hx|].
      destruct Hy as [Hy|[o' Hy]]; [now left|right; exists o'; now rewrite Hs].
  - destruct Hf as [[Hx Hin]|(ox & Hx & Hy)].
    + left. auto.
    + right. exists ox. split; [exact Hx|].
      destruct Hy as [Hy|Hy]; [left|now right].
      simpl. apply elem_of_app. now left.
Qed.

Lemma follows_runMicrotask st x y :
  x <> y -> y < length (heap st) ->
  follows st x y -> follows (runMicrotask st) x y.
Proof.
  intros Hxy Hy Hf. unfold runMicrotask.
  destruct (jobs st) as [|j js] eqn:Hjobs; [exact Hf|].
  set (st' := mkState (heap st) js (signal st)).
  assert (Hcase : (exists o', j = ReactionJob y o') \/ (forall o', j <> ReactionJob y o')).
  { destruct j as [t o'|t s]; [|right; discriminate].
    destruct (decide (t = y)) as [->|Hne]; [left; eauto|right; congruence]. }
  destruct Hcase as [[o' ->]|Hj].
  - (* the job of [y] itself runs *)
    simpl. assert (Hset : exists o'', pstateOf (settle y o' st') y = Some (Settled o'')).
    { destruct (settle_spec y o' st') as [(Hp & Hs & _)|[Hnp ->]].
      - exists o'. now rewrite Hs, decide_True.
      - unfold pstateOf, st' in *. simpl in *.
        destruct (lookup_lt_is_Some_2 (heap st) y Hy) as [[s rs] E].
        rewrite E in *. simpl in *. destruct s as [|o'']; [congruence|eauto]. }
    destruct Hf as [[Hx Hin]|(ox & Hx & _)].
    + apply follows_settle; [exact Hxy|]. left. auto.
    + right. exists ox. split; [|now right].
      apply settle_settled. exact Hx.
  - assert (Hf' : follows st' x y).
    { destruct Hf as [[Hx Hin]|(ox & Hx & Hyy)]; [left; auto|].
      right. exists ox. split; [exact Hx|].
      destruct Hyy as [Hin|?]; [left|now right].
      rewrite Hjobs in Hin. apply elem_of_cons in Hin as [<-|Hin]; [|exact Hin].
      exfalso. now apply (Hj ox). }
    destruct j as [t o|t s]; simpl.
    + now apply follows_settle.
    + now apply follows_then.
Qed.

Lemma follows_signalAbort st x y :
  x <> y -> follows st x y -> follows (signalAbort st) x y.
Proof.
  intros Hxy Hf. unfold signalAbort.
  destruct (aborted (signal st)); [exact Hf|].
  set (st' := mkState _ _ _).
  assert (Hf' : follows st' x y) by exact Hf.
  clearbody st'. revert st' Hf'.
  induction (listeners (signal st)) as [|l ls IH]; intros st' Hf'; simpl; [exact Hf'|].
  apply IH. now apply follows_settle.
Qed.

Lemma length_heap_settle q o st : length (heap (settle q o st)) = length (heap st).
Proof. destruct (settle_spec q o st) as [(_ & _ & _ & _ & _ & H)|[_ ->]]; auto. Qed.

Lemma length_heap_promiseThen q t st :
  length (heap (promiseThen q t st)) = length (heap st).
Proof.
  destruct (promiseThen_spec q t st)
    as [(_ & _ & _ & _ & _ & H)|[(oq & Hq & ->)|[_ ->]]]; auto.
Qed.

Lemma length_heap_step e st : length (heap st) <= length (heap (step e st)).
Proof.
  destruct e as [|q o| | |q t|t s]; simpl.
  - unfold runMicrotask. destruct (jobs st) as [|[t o|t s] js]; simpl; auto.
    + now rewrite length_heap_settle.
    + now rewrite length_heap_promiseThen.
  - now rewrite length_heap_settle.
  - unfold signalAbort. destruct (aborted (signal st)); [reflexivity|].
    set (st' := mkState _ _ _).
    change (length (heap st)) with (length (heap st')).
    clearbody st'. revert st'.
    induction (listeners (signal st)) as [|l ls IH]; intros st'; simpl; [reflexivity|].
    etransitivity; [|apply IH]. now rewrite length_heap_settle.
  - rewrite length_app. lia.
  - now rewrite length_heap_promiseThen.
  - reflexivity.
Qed.

Lemma follows_newPromise st x y :
  follows st x y -> follows (newPromise st).2 x y.
Proof.
  destruct (newPromise_spec st) as (_ & Hs & Hr & Hj & _).
  intros [[Hx Hin]|(ox & Hx & Hy)].
  - left. rewrite Hs, Hr. split; [|exact Hin].
    case_decide as Hn; [|exact Hx]. subst x.
    rewrite pstateOf_ge in Hx by lia. discriminate.
  - right. exists ox. split.
    + rewrite Hs. case_decide as Hn; [|exact Hx]. subst x.
      rewrite pstateOf_ge in Hx by lia. discriminate.
    + destruct Hy as [Hy|[o' Hy]]; [left; now rewrite Hj|right].
      exists o'. rewrite Hs. case_decide as Hn; [|exact Hy]. subst y.
      rewrite pstateOf_ge in Hy by lia. discriminate.
Qed.

Lemma follows_resolveWithPromise st x y t s :
  follows st x y -> follows (resolveWithPromise t s st) x y.
Proof.
  intros [[Hx Hin]|(ox & Hx & Hy)]; [left; auto|].
  right. exists ox. split; [exact Hx|].
  destruct Hy as [Hy|Hy]; [left|now right].
  simpl. apply elem_of_app. now left.
Qed.

Lemma follows_step e st x y :
  x <> y -> y < length (heap st) ->
  follows st x y -> follows (step e st) x y.
Proof.
  intros Hxy Hy Hf. destruct e as [|q o| | |q t|t s]; simpl.
  - now apply follows_runMicrotask.
  - now apply follows_settle.
  - now apply follows_signalAbort.
  - now apply follows_newPromise.
  - now apply follows_then.
  - now apply follows_resolveWithPromise.
Qed.

End FollowFacts.

(** ** The invariant of [abortable] is kept by every event *)
Section SafeFacts.

Context {V : Type}.
Variables (n0 promise : nat).
Implicit Types (st : state V) (o : outcome V) (j : job V) (q t x y : nat).

Local Abbreviation Safe := (Safe (V:=V) n0 promise).
Local Abbreviation job_ok := (job_ok (V:=V) n0 promise).
Local Abbreviation settle_ok := (settle_ok (V:=V) n0 promise).
Local Abbreviation reaction_ok := (reaction_ok n0 promise).

Lemma settle_ok_mono st st' t o :
  settled_mono st st' -> settle_ok st t o -> settle_ok st' t o.
Proof.
  intros Hm [H|[[-> [H|H]]|[-> H]]]; unfold settle_ok; auto 6.
Qed.

Lemma job_ok_mono st st' j :
  settled_mono st st' -> job_ok st j -> job_ok st' j.
Proof.
  intros Hm. destruct j as [t o|t s]; simpl; [apply settle_ok_mono; exact Hm|auto].
Qed.

Lemma settled_mono_settle q o st : settled_mono st (settle q o st).
Proof. intros x o' H. now apply settle_settled. Qed.

Lemma jobs_settle_mono q o st j : j ∈ jobs st -> j ∈ jobs (settle q o st).
Proof.
  intros H. destruct (settle_spec q o st) as [(_ & _ & _ & Hj & _)|[_ ->]]; [|exact H].
  rewrite Hj. apply elem_of_app. now left.
Qed.

Lemma jobs_then_mono q t st j : j ∈ jobs st -> j ∈ jobs (promiseThen q t st).
Proof.
  intros H. destruct (promiseThen_spec q t st)
    as [(_ & _ & _ & Hj & _)|[(oq & Hq & ->)|[_ ->]]]; [now rewrite Hj| |exact H].
  simpl. apply elem_of_app. now left.
Qed.

Lemma safe_settle st t o :
  Safe st ->
  settle_ok st t o \/
    (t = S n0 /\ o = Rejected AbortError /\ aborted (signal st) = true) ->
  Safe (settle t o st).
Proof.
  intros HS Hok.
  pose proof (settled_mono_settle t o st) as Hm.
  destruct (settle_spec t o st) as [(Hp & Hs & Hr & Hj & Hsig & Hlen)|[_ ->]]; [|exact HS].
  destruct HS as [Hl Hpr Ha Hrace Hres Hjobs Hreact Hlis].
  unfold settle_ok, outside in Hok.
  constructor.
  - now rewrite Hlen.
  - exact Hpr.
  - rewrite Hsig. rewrite Hs. case_decide as Hx.
    + subst t. right.
      destruct Hok as [[H|[[H _]|[H _]]]|(_ & -> & Hab)]; try lia. auto.
    + exact Ha.
  - intros o'. rewrite (Hs (S (S n0))). case_decide as Hx.
    + subst t. intros [= <-].
      destruct Hok as [[H|[[_ H]|[H _]]]|(H & _)]; try lia.
      destruct H as [H|H]; [left|right]; now apply Hm.
    + intros H. destruct (Hrace _ H) as [H'|H']; [left|right]; now apply Hm.
  - intros o'. rewrite (Hs n0). case_decide as Hx.
    + subst t. intros [= <-].
      destruct Hok as [[H|[[H _]|[_ H]]]|(H & _)]; try lia.
      now apply Hm.
    + intros H. apply Hm. now apply Hres.
  - intros j. rewrite Hj. intros [Hin|Hin]%elem_of_app.
    + apply job_ok_mono with st; auto.
    + apply list_elem_of_fmap in Hin as (t' & -> & Hin). simpl.
      destruct (Hreact _ _ Hin) as [[_ H]|[[-> H]|[-> ->]]]; unfold settle_ok.
      * now left.
      * right. left. split; [reflexivity|].
        destruct H as [<-|<-]; [left|right]; rewrite Hs; now rewrite decide_True.
      * right. right. split; [reflexivity|]. rewrite Hs. now rewrite decide_True.
  - intros q t'. rewrite Hr. case_decide; [intros Hnil; inversion Hnil|apply Hreact].
  - rewrite Hsig. exact Hlis.
Qed.

Lemma safe_then st t s :
  Safe st -> job_ok st (ResolveThenableJob t s) -> Safe (promiseThen s t st).
Proof.
  intros HS Hok. simpl in Hok.
  destruct (promiseThen_spec s t st)
    as [(Hp & Hs & Hr & Hj & Hsig & Hlen)|[(oq & Hq & ->)|[_ ->]]]; [| |exact HS].
  - assert (Hm : settled_mono st (promiseThen s t st)).
    { intros x o H. now rewrite Hs. }
    destruct HS as [Hl Hpr Ha Hrace Hres Hjobs Hreact Hlis].
    constructor.
    + now rewrite Hlen.
    + exact Hpr.
    + now rewrite Hsig, Hs.
    + intros o. rewrite !Hs. apply Hrace.
    + intros o. rewrite !Hs. apply Hres.
    + intros j. rewrite Hj. intros Hin. apply job_ok_mono with st; auto.
    + intros q t'. rewrite Hr. case_decide as Hx; [|apply Hreact].
      subst q. intros [Hin|Hin]%elem_of_app; [now apply Hreact|].
      apply list_elem_of_singleton in Hin as ->. unfold reaction_ok.
      destruct Hok as [[? ?]|[-> ->]]; auto.
    + now rewrite Hsig.
  - destruct HS as [Hl Hpr Ha Hrace Hres Hjobs Hreact Hlis].
    constructor; simpl; auto.
    intros j [Hin|Hin]%elem_of_app; [now apply Hjobs|].
    apply list_elem_of_singleton in Hin as ->. simpl. unfold settle_ok.
    destruct Hok as [[? ?]|[-> ->]]; auto.
Qed.

Lemma safe_newPromise st : Safe st -> Safe (newPromise st).2.
Proof.
  intros HS. destruct (newPromise_spec st) as (_ & Hs & Hr & Hj & Hsig & Hlen).
  pose proof (safe_length _ _ _ HS) as Hl.
  pose proof (safe_promise _ _ _ HS) as Hpr.
  assert (Hsame : forall x, x < n0 + 3 ->
            pstateOf (newPromise st).2 x = pstateOf st x).
  { intros x Hx. rewrite Hs. now rewrite decide_False by lia. }
  assert (Hm : settled_mono st (newPromise st).2).
  { intros x o H. rewrite Hs. case_decide as Hx; [|exact H].
    subst x. rewrite pstateOf_ge in H by lia. discriminate. }
  destruct HS as [_ _ Ha Hrace Hres Hjobs Hreact Hlis].
  constructor.
  - rewrite Hlen. lia.
  - exact Hpr.
  - rewrite Hsig, Hsame by lia. exact Ha.
  - intros o. rewrite !Hsame by lia. apply Hrace.
  - intros o. rewrite !Hsame by lia. apply Hres.
  - intros j. rewrite Hj. intros Hin. apply job_ok_mono with st; auto.
  - intros q t. rewrite Hr. apply Hreact.
  - rewrite Hsig. exact Hlis.
Qed.

Lemma safe_resolveWithPromise st t s :
  Safe st -> job_ok st (ResolveThenableJob t s) ->
  Safe (resolveWithPromise t s st).
Proof.
  intros [Hl Hpr Ha Hrace Hres Hjobs Hreact Hlis] Hok.
  constructor; simpl; auto.
  intros j [Hin|Hin]%elem_of_app; [now apply Hjobs|].
  now apply list_elem_of_singleton in Hin as ->.
Qed.

Lemma safe_runMicrotask st : Safe st -> Safe (runMicrotask st).
Proof.
  intros HS. unfold runMicrotask.
  destruct (jobs st) as [|j js] eqn:Hjobs; [exact HS|].
  assert (HS' : Safe (mkState (heap st) js (signal st))).
  { destruct HS as [Hl Hpr Ha Hrace Hres Hj Hreact Hlis].
    constructor; auto. intros j' Hin. apply (Hj j'). rewrite Hjobs. now right. }
  assert (Hok : job_ok (mkState (heap st) js (signal st)) j).
  { apply (safe_jobs _ _ _ HS). rewrite Hjobs. now left. }
  destruct j as [t o|t s]; simpl.
  - apply safe_settle; auto.
  - now apply safe_then.
Qed.

Lemma safe_signalAbort st : Safe st -> Safe (signalAbort st).
Proof.
  intros HS. unfold signalAbort.
  destruct (aborted (signal st)) eqn:Hab; [exact HS|].
  set (st' := mkState _ _ _).
  assert (HS' : Safe st' /\ aborted (signal st') = true).
  { split; [|reflexivity].
    destruct HS as [Hl Hpr Ha Hrace Hres Hj Hreact Hlis].
    constructor; auto.
    destruct Ha as [Ha|[_ Ha]]; [now left|congruence]. }
  assert (Hls : forall l, l ∈ listeners (signal st) ->
                          outside n0 l \/ l = S n0)
    by apply (safe_listeners _ _ _ HS).
  clearbody st'. revert st' HS'.
  induction (listeners (signal st)) as [|l ls IH]; intros st' [HS' Hab']; simpl;
    [exact HS'|].
  apply IH.
  - intros l' Hin. apply Hls. now right.
  - split.
    + apply safe_settle; [exact HS'|].
      destruct (Hls l) as [H| ->]; [now left|left; now left|right; auto].
    + destruct (settle_spec l (Rejected AbortError) st')
        as [(_ & _ & _ & _ & -> & _)|[_ ->]]; exact Hab'.
Qed.

Lemma safe_step e st : admissible n0 e -> Safe st -> Safe (step e st).
Proof.
  intros Hadm HS. destruct e as [|q o| | |q t|t s]; simpl in *.
  - now apply safe_runMicrotask.
  - apply safe_settle; [exact HS|]. left. now left.
  - now apply safe_signalAbort.
  - now apply safe_newPromise.
  - apply safe_then; [exact HS|]. simpl. left. tauto.
  - apply safe_resolveWithPromise; [exact HS|]. simpl. now left.
Qed.

End SafeFacts.

(** ** The state that [abortable] leaves *)
Section AbortableFacts.

Context {V : Type}.
Implicit Types (st : state V) (o : outcome V) (j : job V) (q t x y : nat).

Lemma adopts_step e st y x :
  x <> y -> x < length (heap st) -> y < length (heap st) ->
  adopts st y x -> adopts (step e st) y x.
Proof.
  intros Hxy Hx Hy [Hin|Hf]; [|right; now apply follows_step].
  destruct e as [|q o| | |q t|t s]; simpl.
  - unfold runMicrotask. destruct (jobs st) as [|j js] eqn:Hjobs; [now left|].
    apply elem_of_cons in Hin as [<-|Hin].
    + right. simpl. set (st' := mkState _ _ _).
      destruct (promiseThen_spec x y st')
        as [(Hp & Hs & Hr & Hj & _)|[(oq & Hq & ->)|[Hnone _]]].
      * left. rewrite Hs, Hr, decide_True by reflexivity. split; [exact Hp|].
        apply elem_of_app. right. now apply list_elem_of_singleton.
      * right. exists oq. split; [exact Hq|]. left. simpl.
        apply elem_of_app. right. now apply list_elem_of_singleton.
      * exfalso. unfold pstateOf, st' in Hnone. simpl in Hnone.
        destruct (lookup_lt_is_Some_2 (heap st) x Hx) as [pr E].
        rewrite E in Hnone. discriminate.
    + left. destruct j as [t o|t s]; simpl.
      * now apply jobs_settle_mono.
      * now apply jobs_then_mono.
  - left. now apply jobs_settle_mono.
  - left. unfold signalAbort. destruct (aborted (signal st)); [exact Hin|].
    set (st' := mkState _ _ _).
    assert (Hin' : ResolveThenableJob y x ∈ jobs st') by exact Hin.
    clearbody st'. revert st' Hin'.
    induction (listeners (signal st)) as [|l ls IH]; intros st' Hin'; simpl;
      [exact Hin'|].
    apply IH. now apply jobs_settle_mono.
  - now left.
  - left. now apply jobs_then_mono.
  - left. apply elem_of_app. now left.
Qed.

(** With the signal aborted, nothing but the rejected result is made. *)
Lemma abortable_aborted promise st :
  aborted (signal st) = true ->
  abortable promise st =
    (length (heap st),
     mkState (heap st ++ [mkPromise (Settled (Rejected AbortError)) []])
             (jobs st) (signal st)).
Proof.
  intros Hab. unfold abortable, newPromise, assertSignal. simpl. rewrite Hab.
  f_equal. unfold settle. simpl.
  rewrite lookup_app_r, Nat.sub_diag by lia. simpl.
  f_equal.
  - rewrite insert_app_r_alt, Nat.sub_diag by lia. reflexivity.
  - apply app_nil_r.
Qed.

Lemma abortable_not_aborted promise st :
  aborted (signal st) = false ->
  abortable promise st = (length (heap st), started promise st).
Proof.
  intros Hab. unfold abortable, newPromise, assertSignal, started, addEventListener.
  simpl. rewrite Hab. rewrite !length_app. simpl.
  rewrite <- !app_assoc. simpl.
  replace (length (heap st) + 1) with (S (length (heap st))) by lia.
  replace (S (length (heap st)) + 1) with (S (S (length (heap st)))) by lia.
  reflexivity.
Qed.

End AbortableFacts.
Section StartedFacts.

Context {V : Type}.
Implicit Types (st : state V) (o : outcome V) (j : job V) (q t x y : nat).

Lemma fresh_three st :
  let n0 := length (heap st) in
  let st' := mkState (heap st ++ [mkPromise Pending []; mkPromise Pending [];
                                  mkPromise Pending []])
                     (jobs st)
                     (mkSignal (aborted (signal st))
                               (listeners (signal st) ++ [S n0])) in
  (forall x, pstateOf st' x =
     if decide (x < n0) then pstateOf st x
     else if decide (x < n0 + 3) then Some Pending else None) /\
  (forall x, reactionsOf st' x = reactionsOf st x) /\
  length (heap st') = n0 + 3.
Proof.
  intros n0 st'. unfold pstateOf, reactionsOf, st'. simpl. repeat split.
  - intros x. case_decide as Hx.
    + now rewrite lookup_app_l.
    + rewrite lookup_app_r by (fold n0; lia). fold n0.
      case_decide as Hx3.
      * destruct (x - n0) as [|[|[|k]]] eqn:E; try reflexivity. lia.
      * destruct (x - n0) as [|[|[|k]]] eqn:E; try reflexivity; lia.
  - intros x. destruct (decide (x < n0)) as [Hx|Hx].
    + now rewrite lookup_app_l.
    + rewrite lookup_app_r by (fold n0; lia). fold n0.
      rewrite (lookup_ge_None_2 (heap st)) by (fold n0; lia).
      now destruct (x - n0) as [|[|[|k]]].
  - rewrite length_app. reflexivity.
Qed.

Lemma wf_jobs_lt st j t :
  wf st -> j ∈ jobs st -> t ∈ jobRefs j -> t < length (heap st).
Proof.
  intros (H & _ & _) Hj Ht. rewrite Forall_forall in H.
  specialize (H j Hj). rewrite Forall_forall in H. now apply H.
Qed.

Lemma wf_reactions_lt st q t :
  wf st -> t ∈ reactionsOf st q -> t < length (heap st) /\ q < length (heap st).
Proof.
  intros (_ & H & _) Hin. unfold reactionsOf in Hin.
  destruct (heap st !! q) as [pr|] eqn:E; simpl in Hin; [|inversion Hin].
  split; [|eapply lookup_lt_Some; eauto].
  rewrite Forall_forall in H. specialize (H pr (list_elem_of_lookup_2 _ _ _ E)).
  rewrite Forall_forall in H. now apply H.
Qed.

Lemma started_inv promise st :
  wf st -> promise < length (heap st) -> aborted (signal st) = false ->
  let n0 := length (heap st) in
  Safe n0 promise (started promise st) /\
  follows (started promise st) promise (S (S n0)) /\
  adopts (started promise st) n0 (S (S n0)) /\
  pstateOf (started promise st) promise = pstateOf st promise /\
  aborted (signal (started promise st)) = false.
Proof.
  intros Hwf Hp Hab n0. unfold started. fold n0.
  destruct (fresh_three st) as (Hd_s & Hd_r & Hd_l). fold n0 in Hd_s, Hd_r, Hd_l.
  set (st_d := mkState (heap st ++ _) _ _) in *.
  assert (Hd_j : jobs st_d = jobs st) by reflexivity.
  assert (Hd_sig : signal st_d =
            mkSignal (aborted (signal st)) (listeners (signal st) ++ [S n0]))
    by reflexivity.
  clearbody st_d.
  set (st_e := promiseThen promise (S (S n0)) st_d).
  (* the second subscription finds the listener promise pending *)
  assert (He_a : pstateOf st_e (S n0) = Some Pending).
  { unfold st_e.
    destruct (promiseThen_spec promise (S (S n0)) st_d)
      as [(_ & Hs & _)|[(oq & _ & ->)|[_ ->]]]; rewrite ?Hs;
      unfold pstateOf at 1; simpl; fold (pstateOf st_d (S n0)).
      all: rewrite Hd_s, decide_False, decide_True by lia; reflexivity. }
  set (st_f := promiseThen (S n0) (S (S n0)) st_e).
  destruct (promiseThen_spec (S n0) (S (S n0)) st_e)
    as [(_ & Hf_s & Hf_r & Hf_j & Hf_sig & Hf_l)|[(oq & Hq & _)|[Hq _]]];
    [|congruence|congruence].
  fold st_f in Hf_s, Hf_r, Hf_j, Hf_sig, Hf_l.
  assert (Hstate : forall x, pstateOf (resolveWithPromise n0 (S (S n0)) st_f) x
                             = pstateOf st_f x) by reflexivity.
  assert (Hreact : forall x, reactionsOf (resolveWithPromise n0 (S (S n0)) st_f) x
                             = reactionsOf st_f x) by reflexivity.
  assert (Hjobs : jobs (resolveWithPromise n0 (S (S n0)) st_f)
                  = jobs st_e ++ [ResolveThenableJob n0 (S (S n0))]).
  { simpl. now rewrite Hf_j. }
  assert (Hsig : signal (resolveWithPromise n0 (S (S n0)) st_f) = signal st_e).
  { simpl. exact Hf_sig. }
  assert (Hlen : length (heap (resolveWithPromise n0 (S (S n0)) st_f))
                 = length (heap st_e)).
  { simpl. exact Hf_l. }
  set (st1 := resolveWithPromise n0 (S (S n0)) st_f) in *.
  clearbody st1. clearbody st_f.
  (* the first subscription: [promise] is pending or settled *)
  assert (Hp_d : pstateOf st_d promise = pstateOf st promise).
  { rewrite Hd_s, decide_True by lia. reflexivity. }
  assert (Hold_jobs : forall j, j ∈ jobs st -> job_ok n0 promise st1 j).
  { intros j Hin. destruct j as [t o|t s]; simpl.
    - left. left. apply (wf_jobs_lt st _ t Hwf Hin). simpl. now left.
    - left. split; [|left]; left; apply (wf_jobs_lt st _ _ Hwf Hin); simpl.
      + now left.
      + right. now left. }
  assert (Hold_react : forall q t, t ∈ reactionsOf st q ->
            reaction_ok n0 promise q t).
  { intros q t Hin. left. destruct (wf_reactions_lt st q t Hwf Hin).
    split; [left|]; now left. }
  assert (Hold_lis : forall l, l ∈ listeners (signal st) ++ [S n0] ->
            outside n0 l \/ l = S n0).
  { intros l [Hin|Hin]%elem_of_app.
    - left. left. destruct Hwf as (_ & _ & H). rewrite Forall_forall in H.
      now apply H.
    - right. now apply list_elem_of_singleton in Hin. }
  unfold st_e in *. clear st_e.
  destruct (promiseThen_spec promise (S (S n0)) st_d)
    as [(Hpend & He_s & He_r & He_j & He_sig & He_l)|[(oq & Hq & He)|[Hq _]]].
  - (* pending: one more reaction *)
    assert (Hs1 : forall x, pstateOf st1 x = pstateOf st_d x).
    { intros x. now rewrite Hstate, Hf_s, He_s. }
    split; [|split; [|split; [|split]]].
    + constructor.
      * rewrite Hlen, He_l, Hd_l. lia.
      * exact Hp.
      * left. rewrite Hs1, Hd_s, decide_False, decide_True by lia. reflexivity.
      * intros o. rewrite Hs1, Hd_s, decide_False, decide_True by lia. discriminate.
      * intros o. rewrite Hs1, Hd_s, decide_False, decide_True by lia. discriminate.
      * intros j. rewrite Hjobs, He_j, Hd_j. intros [Hin|Hin]%elem_of_app.
        -- now apply Hold_jobs.
        -- apply list_elem_of_singleton in Hin as ->. simpl. now right.
      * intros q t. rewrite Hreact, Hf_r, !He_r.
        rewrite (decide_False (P := S n0 = promise)) by lia.
        rewrite !Hd_r. rewrite (reactionsOf_ge st (S n0)) by (fold n0; lia).
        case_decide as Hq.
        -- subst q. intros Hin. apply list_elem_of_singleton in Hin as ->.
           right. left. auto.
        -- case_decide as Hq'.
           ++ subst q. intros [Hin|Hin]%elem_of_app; [now apply Hold_react|].
              apply list_elem_of_singleton in Hin as ->. right. left. auto.
           ++ apply Hold_react.
      * rewrite Hsig, He_sig, Hd_sig. simpl. exact Hold_lis.
    + left. rewrite Hs1, Hreact, Hf_r, decide_False by lia.
      rewrite He_r, decide_True by reflexivity. split; [exact Hpend|].
      apply elem_of_app. right. now apply list_elem_of_singleton.
    + left. rewrite Hjobs. apply elem_of_app. right. now apply list_elem_of_singleton.
    + now rewrite Hs1.
    + now rewrite Hsig, He_sig, Hd_sig.
  - (* settled: a job for the race *)
    rewrite He in *. clear He.
    assert (Hs1 : forall x, pstateOf st1 x = pstateOf st_d x).
    { intros x. now rewrite Hstate, Hf_s. }
    simpl in Hjobs, Hsig, Hlen.
    split; [|split; [|split; [|split]]].
    + constructor.
      * rewrite Hlen, Hd_l. lia.
      * exact Hp.
      * left. rewrite Hs1, Hd_s, decide_False, decide_True by lia. reflexivity.
      * intros o. rewrite Hs1, Hd_s, decide_False, decide_True by lia. discriminate.
      * intros o. rewrite Hs1, Hd_s, decide_False, decide_True by lia. discriminate.
      * intros j. rewrite Hjobs, Hd_j.
        intros [[Hin|Hin]%elem_of_app|Hin]%elem_of_app.
        -- now apply Hold_jobs.
        -- apply list_elem_of_singleton in Hin as ->. simpl.
           right. left. split; [reflexivity|]. left. now rewrite Hs1.
        -- apply list_elem_of_singleton in Hin as ->. simpl. now right.
      * intros q t. rewrite Hreact, Hf_r.
        unfold reactionsOf at 1 2. simpl. fold (reactionsOf st_d (S n0)).
        fold (reactionsOf st_d q). rewrite !Hd_r.
        rewrite (reactionsOf_ge st (S n0)) by (fold n0; lia).
        case_decide as Hq'.
        -- subst q. intros Hin. apply list_elem_of_singleton in Hin as ->.
           right. left. auto.
        -- apply Hold_react.
      * rewrite Hsig, Hd_sig. simpl. exact Hold_lis.
    + right. exists oq. rewrite Hs1. split; [exact Hq|]. left.
      rewrite Hjobs. apply elem_of_app. left. apply elem_of_app. right.
      now apply list_elem_of_singleton.
    + left. rewrite Hjobs. apply elem_of_app. right. now apply list_elem_of_singleton.
    + now rewrite Hs1.
    + now rewrite Hsig, Hd_sig.
  - exfalso. rewrite Hp_d in Hq. unfold pstateOf in Hq.
    destruct (lookup_lt_is_Some_2 (heap st) promise Hp) as [pr E].
    rewrite E in Hq. discriminate.
Qed.

End StartedFacts.

(** ** Runs of events and the microtask checkpoint *)
Section RunFacts.

Context {V : Type}.
Implicit Types (st : state V) (o : outcome V) (j : job V) (q t x y : nat).
Implicit Types (e : event V) (tr : list (event V)).

Lemma run_cons e tr st : run (e :: tr) st = run tr (step e st).
Proof. reflexivity. Qed.

Lemma run_app tr1 tr2 st : run (tr1 ++ tr2) st = run tr2 (run tr1 st).
Proof. unfold run. apply foldl_app. Qed.

Lemma promiseThen_settled q t st x o :
  pstateOf st x = Some (Settled o) ->
  pstateOf (promiseThen q t st) x = Some (Settled o).
Proof.
  intros H. destruct (promiseThen_spec q t st)
    as [(_ & Hs & _)|[(oq & _ & ->)|[_ ->]]]; [now rewrite Hs|exact H|exact H].
Qed.

Lemma signalAbort_fold (P : state V -> Prop) st :
  (forall s q o, P s -> P (settle q o s)) ->
  P st ->
  P (mkState (heap st) (jobs st) (mkSignal true (listeners (signal st)))) ->
  P (signalAbort st).
Proof.
  intros Hsettle Hst Hst'. unfold signalAbort.
  destruct (aborted (signal st)); [exact Hst|].
  set (st' := mkState _ _ _) in *. clearbody st'. revert st' Hst'.
  induction (listeners (signal st)) as [|l ls IH]; intros st' Hst'; simpl; auto.
Qed.

Lemma step_settled e st x o :
  pstateOf st x = Some (Settled o) -> pstateOf (step e st) x = Some (Settled o).
Proof.
  intros H. destruct e as [|q o'| | |q t|t s]; simpl.
  - unfold runMicrotask. destruct (jobs st) as [|[t o'|t s] js]; simpl; auto.
    + now apply settle_settled.
    + now apply promiseThen_settled.
  - now apply settle_settled.
  - apply signalAbort_fold; auto. intros s q o' Hs. now apply settle_settled.
  - destruct (newPromise_spec st) as (_ & Hs & _). rewrite Hs.
    case_decide as Hx; [|exact H]. subst x.
    rewrite pstateOf_ge in H by lia. discriminate.
  - now apply promiseThen_settled.
  - exact H.
Qed.

Lemma run_settled tr : forall st x o,
  pstateOf st x = Some (Settled o) -> pstateOf (run tr st) x = Some (Settled o).
Proof.
  induction tr as [|e tr IH]; intros st x o H; [exact H|].
  rewrite run_cons. apply IH. now apply step_settled.
Qed.

Lemma signal_settle q o st : signal (settle q o st) = signal st.
Proof. destruct (settle_spec q o st) as [(_ & _ & _ & _ & H & _)|[_ ->]]; auto. Qed.

Lemma signal_promiseThen q t st : signal (promiseThen q t st) = signal st.
Proof.
  destruct (promiseThen_spec q t st)
    as [(_ & _ & _ & _ & H & _)|[(oq & _ & ->)|[_ ->]]]; auto.
Qed.

Lemma signal_step e st : e <> Abort -> signal (step e st) = signal st.
Proof.
  intros He. destruct e as [|q o| | |q t|t s]; simpl; try congruence.
  - unfold runMicrotask. destruct (jobs st) as [|[t o|t s] js]; simpl; auto.
    + now rewrite signal_settle.
    + now rewrite signal_promiseThen.
  - apply signal_settle.
  - apply signal_promiseThen.
Qed.

Lemma aborted_step e st :
  aborted (signal st) = true -> aborted (signal (step e st)) = true.
Proof.
  intros H. destruct e as [|q o| | |q t|t s];
    try (now rewrite signal_step).
  simpl. unfold signalAbort. now rewrite H.
Qed.

Lemma aborted_run tr : forall st,
  aborted (signal st) = true -> aborted (signal (run tr st)) = true.
Proof.
  induction tr as [|e tr IH]; intros st H; [exact H|].
  rewrite run_cons. apply IH. now apply aborted_step.
Qed.

Lemma signal_run tr : forall st,
  Forall (fun e => e <> Abort) tr -> signal (run tr st) = signal st.
Proof.
  induction tr as [|e tr IH]; intros st H; [reflexivity|].
  inversion H; subst. rewrite run_cons, IH, signal_step; auto.
Qed.

Lemma length_heap_run tr : forall st, length (heap st) <= length (heap (run tr st)).
Proof.
  induction tr as [|e tr IH]; intros st; [reflexivity|].
  rewrite run_cons. etransitivity; [apply (length_heap_step e)|apply IH].
Qed.

Lemma run_safe n0 promise tr : forall st,
  Forall (admissible n0) tr -> Safe n0 promise st -> Safe n0 promise (run tr st).
Proof.
  induction tr as [|e tr IH]; intros st H HS; [exact HS|].
  inversion H; subst. rewrite run_cons. apply IH; [assumption|].
  now apply safe_step.
Qed.

Lemma run_follows tr x y : forall st,
  x <> y -> y < length (heap st) -> follows st x y -> follows (run tr st) x y.
Proof.
  induction tr as [|e tr IH]; intros st Hxy Hy Hf; [exact Hf|].
  rewrite run_cons. apply IH; [assumption| |now apply follows_step].
  pose proof (length_heap_step e st). lia.
Qed.

Lemma run_adopts tr y x : forall st,
  x <> y -> x < length (heap st) -> y < length (heap st) ->
  adopts st y x -> adopts (run tr st) y x.
Proof.
  induction tr as [|e tr IH]; intros st Hxy Hx Hy Hf; [exact Hf|].
  pose proof (length_heap_step e st).
  rewrite run_cons. apply IH; [assumption|lia|lia|].
  now apply adopts_step.
Qed.

(** Every microtask makes the weight smaller: the checkpoint ends. *)
Lemma sum_list_insert (f : promise V -> nat) (l : list (promise V)) : forall i pr pr',
  l !! i = Some pr ->
  sum_list_with f (<[i := pr']> l) + f pr = sum_list_with f l + f pr'.
Proof.
  induction l as [|a l IH]; intros i pr pr' H; [destruct i; discriminate|].
  destruct i as [|i]; simpl in *.
  - injection H as ->. lia.
  - specialize (IH i pr pr' H). lia.
Qed.

Lemma sum_list_reaction_jobs o (rs : list nat) :
  sum_list_with jobWeight (map (fun t => ReactionJob (V:=V) t o) rs) = length rs.
Proof. induction rs as [|r rs IH]; simpl; [reflexivity|]. f_equal. exact IH. Qed.

Lemma weight_runMicrotask st :
  jobs st <> [] -> weight (runMicrotask st) < weight st.
Proof.
  unfold runMicrotask, weight. destruct (jobs st) as [|j js]; [congruence|].
  intros _.
  change (sum_list_with jobWeight (j :: js))
    with (jobWeight j + sum_list_with jobWeight js).
  destruct j as [t o|t s]; cbn [runJob jobWeight].
  - unfold settle. cbn [heap jobs signal].
    destruct (heap st !! t) as [[[|o'] rs]|] eqn:E; cbn [heap jobs signal]; try lia.
    rewrite sum_list_with_app, sum_list_reaction_jobs.
    pose proof (sum_list_insert (fun p => length (p_reactions p)) _ _ _
                  (mkPromise (Settled o) []) E) as H.
    cbn [p_reactions length] in H. lia.
  - unfold promiseThen. cbn [heap jobs signal].
    destruct (heap st !! s) as [[[|o'] rs]|] eqn:E; cbn [heap jobs signal]; try lia.
    + pose proof (sum_list_insert (fun p => length (p_reactions p)) _ _ _
                    (mkPromise Pending (rs ++ [t])) E) as H.
      cbn [p_reactions] in H. rewrite length_app in H. cbn [length] in H. lia.
    + rewrite sum_list_with_app.
      change (sum_list_with jobWeight [ReactionJob t o']) with 1. lia.
Qed.

Lemma weight_jobs_nil st : weight st = 0 -> jobs st = [].
Proof.
  unfold weight. destruct (jobs st) as [|[t o|t s] js]; simpl; [reflexivity|lia|lia].
Qed.

Lemma runMicrotask_idle st : jobs st = [] -> runMicrotask st = st.
Proof. intros H. unfold runMicrotask. now rewrite H. Qed.

Lemma microtasks_drain n : forall st,
  weight st <= n -> jobs (run (replicate n Microtask) st) = [].
Proof.
  induction n as [|n IH]; intros st Hw; simpl.
  - apply weight_jobs_nil. lia.
  - fold (run (replicate n Microtask) (runMicrotask st)).
    destruct (jobs st) as [|j js] eqn:Hj.
    + rewrite runMicrotask_idle by assumption.
      clear IH Hw. induction n as [|n IHn]; simpl; [assumption|].
      now rewrite runMicrotask_idle.
    + apply IH. assert (jobs st <> []) as Hne by congruence.
      pose proof (weight_runMicrotask st Hne). lia.
Qed.

(** The checkpoint is total and leaves no job behind. *)
Lemma drain_jobs st : jobs (drain st) = [].
Proof. unfold drain. now apply microtasks_drain. Qed.

Lemma microtasks_admissible n0 n :
  Forall (admissible (V:=V) n0) (replicate n Microtask) /\
  Forall (fun e : event V => e <> Abort) (replicate n Microtask).
Proof.
  split; induction n; simpl; constructor; simpl; auto; discriminate.
Qed.

End RunFacts.

(** ** What the result of [abortable] can be *)
Section OutcomeFacts.

Context {V : Type}.
Implicit Types (st : state V) (o : outcome V) (tr : list (event V)).

Lemma abortable_run_inv promise st tr :
  wf st -> promise < length (heap st) -> aborted (signal st) = false ->
  Forall (admissible (length (heap st))) tr ->
  let n0 := length (heap st) in
  let st' := run tr (abortable promise st).2 in
  Safe n0 promise st' /\
  follows st' promise (S (S n0)) /\
  adopts st' n0 (S (S n0)).
Proof.
  intros Hwf Hp Hab Htr n0 st'. unfold st'.
  rewrite abortable_not_aborted by assumption. cbn [snd].
  destruct (started_inv promise st Hwf Hp Hab) as (HS & Hf & Had & _ & _).
  fold n0 in HS, Hf, Had.
  pose proof (safe_length _ _ _ HS) as Hlen.
  split; [|split].
  - now apply run_safe.
  - apply run_follows; [lia|lia|exact Hf].
  - apply run_adopts; [lia|lia|lia|exact Had].
Qed.

Lemma safe_result_outcome n0 promise st o :
  Safe n0 promise st ->
  pstateOf st n0 = Some (Settled o) ->
  pstateOf st promise = Some (Settled o) \/
  (o = Rejected AbortError /\ aborted (signal st) = true).
Proof.
  intros HS Hres.
  apply (safe_result _ _ _ HS) in Hres.
  apply (safe_race _ _ _ HS) in Hres as [Hp|Ha]; [now left|right].
  destruct (safe_abortPromise _ _ _ HS) as [Hpend|[Hset Hab]]; [congruence|].
  split; [congruence|exact Hab].
Qed.

Lemma safe_quiescent n0 promise st :
  Safe n0 promise st ->
  follows st promise (S (S n0)) -> adopts st n0 (S (S n0)) ->
  jobs st = [] -> aborted (signal st) = false ->
  pstateOf st n0 = pstateOf st promise.
Proof.
  intros HS Hf Had Hjobs Hab.
  assert (Hres : forall o, pstateOf st n0 = Some (Settled o) ->
                           pstateOf st promise = Some (Settled o)).
  { intros o H. destruct (safe_result_outcome _ _ _ _ HS H) as [?|[_ ?]];
      [assumption|congruence]. }
  assert (Hrace : forall o, pstateOf st (S (S n0)) = Some (Settled o) ->
                            pstateOf st promise = Some (Settled o)).
  { intros o H. apply (safe_race _ _ _ HS) in H as [Hp|Ha]; [assumption|].
    destruct (safe_abortPromise _ _ _ HS) as [Hpend|[_ Hab']]; congruence. }
  pose proof (safe_length _ _ _ HS) as Hlen.
  destruct (lookup_lt_is_Some_2 (heap st) n0 ltac:(lia)) as [[sres rres] Eres].
  assert (Hsres : pstateOf st n0 = Some sres) by (unfold pstateOf; now rewrite Eres).
  destruct Hf as [[Hpend Hin]|(o & Hp & Hrest)].
  - (* the promise is pending: so is the result *)
    rewrite Hpend, Hsres. destruct sres as [|o]; [reflexivity|].
    rewrite (Hres o Hsres) in Hpend. discriminate.
  - rewrite Hp. destruct Hrest as [Hin|[o' Hr]];
      [rewrite Hjobs in Hin; inversion Hin|].
    pose proof (Hrace _ Hr) as Hp'. rewrite Hp in Hp'. injection Hp' as <-.
    destruct Had as [Hin|[[Hpend _]|(o2 & Hr2 & [Hin|[o3 Hres3]])]];
      try (rewrite Hjobs in Hin; inversion Hin); [congruence|].
    rewrite Hres3. f_equal. f_equal.
    apply Hres in Hres3. congruence.
Qed.

End OutcomeFacts.

(** ** The probe cache only grows *)
Section CanDecodeFacts.

Variable currentSrcSet : string -> bool.
Implicit Types (st : cdstate) (type t : string) (evs : list cd_event).

Local Abbreviation canDecodeImageType := (canDecodeImageType currentSrcSet).
Local Abbreviation cd_step := (cd_step currentSrcSet).
Local Abbreviation cd_run := (cd_run currentSrcSet).

Lemma canDecode_hit type st p :
  canDecodeCache st !! type = Some p ->
  canDecodeImageType type st = (Some p, st).
Proof.
  intros H. unfold canDecodeImageType, cache_has.
  rewrite bool_decide_eq_true_2 by (rewrite H; eauto). simpl. now rewrite H.
Qed.

Lemma canDecode_miss type st :
  canDecodeCache st !! type = None ->
  canDecodeImageType type st =
    (Some (length (heap (host st))),
     mkCd (mkState (heap (host st) ++ [mkPromise Pending []])
                   (jobs (host st) ++
                      [ReactionJob (length (heap (host st)))
                                   (Fulfilled (currentSrcSet type))])
                   (signal (host st)))
          (<[type := length (heap (host st))]> (canDecodeCache st))
          (probes st ++ [type])).
Proof.
  intros H. unfold canDecodeImageType, cache_has.
  rewrite bool_decide_eq_false_2 by (rewrite H; intros [? ?]; discriminate).
  simpl. now rewrite lookup_insert_eq.
Qed.

Lemma cd_step_Call type st : cd_step (Call type) st = (canDecodeImageType type st).2.
Proof. reflexivity. Qed.

Lemma cd_step_Tick st :
  cd_step Tick st = mkCd (runMicrotask (host st)) (canDecodeCache st) (probes st).
Proof. reflexivity. Qed.

Lemma cd_step_cache e st t p :
  canDecodeCache st !! t = Some p -> canDecodeCache (cd_step e st) !! t = Some p.
Proof.
  intros H. destruct e as [type|]; [rewrite cd_step_Call|exact H].
  destruct (canDecodeCache st !! type) as [p'|] eqn:E.
  - now rewrite (canDecode_hit _ _ _ E).
  - rewrite (canDecode_miss _ _ E). simpl.
    rewrite lookup_insert_ne; [exact H|]. intros ->. congruence.
Qed.

Lemma cd_run_cons e evs st : cd_run (e :: evs) st = cd_run evs (cd_step e st).
Proof. reflexivity. Qed.

Lemma cd_run_cache evs : forall st t p,
  canDecodeCache st !! t = Some p -> canDecodeCache (cd_run evs st) !! t = Some p.
Proof.
  induction evs as [|e evs IH]; intros st t p H; [exact H|].
  rewrite cd_run_cons. apply IH. now apply cd_step_cache.
Qed.

Lemma cd_inv_init : cd_inv cd_init.
Proof.
  split; [constructor|]. intros t. simpl. rewrite lookup_empty. split.
  - intros H. inversion H.
  - intros [? ?]. discriminate.
Qed.

Lemma cd_step_inv e st : cd_inv st -> cd_inv (cd_step e st).
Proof.
  intros [Hnd Hdom]. destruct e as [type|]; [rewrite cd_step_Call|split; assumption].
  destruct (canDecodeCache st !! type) as [p'|] eqn:E.
  - rewrite (canDecode_hit _ _ _ E). split; assumption.
  - rewrite (canDecode_miss _ _ E). unfold cd_inv. simpl. split.
    + apply NoDup_app. repeat split; [assumption| |apply NoDup_singleton].
      intros t Hin Hin'. apply list_elem_of_singleton in Hin' as ->.
      apply Hdom in Hin as [? ?]. congruence.
    + intros t. rewrite elem_of_app, list_elem_of_singleton, Hdom.
      destruct (decide (type = t)) as [->|Hne].
      * rewrite lookup_insert_eq. split; eauto.
      * rewrite lookup_insert_ne by assumption. split; [|tauto].
        intros [?|?]; [assumption|congruence].
Qed.

Lemma cd_run_inv evs : forall st, cd_inv st -> cd_inv (cd_run evs st).
Proof.
  induction evs as [|e evs IH]; intros st H; [exact H|].
  rewrite cd_run_cons. apply IH. now apply cd_step_inv.
Qed.

Lemma cd_step_probes e st t :
  cd_inv st ->
  t ∈ probes (cd_step e st) <-> t ∈ probes st \/ e = Call t.
Proof.
  intros [Hnd Hdom]. destruct e as [type|]; [rewrite cd_step_Call|rewrite cd_step_Tick; simpl].
  - destruct (canDecodeCache st !! type) as [p'|] eqn:E.
    + rewrite (canDecode_hit _ _ _ E). simpl. split; [tauto|].
      intros [?|Heq]; [assumption|]. injection Heq as ->. apply Hdom. eauto.
    + rewrite (canDecode_miss _ _ E). simpl.
      rewrite elem_of_app, list_elem_of_singleton. split.
      * intros [?| ->]; auto.
      * intros [?|Heq]; [auto|]. injection Heq as ->. auto.
  - split; [tauto|]. intros [?|?]; [assumption|discriminate].
Qed.

Lemma cd_run_probes evs : forall st t,
  cd_inv st ->
  t ∈ probes (cd_run evs st) <-> t ∈ probes st \/ Call t ∈ evs.
Proof.
  induction evs as [|e evs IH]; intros st t H.
  - simpl. split; [tauto|]. intros [?|Hin]; [assumption|inversion Hin].
  - rewrite cd_run_cons, IH by now apply cd_step_inv.
    rewrite cd_step_probes by assumption. rewrite elem_of_cons.
    split.
    + intros [[?|?]|?]; auto.
    + intros [?|[?|?]]; auto.
Qed.

Lemma canDecode_returns type st :
  exists p, (canDecodeImageType type st).1 = Some p /\
            canDecodeCache (canDecodeImageType type st).2 !! type = Some p.
Proof.
  destruct (canDecodeCache st !! type) as [p'|] eqn:E.
  - rewrite (canDecode_hit _ _ _ E). eauto.
  - rewrite (canDecode_miss _ _ E). simpl. rewrite lookup_insert_eq. eauto.
Qed.

End CanDecodeFacts.

(** ** The data URL pattern and the byte loop *)
Section CanvasFacts.

Local Open Scope string_scope.
Local Arguments String.append : simpl nomatch.

Lemma append_empty_r (s : string) : s ++ "" = s.
Proof. induction s as [|c s IH]; simpl; [reflexivity|]. now rewrite IH. Qed.

Lemma search_sound r : forall s caps,
  search r s = Some caps ->
  exists pre s', s = pre ++ s' /\ match_here r s' = Some caps.
Proof.
  induction s as [|c s IH]; intros caps H; simpl in H.
  - destruct (match_here r "") eqn:E; [|discriminate].
    exists "", "". split; [reflexivity|congruence].
  - destruct (match_here r (String c s)) eqn:E.
    + exists "", (String c s). split; [reflexivity|congruence].
    + destruct (IH _ H) as (pre & s' & -> & Hm).
      exists (String c pre), s'. auto.
Qed.

Lemma search_here r s caps : match_here r s = Some caps -> search r s = Some caps.
Proof. intros H. destruct s; simpl; now rewrite H. Qed.

Lemma match_here_chars lit r : forall s caps,
  match_here (chars lit ++ r)%list s = Some caps ->
  exists s', s = lit ++ s' /\ match_here r s' = Some caps.
Proof.
  induction lit as [|c lit IH]; intros s caps H.
  - exists s. auto.
  - change (chars (String c lit)) with (Atom (Chr c) One false :: chars lit) in H.
    cbn [app match_here match_quant cset_mem] in H.
    destruct s as [|c' s']; [discriminate|].
    destruct (Ascii.eqb_spec c c') as [->|Hne]; [|discriminate].
    destruct (match_here (chars lit ++ r) s') as [caps'|] eqn:E; [|discriminate].
    simpl in H. injection H as <-.
    destruct (IH _ _ E) as (s'' & -> & Hm). exists s''. auto.
Qed.

Lemma match_here_chars_append lit r s :
  match_here (chars lit ++ r)%list (lit ++ s) = match_here r s.
Proof.
  revert s. induction lit as [|c lit IH]; intros s; [reflexivity|].
  change (chars (String c lit)) with (Atom (Chr c) One false :: chars lit).
  cbn [app match_here match_quant cset_mem String.append].
  rewrite Ascii.eqb_refl. specialize (IH s).
  destruct (match_here (chars lit ++ r) (lit ++ s)); simpl; now rewrite <- IH.
Qed.

(** The greedy star stops where the set stops. *)
Lemma star_greedy a k w s2 caps :
  all_in a w ->
  (forall c s', s2 = String c s' -> cset_mem a c = false) ->
  k s2 = Some caps ->
  star a k (w ++ s2) = Some (w, caps).
Proof.
  intros Hall Hstop Hk. induction w as [|c w IH]; simpl.
  - destruct s2 as [|c s']; simpl; [now rewrite Hk|].
    rewrite (Hstop c s' eq_refl). now rewrite Hk.
  - destruct Hall as [Hc Hall]. rewrite Hc. now rewrite (IH Hall).
Qed.

Lemma dataUrl_here_sound s caps :
  match_here (items dataUrlRegExp) s = Some caps ->
  exists outputType b64,
    caps = [outputType; b64] /\
    s = "data:" ++ outputType ++ ";base64," ++ b64 /\
    wellFormedDataUrl outputType b64.
Proof.
  unfold dataUrlRegExp. cbn [items]. intros H.
  apply match_here_chars in H as (s1 & -> & H).
  cbn [app match_here match_quant] in H.
  destruct s1 as [|c s1]; [discriminate|].
  destruct (cset_mem (NoneOf [";"%char]) c) eqn:Hc; [|discriminate].
  destruct (star _ _ s1) as [[w caps1]|] eqn:Es; [|discriminate].
  simpl in H. injection H as <-.
  apply star_sound in Es as (s2 & -> & Hall & Hk).
  change (match_here (chars ";base64," ++ [Atom Dot Star true; Eol])%list s2
          = Some caps1) in Hk.
  apply match_here_chars in Hk as (s3 & -> & Hk).
  cbn [match_here match_quant] in Hk.
  destruct (star Dot _ s3) as [[b caps2]|] eqn:Es; [|discriminate].
  injection Hk as <-.
  apply star_sound in Es as (s4 & -> & Hall' & Hk).
  destruct s4; [|discriminate]. simpl in Hk. injection Hk as <-.
  exists (String c w), b. split; [reflexivity|]. split.
  - rewrite append_empty_r. reflexivity.
  - split; [discriminate|]. split; [split; assumption|assumption].
Qed.

Lemma dataUrl_exec_sound s caps :
  RegExp.exec dataUrlRegExp s = Some caps ->
  exists pre outputType b64,
    caps = [outputType; b64] /\
    s = pre ++ "data:" ++ outputType ++ ";base64," ++ b64 /\
    wellFormedDataUrl outputType b64.
Proof.
  unfold RegExp.exec. simpl anchored. cbv iota.
  intros H. apply search_sound in H as (pre & s' & -> & H).
  apply dataUrl_here_sound in H as (t & b & -> & -> & Hwf).
  exists pre, t, b. auto.
Qed.

Lemma dataUrl_exec_complete outputType b64 :
  wellFormedDataUrl outputType b64 ->
  RegExp.exec dataUrlRegExp ("data:" ++ outputType ++ ";base64," ++ b64)
  = Some [outputType; b64].
Proof.
  intros (Hne & Ht & Hb). unfold RegExp.exec. simpl anchored. cbv iota.
  apply search_here. unfold dataUrlRegExp. cbn [items].
  rewrite match_here_chars_append.
  destruct outputType as [|c t]; [congruence|]. destruct Ht as [Hc Ht].
  cbn [app match_here match_quant String.append]. rewrite Hc.
  rewrite (star_greedy _ _ t (";base64," ++ b64) [b64]); [reflexivity|exact Ht| |].
  - intros c' s' [= <- _]. reflexivity.
  - change (match_here (chars ";base64," ++ [Atom Dot Star true; Eol])%list
              (";base64," ++ b64) = Some [b64]).
    rewrite match_here_chars_append. cbn [match_here match_quant].
    rewrite <- (append_empty_r b64) at 1.
    rewrite (star_greedy Dot _ b64 "" []); [reflexivity|exact Hb| |reflexivity].
    intros c' s' [=].
Qed.

(** The loop over the binary string copies it byte by byte. *)
Lemma fill_lookup (f : nat -> byte) : forall k a (d : list byte) j,
  foldl (fun data i => <[i := f i]> data) d (seq a k) !! j =
  if decide (a <= j < a + k /\ j < length d) then Some (f j) else d !! j.
Proof.
  induction k as [|k IH]; intros a d j; simpl.
  - case_decide; [lia|reflexivity].
  - rewrite IH, length_insert.
    destruct (decide (j = a)) as [->|Hne].
    + destruct (decide (a < length d)).
      * rewrite list_lookup_insert_eq by assumption.
        repeat case_decide; try lia; reflexivity.
      * rewrite list_insert_ge by lia. repeat case_decide; try lia; reflexivity.
    + rewrite list_lookup_insert_ne by congruence.
      repeat case_decide; try lia; reflexivity.
Qed.

Lemma list_byte_of_string_lookup s : forall j,
  list_byte_of_string s !! j = byte_of_ascii <$> String.get j s.
Proof.
  induction s as [|c s IH]; intros j; [now destruct j|].
  rewrite list_byte_of_string_String. destruct j as [|j]; simpl; [reflexivity|].
  apply IH.
Qed.

Lemma get_is_Some s : forall j, (j < String.length s)%nat -> is_Some (String.get j s).
Proof.
  induction s as [|c s IH]; intros j Hj; simpl in *; [lia|].
  destruct j; [eauto|]. apply IH. lia.
Qed.

Lemma get_None s : forall j, (String.length s <= j)%nat -> String.get j s = None.
Proof.
  induction s as [|c s IH]; intros j Hj; simpl in *; [now destruct j|].
  destruct j; [lia|]. apply IH. lia.
Qed.

Lemma fillFrom_spec (binaryStr : string) :
  fillFrom binaryStr = list_byte_of_string binaryStr.
Proof.
  apply list_eq. intros j. unfold fillFrom.
  rewrite fill_lookup, length_replicate, list_byte_of_string_lookup.
  case_decide as Hj.
  - destruct (get_is_Some binaryStr j) as [c Hc]; [lia|].
    unfold charCodeAt. now rewrite Hc.
  - destruct (decide (j < String.length binaryStr)%nat); [lia|].
    rewrite lookup_ge_None_2 by (rewrite length_replicate; lia).
    now rewrite get_None by lia.
Qed.

End CanvasFacts.

(** * The specification, claim by claim *)

(** ** MIME sniffing *)
Section SniffClaims.

Local Open Scope string_scope.
Local Arguments String.append : simpl nomatch.

(** C1.  For every entry (signature, type) of the magic-number table, a
    blob whose bytes start with a text of the signature is sniffed as
    that type; a blob that starts with no text of any signature is
    sniffed as the empty string; a blob beginning with
    89 50 4E 47 0D 0A 1A 0A gives "image/png" and one beginning with
    00 00 00 00 gives "". *)
Theorem sniffMimeType_magic_numbers :
  (forall r T w (rest : list byte),
     In (r, T) magicNumberMapInput -> Lang r w ->
     sniffMimeType (list_byte_of_string w ++ rest)%list = T) /\
  (forall blob : list byte,
     (forall r T w rest, In (r, T) magicNumberMapInput -> Lang r w ->
        blob <> (list_byte_of_string w ++ rest)%list) ->
     sniffMimeType blob = "") /\
  (forall rest : list byte,
     sniffMimeType ([x89; x50; x4e; x47; x0d; x0a; x1a; x0a] ++ rest)%list
     = "image/png") /\
  (forall rest : list byte,
     sniffMimeType ([x00; x00; x00; x00] ++ rest)%list = "").
Proof.
  split; [|split; [|split]].
  - intros r T w rest. apply sniff_entry.
  - apply sniff_unrecognized.
  - apply sniff_png.
  - apply sniff_zeros.
Qed.

Lemma sniffMimeType_magic_numbers_witness :
  sniffMimeType (list_byte_of_string "GIF89a" ++ [x00; x3b])%list = "image/gif" /\
  sniffMimeType [x01; x02] = "".
Proof.
  split.
  - apply (proj1 sniffMimeType_magic_numbers (re (chars "GIF89a")) gif "GIF89a").
    + simpl. auto.
    + unfold Lang. simpl.
      repeat (do 2 eexists; split; [reflexivity|split; [reflexivity|]]).
      reflexivity.
  - apply (proj1 (proj2 sniffMimeType_magic_numbers)).
    intros r T w rest Hin HM Heq. unfold magicNumberMapInput in Hin.
    repeat (destruct Hin as [Hin|Hin];
      [ injection Hin as <- <-; unfold Lang in HM;
        cbn [Matches items re chars hex map list_ascii_of_string app all_in] in HM;
        inv_matches; discriminate Heq
      | ]).
    contradiction.
Defined.

(** C4.  Only the first sixteen bytes are looked at: two blobs that
    agree on them are sniffed alike. *)
Theorem sniffMimeType_first_16_bytes (blob1 blob2 : list byte) :
  take 16 blob1 = take 16 blob2 ->
  sniffMimeType blob1 = sniffMimeType blob2.
Proof. intros H. now rewrite !sniffMimeType_unfold, H. Qed.

Lemma sniffMimeType_first_16_bytes_witness :
  sniffMimeType (list_byte_of_string "RIFF1234WEBPVP8 " ++ [x00; x01])%list =
  sniffMimeType (list_byte_of_string "RIFF1234WEBPVP8 " ++ [xff])%list.
Proof. apply sniffMimeType_first_16_bytes. reflexivity. Defined.

(** C5.  The first entry of the table that matches decides, whatever
    matches after it; the entry for [I I] stands before the entry for
    [II*], which matches whatever [I I] matches, and nothing before
    [I I] matches what it matches. *)
Theorem sniffMimeType_first_match_wins :
  (forall (blob : list byte) i d m,
     magicNumberToMimeType !! i = Some (d, m) ->
     test d (firstChunkString blob) = true ->
     (forall j d' m', j < i -> magicNumberToMimeType !! j = Some (d', m') ->
        test d' (firstChunkString blob) = false) ->
     sniffMimeType blob = m) /\
  magicNumberToMimeType !! 6 = Some (re (chars "I I"), "image/tiff") /\
  magicNumberToMimeType !! 7
    = Some (re (chars "I" ++ [Atom (Chr "I") Star false])%list, "image/tiff") /\
  (forall blob : list byte,
     test (re (chars "I I")) (firstChunkString blob) = true ->
     test (re (chars "I" ++ [Atom (Chr "I") Star false])%list)
          (firstChunkString blob) = true /\
     forall j d' m', j < 6 -> magicNumberToMimeType !! j = Some (d', m') ->
        test d' (firstChunkString blob) = false).
Proof.
  split; [|split; [reflexivity|split; [reflexivity|]]].
  - intros blob i d m Hi Ht Hbefore. unfold sniffMimeType.
    eapply firstDetected_first; eauto.
  - intros blob. generalize (firstChunkString blob). intros s Ht.
    destruct s as [|c s]; [discriminate|].
    change (chars "I I") with
      [Atom (Chr "I") One false; Atom (Chr " ") One false; Atom (Chr "I") One false] in Ht.
    rewrite test_re_one in Ht. apply andb_true_iff in Ht as [Hc _].
    rewrite cset_mem_Chr in Hc. apply Ascii.eqb_eq in Hc. subst c.
    split.
    + change (chars "I" ++ [Atom (Chr "I") Star false])%list
        with [Atom (Chr "I") One false; Atom (Chr "I") Star false].
      rewrite test_re_one, test_re_star_last. reflexivity.
    + intros j d' m' Hj Hl.
      do 6 (destruct j as [|j]; [injection Hl as <- <-; reflexivity|]). lia.
Qed.

Lemma sniffMimeType_first_match_wins_witness :
  sniffMimeType [x49; x20; x49; x2a] = "image/tiff".
Proof.
  apply (proj1 sniffMimeType_first_match_wins [x49; x20; x49; x2a] 6
           (re (chars "I I")) "image/tiff").
  - reflexivity.
  - reflexivity.
  - intros j d' m' Hj Hl.
    do 6 (destruct j as [|j]; [injection Hl as <- <-; reflexivity|]). lia.
Defined.

(** C9.  A blob of fewer than sixteen bytes is sniffed whole: the slice
    is the blob itself, and the answer is the empty string or the type
    of an entry that matches and needs no more bytes than there are. *)
Theorem sniffMimeType_short_blob (blob : list byte) :
  length blob < 16 ->
  blob_slice 0 16 blob = blob /\
  firstChunkString blob = string_of_list_byte blob /\
  (sniffMimeType blob = "" \/
   exists d, In (d, sniffMimeType blob) magicNumberMapInput /\
             test d (string_of_list_byte blob) = true /\
             min_len (items d) <= length blob).
Proof.
  intros Hlen.
  assert (Htake : take 16 blob = blob) by (apply take_ge; lia).
  split; [now rewrite blob_slice_0_16|].
  split; [now rewrite firstChunkString_take, Htake|].
  rewrite sniffMimeType_unfold, Htake.
  destruct (firstDetected_in magicNumberToMimeType (string_of_list_byte blob))
    as [H|(d & Hin & Ht)]; [now left|right].
  exists d. split; [exact Hin|]. split; [exact Ht|].
  pose proof table_shape as Hshape. rewrite Forall_forall in Hshape.
  destruct (Hshape _ (proj2 (list_elem_of_In _ _) Hin)) as [Hanch _].
  unfold test, RegExp.exec in Ht. simpl in Hanch. rewrite Hanch in Ht.
  destruct (match_here (items d) (string_of_list_byte blob)) as [caps|] eqn:E;
    [|discriminate].
  apply match_here_min_len in E.
  replace (length blob) with (String.length (string_of_list_byte blob)); [exact E|].
  clear. induction blob as [|b blob IH]; [reflexivity|].
  rewrite string_of_list_byte_cons. simpl. now rewrite IH.
Qed.

Lemma sniffMimeType_short_blob_witness :
  blob_slice 0 16 [x42; x4d; x00] = [x42; x4d; x00] /\
  firstChunkString [x42; x4d; x00] = string_of_list_byte [x42; x4d; x00] /\
  (sniffMimeType [x42; x4d; x00] = "" \/
   exists d, In (d, sniffMimeType [x42; x4d; x00]) magicNumberMapInput /\
             test d (string_of_list_byte [x42; x4d; x00]) = true /\
             min_len (items d) <= length [x42; x4d; x00]).
Proof. apply sniffMimeType_short_blob. simpl. lia. Defined.

(** C10.  The star of the TIFF entries is a quantifier: a first byte
    49 alone, or first bytes 4D 4D alone, make a blob "image/tiff",
    whatever follows, the byte 2A or not. *)
Theorem sniffMimeType_tiff_star :
  (forall rest : list byte, sniffMimeType (x49 :: rest) = "image/tiff") /\
  (forall rest : list byte, sniffMimeType (x4d :: x4d :: rest) = "image/tiff") /\
  sniffMimeType [x49] = "image/tiff" /\
  sniffMimeType [x49; x00; x00; x00] = "image/tiff" /\
  sniffMimeType [x4d; x4d; xff; xff] = "image/tiff".
Proof.
  split; [exact sniff_I|]. split; [exact sniff_MM|].
  split; [apply sniff_I|]. split; [apply sniff_I|apply sniff_MM].
Qed.

End SniffClaims.

(** ** The abortable wrapper *)
Section AbortableClaims.

Context {V : Type}.
Implicit Types (st : state V) (tr : list (event V)).

(** C2.  With the signal already aborted when [abortable] is called,
    the promise it returns is rejected with the AbortError by the time
    the call returns; the wrapped promise gets no reaction, no job is
    queued, no listener is added and no other promise is made: nothing
    is awaited and there is no race. *)
Theorem abortable_already_aborted st (promise : nat) :
  aborted (signal st) = true ->
  let result := (abortable promise st).1 in
  let st' := (abortable promise st).2 in
  pstateOf st' result = Some (Settled (Rejected AbortError)) /\
  heap st' = heap st ++ [mkPromise (Settled (Rejected AbortError)) []] /\
  (forall q, q < length (heap st) -> heap st' !! q = heap st !! q) /\
  jobs st' = jobs st /\
  signal st' = signal st.
Proof.
  intros Hab. rewrite abortable_aborted by assumption. simpl.
  repeat split.
  - unfold pstateOf. simpl. now rewrite lookup_app_r, Nat.sub_diag by lia.
  - intros q Hq. now apply lookup_app_l.
Qed.

(** C6.  With a signal that never fires, the promise that [abortable]
    returns is settled only as the wrapped promise is, with the same
    value or the same error; the microtask checkpoint ends, and once no
    microtask is left the two promises are in the same state. *)
Theorem abortable_signal_never_fires st (promise : nat) tr :
  wf st -> promise < length (heap st) -> aborted (signal st) = false ->
  Forall (fun e => e <> Abort /\ admissible (length (heap st)) e) tr ->
  let result := (abortable promise st).1 in
  let st' := run tr (abortable promise st).2 in
  (forall o, pstateOf st' result = Some (Settled o) ->
             pstateOf st' promise = Some (Settled o)) /\
  (jobs st' = [] -> pstateOf st' result = pstateOf st' promise) /\
  jobs (drain st') = [] /\
  pstateOf (drain st') result = pstateOf (drain st') promise.
Proof.
  intros Hwf Hp Hab Htr result st'.
  assert (Hres : result = length (heap st)).
  { unfold result. now rewrite abortable_not_aborted. }
  assert (Hgen : forall tr', Forall (fun e => e <> Abort /\
                    admissible (length (heap st)) e) tr' ->
            let s := run tr' (abortable promise st).2 in
            (forall o, pstateOf s result = Some (Settled o) ->
                       pstateOf s promise = Some (Settled o)) /\
            (jobs s = [] -> pstateOf s result = pstateOf s promise)).
  { intros tr' Htr' s.
    assert (Hadm : Forall (admissible (length (heap st))) tr').
    { eapply Forall_impl; [exact Htr'|]. now intros e [_ ?]. }
    assert (Hnab : Forall (fun e : event V => e <> Abort) tr').
    { eapply Forall_impl; [exact Htr'|]. now intros e [? _]. }
    destruct (abortable_run_inv promise st tr' Hwf Hp Hab Hadm) as (HS & Hf & Had).
    fold s in HS, Hf, Had.
    assert (Hab' : aborted (signal s) = false).
    { unfold s. rewrite signal_run by assumption.
      rewrite abortable_not_aborted by assumption. cbn [snd].
      now destruct (started_inv promise st Hwf Hp Hab) as (_ & _ & _ & _ & ?). }
    rewrite Hres. split.
    - intros o Ho.
      destruct (safe_result_outcome _ _ _ _ HS Ho) as [?|[_ ?]];
        [assumption|congruence].
    - intros Hjobs. now apply safe_quiescent. }
  destruct (Hgen tr Htr) as [H1 H2]. fold st' in H1, H2.
  split; [exact H1|]. split; [exact H2|]. split; [apply drain_jobs|].
  unfold drain, st'. rewrite <- run_app.
  apply Hgen.
  - apply Forall_app. split; [exact Htr|].
    destruct (microtasks_admissible (V:=V) (length (heap st))
                (weight (run tr (abortable promise st).2))) as [Ha Hn].
    apply Forall_forall. intros e He.
    rewrite Forall_forall in Ha, Hn. auto.
  - rewrite run_app. apply drain_jobs.
Qed.

(** C7, amended.  A failure of [assertSignal] or of [abortable] that is
    due to cancellation carries the DOMException whose name and message
    are "AbortError": the promise of [abortable] is settled either as
    the wrapped promise is or, the signal aborted, with that error.  The
    error differs from every [Error] (the failures of decoding and
    encoding) and from every error of another name; a wrapped operation
    that itself fails with an AbortError is not told apart. *)
Theorem cancellation_is_AbortError st (promise : nat) tr :
  wf st -> promise < length (heap st) ->
  Forall (admissible (length (heap st))) tr ->
  let result := (abortable promise st).1 in
  let st' := run tr (abortable promise st).2 in
  (forall e, assertSignal st = Some e ->
             e = AbortError /\ aborted (signal st) = true) /\
  (forall o, pstateOf st' result = Some (Settled o) ->
             pstateOf st' promise = Some (Settled o) \/
             (o = Rejected AbortError /\ aborted (signal st') = true)) /\
  exn_name AbortError = "AbortError" /\
  (forall message, exn_name (Error message) = "Error" /\
                   AbortError <> Error message) /\
  (forall e, exn_name e <> "AbortError" -> e <> AbortError).
Proof.
  intros Hwf Hp Htr result st'.
  split; [|split; [|split; [reflexivity|split]]].
  - intros e. unfold assertSignal.
    destruct (aborted (signal st)); [|discriminate]. intros [= <-]. auto.
  - intros o Ho. destruct (aborted (signal st)) eqn:Hab.
    + right. unfold st', result in *.
      rewrite abortable_aborted in * by assumption. cbn [fst snd] in *.
      set (st1 := mkState _ _ _) in *.
      assert (H1 : pstateOf st1 (length (heap st))
                   = Some (Settled (Rejected AbortError))).
      { unfold pstateOf, st1. simpl.
        now rewrite lookup_app_r, Nat.sub_diag by lia. }
      apply (run_settled tr) in H1. rewrite H1 in Ho. injection Ho as <-.
      split; [reflexivity|]. now apply aborted_run.
    + destruct (abortable_run_inv promise st tr Hwf Hp Hab Htr) as (HS & _ & _).
      apply (safe_result_outcome _ _ _ _ HS).
      unfold result in Ho. now rewrite abortable_not_aborted in Ho.
  - intros message. split; [reflexivity|discriminate].
  - intros e Hne ->. now apply Hne.
Qed.

End AbortableClaims.

Lemma abortable_already_aborted_witness :
  let st : state nat := mkState [mkPromise Pending []] [] (mkSignal true []) in
  pstateOf (abortable 0 st).2 (abortable 0 st).1
    = Some (Settled (Rejected AbortError)) /\
  heap (abortable 0 st).2
    = heap st ++ [mkPromise (Settled (Rejected AbortError)) []] /\
  (forall q, q < length (heap st) -> heap (abortable 0 st).2 !! q = heap st !! q) /\
  jobs (abortable 0 st).2 = jobs st /\
  signal (abortable 0 st).2 = signal st.
Proof.
  intros st. apply (abortable_already_aborted st 0). reflexivity.
Defined.

Lemma abortable_signal_never_fires_witness :
  let st : state nat := mkState [mkPromise Pending []] [] (mkSignal false []) in
  let tr := [Create; Subscribe 1 4; Microtask; Settle 0 (Fulfilled 7); Microtask] in
  let result := (abortable 0 st).1 in
  let st' := run tr (abortable 0 st).2 in
  (forall o, pstateOf st' result = Some (Settled o) ->
             pstateOf st' 0 = Some (Settled o)) /\
  (jobs st' = [] -> pstateOf st' result = pstateOf st' 0) /\
  jobs (drain st') = [] /\
  pstateOf (drain st') result = pstateOf (drain st') 0.
Proof.
  intros st tr.
  apply (abortable_signal_never_fires st 0 tr).
  - repeat constructor.
  - simpl. lia.
  - reflexivity.
  - repeat (apply Forall_cons; split;
            [split; [discriminate|first [exact I|simpl; unfold outside; simpl; lia]]|]).
    constructor.
Defined.

Lemma cancellation_is_AbortError_witness :
  let st : state nat := mkState [mkPromise Pending []] [] (mkSignal false []) in
  let tr := [Abort; Microtask; Microtask; Microtask] in
  let result := (abortable 0 st).1 in
  let st' := run tr (abortable 0 st).2 in
  pstateOf st' result = Some (Settled (Rejected AbortError)) /\
  (pstateOf st' 0 = Some (Settled (Rejected AbortError)) \/
   (Rejected (V:=nat) AbortError = Rejected AbortError /\
    aborted (signal st') = true)).
Proof.
  intros st tr result st'. split; [reflexivity|].
  apply (proj1 (proj2 (cancellation_is_AbortError st 0 tr
           ltac:(repeat constructor) ltac:(simpl; lia)
           ltac:(repeat constructor)))).
  reflexivity.
Defined.

(** C7 as it is written fails: the error of a cancellation need not
    differ from the error of the wrapped operation.  A wrapped promise
    rejected with an AbortError of its own gives, under a signal that
    is never aborted, the very result that a cancellation gives. *)
Lemma cancellation_error_not_distinct :
  ~ (forall (st : state nat) (promise : nat) (e e' : exn),
       aborted (signal st) = true ->
       pstateOf (abortable promise st).2 (abortable promise st).1
         = Some (Settled (Rejected e)) ->
       pstateOf st promise = Some (Settled (Rejected e')) ->
       e <> e') /\
  (let cancelled : state nat :=
     mkState [mkPromise Pending []] [] (mkSignal true []) in
   let failed : state nat :=
     mkState [mkPromise (Settled (Rejected AbortError)) []] [] (mkSignal false []) in
   aborted (signal (drain (abortable 0 failed).2)) = false /\
   pstateOf (drain (abortable 0 failed).2) (abortable 0 failed).1
   = pstateOf (abortable 0 cancelled).2 (abortable 0 cancelled).1).
Proof.
  split.
  - intros H.
    apply (H (mkState [mkPromise (Settled (Rejected AbortError)) []] []
                      (mkSignal true []))
             0 AbortError AbortError); reflexivity.
  - split; reflexivity.
Qed.

(** ** The capability probe *)

(** C3.  Whatever calls and microtasks came before, the probe has been
    made once for each label asked about and for no other; a call
    returns a stored promise, and any later call with the same label,
    even before a single microtask has run, returns that same promise
    and leaves the state as it is (no new probe); an entry of the cache
    is never removed or replaced. *)
Theorem canDecodeImageType_probes_once
    (currentSrcSet : string -> bool) (evs : list cd_event) (type : string) :
  let st := cd_run currentSrcSet evs cd_init in
  NoDup (probes st) /\
  (type ∈ probes st <-> Call type ∈ evs) /\
  (forall evs',
     let first := canDecodeImageType currentSrcSet type st in
     let st2 := cd_run currentSrcSet evs' first.2 in
     is_Some first.1 /\
     canDecodeImageType currentSrcSet type st2 = (first.1, st2)) /\
  (forall p evs',
     canDecodeCache st !! type = Some p ->
     canDecodeCache (cd_run currentSrcSet evs' st) !! type = Some p) /\
  (canDecodeCache st !! type = None ->
   let first := canDecodeImageType currentSrcSet type st in
   exists p, first.1 = Some p /\
             pstateOf (host first.2) p = Some Pending /\
             probes first.2 = probes st ++ [type] /\
             canDecodeImageType currentSrcSet type first.2 = (Some p, first.2)).
Proof.
  intros st.
  pose proof (cd_run_inv currentSrcSet evs cd_init cd_inv_init) as Hinv.
  fold st in Hinv.
  split; [apply Hinv|]. split.
  { unfold st. rewrite cd_run_probes by apply cd_inv_init. simpl.
    split; [intros [H|H]; [inversion H|exact H]|auto]. }
  split; [|split].
  - intros evs' first st2.
    destruct (canDecode_returns currentSrcSet type st) as (p & Hp & Hc).
    fold first in Hp, Hc. split; [rewrite Hp; eauto|].
    rewrite Hp. apply canDecode_hit. now apply cd_run_cache.
  - intros p evs' H. now apply cd_run_cache.
  - intros Hnone first. unfold first. rewrite (canDecode_miss _ _ _ Hnone).
    exists (length (heap (host st))). cbn [fst snd host probes].
    split; [reflexivity|]. split.
    + unfold pstateOf. cbn [heap]. now rewrite lookup_app_r, Nat.sub_diag by lia.
    + split; [reflexivity|]. apply canDecode_hit. cbn [canDecodeCache].
      apply lookup_insert_eq.
Qed.

Lemma canDecodeImageType_probes_once_witness :
  let currentSrcSet := fun type : string => String.eqb type "image/webp" in
  let first := canDecodeImageType currentSrcSet "image/avif" cd_init in
  exists p, first.1 = Some p /\
            pstateOf (host first.2) p = Some Pending /\
            probes first.2 = ["image/avif"] /\
            canDecodeImageType currentSrcSet "image/avif" first.2 = (Some p, first.2).
Proof.
  intros currentSrcSet.
  exact (proj2 (proj2 (proj2 (proj2
    (canDecodeImageType_probes_once currentSrcSet [] "image/avif")))) eq_refl).
Defined.

(** ** The canvas encoder *)
Section CanvasClaims.

Variable number : Type.
Variable canvas : Canvas number.

(** C8, amended.  [canvasEncode] returns a blob, never null, or throws.
    With [toBlob] the blob is the one the browser made, of whatever
    type the browser gave it, and "Encoding failed" is thrown when it
    made none.  Without [toBlob] the data URL is parsed: "Data URL
    reading failed" is thrown when the pattern finds nothing, an error
    of [atob] is passed on, and otherwise the blob holds the decoded
    string byte by byte under the type named in the URL.  The failures
    differ from one another. *)
Theorem canvasEncode_blob_or_throw
    (data : ImageData) (type : string) (quality : option number) :
  let r := canvasEncode canvas data type quality in
  (getContext2d canvas = false -> r = Throw (Error "Canvas not initialized")) /\
  (getContext2d canvas = true -> hasToBlob canvas = true ->
     match toBlob canvas data type quality with
     | Some blob => r = Return blob
     | None => r = Throw (Error "Encoding failed")
     end) /\
  (getContext2d canvas = true -> hasToBlob canvas = false ->
     match RegExp.exec dataUrlRegExp (toDataURL canvas data type quality) with
     | None => r = Throw (Error "Data URL reading failed")
     | Some result =>
         exists pre outputType b64,
           result = [outputType; b64] /\
           toDataURL canvas data type quality
             = (pre +:+ "data:" +:+ outputType +:+ ";base64," +:+ b64) /\
           wellFormedDataUrl outputType b64 /\
           match atob canvas b64 with
           | Return binaryStr =>
               r = Return (mkBlob (list_byte_of_string binaryStr)
                                  (blobType outputType))
           | Throw e => r = Throw e
           end
     end) /\
  (forall outputType b64,
     wellFormedDataUrl outputType b64 ->
     RegExp.exec dataUrlRegExp ("data:" +:+ outputType +:+ ";base64," +:+ b64)
     = Some [outputType; b64]) /\
  Error "Encoding failed" <> Error "Data URL reading failed" /\
  Error "Encoding failed" <> Error "Canvas not initialized" /\
  Error "Data URL reading failed" <> Error "Canvas not initialized" /\
  ((exists blob, r = Return blob) \/ exists e, r = Throw e).
Proof.
  intros r. subst r. unfold canvasEncode.
  split; [intros H; rewrite H; reflexivity|]. split; [|split].
  - intros H1 H2. rewrite H1, H2. simpl.
    now destruct (toBlob canvas data type quality).
  - intros H1 H2. rewrite H1, H2. simpl.
    destruct (RegExp.exec dataUrlRegExp (toDataURL canvas data type quality))
      as [result|] eqn:E; [|reflexivity].
    destruct (dataUrl_exec_sound _ _ E) as (pre & t & b & -> & Hurl & Hwf).
    exists pre, t, b. split; [reflexivity|]. split; [exact Hurl|].
    split; [exact Hwf|]. simpl.
    destruct (atob canvas b) as [binaryStr|e]; simpl; [|reflexivity].
    unfold newBlob. now rewrite fillFrom_spec.
  - split; [exact dataUrl_exec_complete|].
    split; [discriminate|]. split; [discriminate|]. split; [discriminate|].
    match goal with |- (exists b, ?c = _) \/ _ => destruct c as [b|e] end; eauto.
Qed.

End CanvasClaims.

Lemma canvasEncode_blob_or_throw_witness :
  let edge : Canvas unit :=
    mkCanvas true false (fun _ _ _ => None)
      (fun _ _ _ => "data:image/png;base64,AAEC")
      (fun _ => Return (string_of_list_byte [x00; x01; x02])) in
  canvasEncode edge (mkImageData 1 1 [x00; x00; x00; x00]) "image/png" None
  = Return (mkBlob [x00; x01; x02] "image/png").
Proof.
  intros edge.
  pose proof (proj1 (proj2 (proj2
    (canvasEncode_blob_or_throw unit edge (mkImageData 1 1 [x00; x00; x00; x00])
       "image/png" None))) eq_refl eq_refl) as H.
  cbv in H. destruct H as (pre & outputType & b64 & Heq & _ & _ & H).
  injection Heq as <- <-. exact H.
Defined.

(** C8 as it is written fails: the blob need not be of the requested
    type.  A browser that cannot encode the type answers [toBlob] with
    a PNG; [canvasEncode] returns it, and [canvasEncodeTest] is there to
    find that out. *)
Lemma canvasEncode_other_type :
  let safari : Canvas unit :=
    mkCanvas true true
      (fun _ _ _ => Some (mkBlob [x89; x50; x4e; x47] "image/png"))
      (fun _ _ _ => "") (fun s => Return s) in
  (exists blob,
     canvasEncode safari (mkImageData 1 1 [x00; x00; x00; x00])
       "image/webp" None = Return blob /\
     blob_type blob <> "image/webp") /\
  canvasEncodeTest safari "image/webp" = false.
Proof.
  intros safari. split; [|reflexivity].
  exists (mkBlob [x89; x50; x4e; x47] "image/png"). split; [reflexivity|discriminate].
Qed.

(** * Further properties of the module *)

(** ** The table of magic numbers is unambiguous *)
Section SniffMore.

Local Open Scope string_scope.
Local Arguments String.append : simpl nomatch.

Lemma test_lits l : forall s,
  test (re l) s = true -> exists s', s = lits l ++ s'.
Proof.
  induction l as [|i l IH]; intros s H; [exists s; reflexivity|].
  destruct i as [[c| |cs|cs] [| |] cp|]; try (exists s; reflexivity).
  destruct s as [|x s]; [discriminate|].
  rewrite test_re_one in H. apply andb_true_iff in H as [Hc Ht].
  rewrite cset_mem_Chr in Hc. apply Ascii.eqb_eq in Hc. subst x.
  destruct (IH _ Ht) as (s' & ->). exists s'. reflexivity.
Qed.

Lemma compatible_heads : forall a b s1 s2,
  a ++ s1 = b ++ s2 -> compatible a b = true.
Proof.
  induction a as [|x a IH]; intros b s1 s2 H; [reflexivity|].
  destruct b as [|y b]; [reflexivity|]. simpl in H. injection H as -> H.
  simpl. rewrite Ascii.eqb_refl. simpl. eauto.
Qed.

Lemma heads_apart_table : heads_apart magicNumberMapInput = true.
Proof. vm_compute. reflexivity. Qed.

Lemma table_unambiguous s d1 m1 d2 m2 :
  In (d1, m1) magicNumberMapInput -> In (d2, m2) magicNumberMapInput ->
  test d1 s = true -> test d2 s = true -> m1 = m2.
Proof.
  intros Hin1 Hin2 Ht1 Ht2.
  pose proof table_shape as Hshape. rewrite Forall_forall in Hshape.
  destruct (Hshape _ (proj2 (list_elem_of_In _ _) Hin1)) as [Ha1 _].
  destruct (Hshape _ (proj2 (list_elem_of_In _ _) Hin2)) as [Ha2 _].
  destruct d1 as [a1 l1], d2 as [a2 l2]. simpl in Ha1, Ha2. subst a1 a2.
  destruct (test_lits _ _ Ht1) as (s1 & H1).
  destruct (test_lits _ _ Ht2) as (s2 & H2).
  assert (Hc : compatible (lits l1) (lits l2) = true).
  { eapply compatible_heads. rewrite <- H1. exact H2. }
  pose proof heads_apart_table as Hap. unfold heads_apart in Hap.
  rewrite forallb_forall in Hap. specialize (Hap _ Hin1).
  rewrite forallb_forall in Hap. specialize (Hap _ Hin2).
  simpl in Hap. rewrite Hc in Hap. simpl in Hap.
  now apply String.eqb_eq.
Qed.

Lemma firstDetected_match entries s d m :
  In (d, m) entries -> test d s = true ->
  exists d' m', In (d', m') entries /\ test d' s = true /\
                firstDetected entries s = m'.
Proof.
  induction entries as [|[d0 m0] entries IH]; intros Hin Ht; [contradiction|].
  rewrite firstDetected_cons. destruct (test d0 s) eqn:E.
  - exists d0, m0. split; [now left|auto].
  - destruct Hin as [[= -> ->]|Hin]; [congruence|].
    destruct (IH Hin Ht) as (d' & m' & Hin' & Ht' & Heq).
    exists d', m'. split; [now right|auto].
Qed.

End SniffMore.

Section SniffMoreClaims.

Local Open Scope string_scope.
Local Arguments String.append : simpl nomatch.

(** X1.  A blob is sniffed as a type only when it begins with a text of
    a signature of that type: with C1, a type other than the empty
    string is the answer exactly for the blobs that start with one of
    its signatures. *)
Theorem sniffMimeType_sound (blob : list byte) (m : string) :
  m <> "" ->
  (sniffMimeType blob = m <->
   exists r w rest, In (r, m) magicNumberMapInput /\ Lang r w /\
                    blob = (list_byte_of_string w ++ rest)%list).
Proof.
  intros Hm. split.
  - intros Hs. rewrite sniffMimeType_unfold in Hs.
    destruct (firstDetected_in magicNumberToMimeType
                (string_of_list_byte (take 16 blob))) as [H|(d & Hin & Ht)];
      [congruence|].
    rewrite Hs in Hin.
    pose proof table_shape as Hshape. rewrite Forall_forall in Hshape.
    destruct (Hshape _ (proj2 (list_elem_of_In _ _) Hin)) as [Hanch Hfree].
    destruct d as [anch l]. simpl in Hanch, Hfree. subst anch.
    apply test_anchored_spec in Ht as (w & rest' & Heq & HM).
    exists (RegExp.mk true l), w, (list_byte_of_string rest' ++ drop 16 blob)%list.
    split; [exact Hin|]. split.
    + unfold Lang. simpl. eapply Matches_eol_free; eauto.
    + rewrite app_assoc, <- list_byte_of_string_app, <- Heq.
      rewrite list_byte_of_string_of_list_byte. symmetry. apply take_drop.
  - intros (r & w & rest & Hin & HL & ->). eapply sniff_entry; eauto.
Qed.

Lemma sniffMimeType_sound_witness :
  sniffMimeType [x42; x4d; x36] = "image/bmp" <->
  exists r w rest, In (r, "image/bmp") magicNumberMapInput /\ Lang r w /\
                   [x42; x4d; x36] = (list_byte_of_string w ++ rest)%list.
Proof. apply sniffMimeType_sound. discriminate. Defined.

(** X2.  No text is matched by two entries of different types, so the
    order of the table does not matter: the loop run over any
    rearrangement of the entries gives what [sniffMimeType] gives. *)
Theorem sniffMimeType_any_order (entries : list (RegExp.t * string)) (blob : list byte) :
  Permutation magicNumberToMimeType entries ->
  firstDetected entries (firstChunkString blob) = sniffMimeType blob.
Proof.
  intros Hperm. unfold sniffMimeType.
  set (s := firstChunkString blob).
  assert (Hiff : forall e, In e entries <-> In e magicNumberToMimeType).
  { intros e. split; intros H.
    - eapply Permutation_in; [symmetry; exact Hperm|exact H].
    - eapply Permutation_in; [exact Hperm|exact H]. }
  destruct (existsb (fun e => test e.1 s) magicNumberToMimeType) eqn:Hex.
  - apply existsb_exists in Hex as ([d m] & Hin & Ht). simpl in Ht.
    destruct (firstDetected_match _ s d m Hin Ht) as (d1 & m1 & Hin1 & Ht1 & <-).
    destruct (firstDetected_match entries s d m (proj2 (Hiff _) Hin) Ht)
      as (d2 & m2 & Hin2 & Ht2 & <-).
    apply Hiff in Hin2.
    exact (table_unambiguous s d2 _ d1 _ Hin2 Hin1 Ht2 Ht1).
  - assert (Hnone : forall d m, In (d, m) magicNumberToMimeType -> test d s = false).
    { intros d m Hin. destruct (test d s) eqn:E; [|reflexivity].
      assert (existsb (fun e => test e.1 s) magicNumberToMimeType = true)
        by (apply existsb_exists; exists (d, m); auto).
      congruence. }
    rewrite (firstDetected_none magicNumberToMimeType) by exact Hnone.
    apply firstDetected_none. intros d m Hin. apply (Hnone d m). now apply Hiff.
Qed.

Lemma sniffMimeType_any_order_witness :
  firstDetected (rev magicNumberToMimeType) (firstChunkString [x49; x20; x49])
  = sniffMimeType [x49; x20; x49].
Proof. apply sniffMimeType_any_order. apply Permutation_rev. Defined.

End SniffMoreClaims.

(** ** The race of [abortable]: the first to settle wins *)
Section LeadsFacts.

Context {V : Type}.
Implicit Types (st : state V) (o : outcome V) (j : job V) (q t x y : nat).
Implicit Types (e : event V) (tr : list (event V)).

Lemma leads_append st st' q o :
  pstateOf st' q = pstateOf st q ->
  (exists more, jobs st' = jobs st ++ more) ->
  leads st q o -> leads st' q o.
Proof.
  intros Hs (more & Hj) [H|(Hp & pre & post & Hjobs & Hpre)].
  - left. now rewrite Hs.
  - right. rewrite Hs. split; [exact Hp|].
    exists pre, (post ++ more). split; [|exact Hpre].
    rewrite Hj, Hjobs, <- app_assoc. reflexivity.
Qed.

Lemma leads_settle st q o t o' :
  t <> q -> leads st q o -> leads (settle t o' st) q o.
Proof.
  intros Hne Hl.
  destruct (settle_spec t o' st) as [(_ & Hs & _ & Hj & _)|[_ ->]]; [|exact Hl].
  apply (leads_append st); [|eexists; exact Hj|exact Hl].
  rewrite Hs. now rewrite decide_False by congruence.
Qed.

Lemma leads_then st q o x t :
  leads st q o -> leads (promiseThen x t st) q o.
Proof.
  intros Hl.
  destruct (promiseThen_spec x t st)
    as [(_ & Hs & _ & Hj & _)|[(ox & _ & ->)|[_ ->]]]; [| |exact Hl].
  - apply (leads_append st); [apply Hs|exists []; now rewrite Hj, app_nil_r|exact Hl].
  - apply (leads_append st); [reflexivity|exists [ReactionJob t ox]; reflexivity|exact Hl].
Qed.

Lemma leads_runMicrotask st q o :
  leads st q o -> leads (runMicrotask st) q o.
Proof.
  intros [H|(Hp & pre & post & Hjobs & Hpre)].
  - left. now apply (step_settled Microtask).
  - unfold runMicrotask. rewrite Hjobs.
    destruct pre as [|j pre]; simpl.
    + (* the job of [q] is the next one *)
      left. set (st' := mkState _ _ _).
      destruct (settle_spec q o st') as [(_ & Hs & _)|[Hnp _]].
      * now rewrite Hs, decide_True.
      * exfalso. apply Hnp. exact Hp.
    + set (st' := mkState _ _ _).
      assert (Hl' : leads st' q o).
      { right. split; [exact Hp|]. exists pre, post. split; [reflexivity|].
        intros o' Hin. apply (Hpre o'). now right. }
      destruct j as [t o'|t s]; simpl.
      * apply leads_settle; [|exact Hl'].
        intros ->. apply (Hpre o'). now left.
      * now apply leads_then.
Qed.

Lemma leads_signalAbort st q o :
  q ∉ listeners (signal st) -> leads st q o -> leads (signalAbort st) q o.
Proof.
  intros Hq Hl. unfold signalAbort. destruct (aborted (signal st)); [exact Hl|].
  set (st' := mkState _ _ _).
  assert (Hl' : leads st' q o) by exact Hl.
  clearbody st'. revert st' Hl'.
  induction (listeners (signal st)) as [|l ls IH]; intros st' Hl'; simpl; [exact Hl'|].
  apply IH.
  - intros Hin. apply Hq. now right.
  - apply leads_settle; [|exact Hl']. intros ->. apply Hq. now left.
Qed.

Lemma leads_step e st q o :
  (forall o', e <> Settle q o') -> q ∉ listeners (signal st) ->
  leads st q o -> leads (step e st) q o.
Proof.
  intros He Hq Hl. destruct e as [|t o'| | |x t|t s]; cbn [step].
  - now apply leads_runMicrotask.
  - apply leads_settle; [|exact Hl]. intros ->. now apply (He o').
  - now apply leads_signalAbort.
  - destruct (newPromise_spec st) as (_ & Hs & _ & Hj & _).
    apply (leads_append st); [|exists []; now rewrite Hj, app_nil_r|exact Hl].
    rewrite Hs. case_decide as Hx; [|reflexivity]. subst q.
    destruct Hl as [H|[H _]]; rewrite pstateOf_ge in H by lia; discriminate.
  - now apply leads_then.
  - apply (leads_append st);
      [reflexivity|exists [ResolveThenableJob t s]; reflexivity|exact Hl].
Qed.

Lemma leads_quiescent st q o :
  leads st q o -> jobs st = [] -> pstateOf st q = Some (Settled o).
Proof.
  intros [H|(_ & pre & post & Hjobs & _)] Hnil; [exact H|].
  rewrite Hnil in Hjobs. now destruct pre.
Qed.

(** The first job of the queue that reaches [q]. *)
Lemma first_job_for (l : list (job V)) q o :
  ReactionJob q o ∈ l ->
  exists pre o1 post, l = pre ++ ReactionJob q o1 :: post /\
                      forall o', ReactionJob q o' ∉ pre.
Proof.
  induction l as [|j l IH]; intros Hin; [inversion Hin|].
  assert (Hcase : (exists o1, j = ReactionJob q o1) \/
                  (forall o1, j <> ReactionJob q o1)).
  { destruct j as [t o1|t s]; [|right; discriminate].
    destruct (decide (t = q)) as [->|Hne]; [left; eauto|right; congruence]. }
  destruct Hcase as [[o1 ->]|Hne].
  - exists [], o1, l. split; [reflexivity|]. intros o' H. inversion H.
  - apply elem_of_cons in Hin as [Heq|Hin]; [exfalso; now apply (Hne o)|].
    destruct (IH Hin) as (pre & o1 & post & -> & Hpre).
    exists (j :: pre), o1, post. split; [reflexivity|].
    intros o' [Heq|H]%elem_of_cons; [now apply (Hne o')|now apply (Hpre o')].
Qed.

End LeadsFacts.

Section RaceFacts.

Context {V : Type}.
Implicit Types (st : state V) (o : outcome V) (j : job V) (q t x y : nat).
Implicit Types (e : event V) (tr : list (event V)).

(** The listener promise is subscribed to by the race and its listener
    is on the signal. *)
Lemma started_abort_side promise st :
  promise < length (heap st) ->
  let n0 := length (heap st) in
  follows (started promise st) (S n0) (S (S n0)) /\
  S n0 ∈ listeners (signal (started promise st)).
Proof.
  intros Hp n0. unfold started. fold n0.
  destruct (fresh_three st) as (Hd_s & Hd_r & Hd_l). fold n0 in Hd_s, Hd_r, Hd_l.
  set (st_d := mkState (heap st ++ _) _ _) in *.
  assert (Hd_sig : listeners (signal st_d) = listeners (signal st) ++ [S n0])
    by reflexivity.
  clearbody st_d.
  set (st_e := promiseThen promise (S (S n0)) st_d).
  assert (He_a : pstateOf st_e (S n0) = Some Pending).
  { unfold st_e.
    destruct (promiseThen_spec promise (S (S n0)) st_d)
      as [(_ & Hs & _)|[(oq & _ & ->)|[_ ->]]]; rewrite ?Hs;
      unfold pstateOf at 1; simpl; fold (pstateOf st_d (S n0)).
    all: rewrite Hd_s, decide_False, decide_True by lia; reflexivity. }
  assert (He_sig : signal st_e = signal st_d) by apply signal_promiseThen.
  destruct (promiseThen_spec (S n0) (S (S n0)) st_e)
    as [(_ & Hf_s & Hf_r & _ & Hf_sig & _)|[(oq & Hq & _)|[Hq _]]];
    [|congruence|congruence].
  split.
  - left. unfold pstateOf, reactionsOf. cbn [resolveWithPromise heap].
    fold (pstateOf (promiseThen (S n0) (S (S n0)) st_e) (S n0)).
    fold (reactionsOf (promiseThen (S n0) (S (S n0)) st_e) (S n0)).
    rewrite Hf_s, Hf_r, decide_True by reflexivity. split; [exact He_a|].
    apply elem_of_app. right. now apply list_elem_of_singleton.
  - cbn [resolveWithPromise signal]. rewrite Hf_sig, He_sig, Hd_sig.
    apply elem_of_app. right. now apply list_elem_of_singleton.
Qed.

Lemma listeners_step e st :
  listeners (signal (step e st)) = listeners (signal st).
Proof.
  destruct e as [|t o'| | |x t|t s]; try (now rewrite signal_step).
  cbn [step]. unfold signalAbort. destruct (aborted (signal st)); [reflexivity|].
  set (st' := mkState _ _ _).
  change (listeners (signal st)) with (listeners (signal st')) at 2.
  clearbody st'. revert st'.
  induction (listeners (signal st)) as [|l ls IH]; intros st'; simpl; [reflexivity|].
  now rewrite IH, signal_settle.
Qed.

Lemma listeners_run tr : forall st,
  listeners (signal (run tr st)) = listeners (signal st).
Proof.
  induction tr as [|e tr IH]; intros st; [reflexivity|].
  now rewrite run_cons, IH, listeners_step.
Qed.

(** What [controller.abort()] does to the promises. *)
Lemma abort_fold_settled (ls : list nat) : forall st x o,
  pstateOf st x = Some (Settled o) ->
  pstateOf (foldl (fun s q => settle q (Rejected AbortError) s) st ls) x
  = Some (Settled o).
Proof.
  induction ls as [|l ls IH]; intros st x o H; simpl; [exact H|].
  apply IH. now apply settle_settled.
Qed.

Lemma abort_fold_state (ls : list nat) : forall st x,
  (x ∈ ls -> pstateOf st x = Some Pending ->
   pstateOf (foldl (fun s q => settle q (Rejected AbortError) s) st ls) x
   = Some (Settled (Rejected AbortError))) /\
  (forall o,
     pstateOf (foldl (fun s q => settle q (Rejected AbortError) s) st ls) x
     = Some (Settled o) ->
     pstateOf st x = Some (Settled o) \/
     (pstateOf st x = Some Pending /\ o = Rejected AbortError)).
Proof.
  induction ls as [|l ls IH]; intros st x; simpl.
  - split; [intros H; inversion H|auto].
  - destruct (IH (settle l (Rejected AbortError) st) x) as [IH1 IH2].
    destruct (settle_spec l (Rejected AbortError) st)
      as [(Hp & Hs & _)|[Hnp Heq]].
    + split.
      * intros Hin Hx. destruct (decide (x = l)) as [->|Hne].
        -- apply abort_fold_settled. now rewrite Hs, decide_True.
        -- apply IH1.
           ++ apply elem_of_cons in Hin as [?|?]; [congruence|assumption].
           ++ now rewrite Hs, decide_False.
      * intros o Ho. destruct (IH2 o Ho) as [H|[H ->]].
        -- rewrite Hs in H. case_decide as Hx; [|now left].
           subst x. injection H as <-. right. auto.
        -- rewrite Hs in H. case_decide as Hx; [discriminate|]. right. auto.
    + rewrite Heq in *. split; [|exact IH2].
      intros Hin Hx. apply IH1; [|exact Hx].
      apply elem_of_cons in Hin as [->|?]; [congruence|assumption].
Qed.

Lemma signalAbort_listener st q :
  aborted (signal st) = false -> q ∈ listeners (signal st) ->
  pstateOf st q = Some Pending ->
  pstateOf (signalAbort st) q = Some (Settled (Rejected AbortError)).
Proof.
  intros Hab Hin Hp. unfold signalAbort. rewrite Hab.
  now apply abort_fold_state.
Qed.

Lemma signalAbort_state st x o :
  pstateOf (signalAbort st) x = Some (Settled o) ->
  pstateOf st x = Some (Settled o) \/
  (pstateOf st x = Some Pending /\ o = Rejected AbortError).
Proof.
  unfold signalAbort. destruct (aborted (signal st)); [now left|].
  intros H. now apply abort_fold_state in H.
Qed.

(** The race is led by the one of its two elements that is settled, the
    other having no other outcome to give. *)
Lemma race_leads n0 promise st x o :
  Safe n0 promise st ->
  follows st x (S (S n0)) ->
  pstateOf st x = Some (Settled o) ->
  (forall o1, pstateOf st promise = Some (Settled o1) \/
              pstateOf st (S n0) = Some (Settled o1) -> o1 = o) ->
  leads st (S (S n0)) o.
Proof.
  intros HS Hf Hx Huniq.
  pose proof (safe_length _ _ _ HS) as Hlen.
  destruct (lookup_lt_is_Some_2 (heap st) (S (S n0)) ltac:(lia)) as [[sr rr] Er].
  assert (Hsr : pstateOf st (S (S n0)) = Some sr)
    by (unfold pstateOf; now rewrite Er).
  destruct sr as [|o2].
  - right. split; [exact Hsr|].
    destruct Hf as [[Hpend _]|(o' & Hx' & [Hin|[o3 H3]])]; [congruence| |congruence].
    destruct (first_job_for _ _ _ Hin) as (pre & o1 & post & Hjobs & Hpre).
    assert (Hok : job_ok n0 promise st (ReactionJob (S (S n0)) o1)).
    { apply (safe_jobs _ _ _ HS). rewrite Hjobs. apply elem_of_app. right. now left. }
    simpl in Hok. unfold settle_ok, outside in Hok.
    destruct Hok as [?|[[_ H]|[? _]]]; [lia| |lia].
    rewrite (Huniq o1 H) in Hjobs. exists pre, post. auto.
  - left. rewrite Hsr. f_equal. f_equal. apply Huniq.
    now apply (safe_race _ _ _ HS).
Qed.

Lemma result_of_race n0 promise st o :
  Safe n0 promise st -> adopts st n0 (S (S n0)) -> jobs st = [] ->
  pstateOf st (S (S n0)) = Some (Settled o) ->
  pstateOf st n0 = Some (Settled o).
Proof.
  intros HS Had Hjobs Hr.
  destruct Had as [Hin|[[Hpend _]|(o2 & Hr2 & [Hin|[o3 H3]])]];
    try (rewrite Hjobs in Hin; inversion Hin); [congruence|].
  rewrite H3. f_equal. f_equal.
  apply (safe_result _ _ _ HS) in H3. congruence.
Qed.

Lemma run_leads n0 promise tr o : forall st,
  Forall (admissible n0) tr -> Safe n0 promise st ->
  leads st (S (S n0)) o -> leads (run tr st) (S (S n0)) o.
Proof.
  induction tr as [|e tr IH]; intros st Htr HS Hl; [exact Hl|].
  inversion Htr as [|? ? He Htr']; subst. rewrite run_cons.
  apply IH; [exact Htr'|now apply safe_step|].
  apply leads_step; [| |exact Hl].
  - intros o' ->. simpl in He. unfold outside in He. lia.
  - intros Hin. apply (safe_listeners _ _ _ HS) in Hin.
    unfold outside in Hin. lia.
Qed.

(** From a state reached after the call, with the race led by [o]: once
    the queue is empty the result is settled with [o]. *)
Lemma race_decided promise st tr1 tr2 o :
  wf st -> promise < length (heap st) -> aborted (signal st) = false ->
  Forall (admissible (length (heap st))) tr1 ->
  Forall (admissible (length (heap st))) tr2 ->
  leads (run tr1 (abortable promise st).2) (S (S (length (heap st)))) o ->
  pstateOf (drain (run tr2 (run tr1 (abortable promise st).2)))
           (abortable promise st).1
  = Some (Settled o).
Proof.
  intros Hwf Hp Hab Htr1 Htr2 Hl.
  set (n0 := length (heap st)) in *.
  assert (Hres : (abortable promise st).1 = n0)
    by now rewrite abortable_not_aborted.
  rewrite Hres.
  set (st1 := run tr1 (abortable promise st).2) in *.
  set (micro := replicate (weight (run tr2 st1)) (Microtask (V:=V))).
  assert (Hfin : drain (run tr2 st1)
                 = run (tr1 ++ tr2 ++ micro) (abortable promise st).2).
  { unfold drain. now rewrite !run_app. }
  assert (Hadm : Forall (admissible n0) (tr2 ++ micro)).
  { apply Forall_app. split; [exact Htr2|]. apply microtasks_admissible. }
  destruct (abortable_run_inv promise st tr1 Hwf Hp Hab Htr1) as (HS1 & _ & _).
  fold n0 st1 in HS1.
  destruct (abortable_run_inv promise st (tr1 ++ tr2 ++ micro) Hwf Hp Hab)
    as (HS & _ & Had).
  { apply Forall_app. split; assumption. }
  fold n0 in HS, Had. rewrite <- Hfin in HS, Had.
  apply (result_of_race n0 promise); [exact HS|exact Had|apply drain_jobs|].
  apply leads_quiescent; [|apply drain_jobs].
  rewrite Hfin, run_app. apply (run_leads n0 promise); assumption.
Qed.

(** The verdict without waiting for the queue to empty: the result has
    no other outcome to take, and has taken it once the queue is
    empty. *)
Lemma race_verdict promise st tr1 tr2 o :
  wf st -> promise < length (heap st) -> aborted (signal st) = false ->
  Forall (admissible (length (heap st))) tr1 ->
  Forall (admissible (length (heap st))) tr2 ->
  leads (run tr1 (abortable promise st).2) (S (S (length (heap st)))) o ->
  let st2 := run tr2 (run tr1 (abortable promise st).2) in
  (forall o', pstateOf st2 (length (heap st)) = Some (Settled o') -> o' = o) /\
  (jobs st2 = [] -> pstateOf st2 (length (heap st)) = Some (Settled o)).
Proof.
  intros Hwf Hp Hab Htr1 Htr2 Hl st2.
  set (n0 := length (heap st)) in *.
  destruct (abortable_run_inv promise st tr1 Hwf Hp Hab Htr1) as (HS1 & _ & _).
  fold n0 in HS1.
  destruct (abortable_run_inv promise st (tr1 ++ tr2) Hwf Hp Hab)
    as (HS & _ & Had).
  { apply Forall_app. split; assumption. }
  fold n0 in HS, Had. rewrite run_app in HS, Had. fold st2 in HS, Had.
  assert (Hl2 : leads st2 (S (S n0)) o).
  { unfold st2. apply (run_leads n0 promise); assumption. }
  split.
  - intros o' Hres. apply (safe_result _ _ _ HS) in Hres.
    destruct Hl2 as [H|[H _]]; congruence.
  - intros Hjobs. apply (result_of_race n0 promise); try assumption.
    now apply leads_quiescent.
Qed.

(** The wrapped promise settled with the signal not aborted. *)
Lemma settled_first_leads promise st tr1 o :
  wf st -> promise < length (heap st) -> aborted (signal st) = false ->
  Forall (admissible (length (heap st))) tr1 ->
  let st1 := run tr1 (abortable promise st).2 in
  aborted (signal st1) = false ->
  pstateOf st1 promise = Some (Settled o) ->
  leads st1 (S (S (length (heap st)))) o.
Proof.
  intros Hwf Hp Hab Htr1 st1 Hab1 Hset.
  destruct (abortable_run_inv promise st tr1 Hwf Hp Hab Htr1) as (HS & Hf & _).
  fold st1 in HS, Hf.
  apply (race_leads _ promise st1 promise); try assumption.
  intros o1 [H|H]; [congruence|].
  destruct (safe_abortPromise _ _ _ HS) as [Hpend|[_ Habt]]; congruence.
Qed.

(** The signal aborted with the wrapped promise pending. *)
Lemma aborted_first_leads promise st tr1 :
  wf st -> promise < length (heap st) -> aborted (signal st) = false ->
  Forall (admissible (length (heap st))) tr1 ->
  let st1 := run tr1 (abortable promise st).2 in
  aborted (signal st1) = false ->
  pstateOf st1 promise = Some Pending ->
  leads (step Abort st1) (S (S (length (heap st)))) (Rejected AbortError).
Proof.
  intros Hwf Hp Hab Htr1 st1 Hab1 Hpend.
  set (n0 := length (heap st)) in *.
  destruct (abortable_run_inv promise st tr1 Hwf Hp Hab Htr1) as (HS1 & _ & _).
  fold n0 st1 in HS1.
  pose proof (safe_length _ _ _ HS1) as Hlen1.
  assert (Hstarted : (abortable promise st).2 = started promise st)
    by now rewrite abortable_not_aborted.
  destruct (started_abort_side promise st Hp) as [Hfa Hlis]. fold n0 in Hfa, Hlis.
  assert (Hf1 : follows st1 (S n0) (S (S n0))).
  { unfold st1. rewrite Hstarted. apply run_follows; [lia| |exact Hfa].
    destruct (started_inv promise st Hwf Hp Hab) as (HS0 & _).
    pose proof (safe_length _ _ _ HS0). fold n0 in H. lia. }
  assert (Hlis1 : S n0 ∈ listeners (signal st1)).
  { unfold st1. rewrite listeners_run, Hstarted. exact Hlis. }
  assert (Ha1 : pstateOf st1 (S n0) = Some Pending).
  { destruct (safe_abortPromise _ _ _ HS1) as [?|[_ ?]]; [assumption|congruence]. }
  assert (HS2 : Safe n0 promise (step Abort st1)).
  { apply safe_step; [exact I|exact HS1]. }
  assert (Ha2 : pstateOf (step Abort st1) (S n0)
                = Some (Settled (Rejected AbortError))).
  { now apply signalAbort_listener. }
  apply (race_leads _ promise _ (S n0)); try assumption.
  - apply follows_step; [lia|lia|exact Hf1].
  - intros o1 [H|H]; [|congruence].
    apply signalAbort_state in H as [H|[_ ->]]; [congruence|reflexivity].
Qed.

(** The signal was not aborted at the call if it is not later. *)
Lemma not_aborted_before promise st tr :
  aborted (signal (run tr (abortable promise st).2)) = false ->
  aborted (signal st) = false.
Proof.
  intros Hab1. destruct (aborted (signal st)) eqn:E; [|reflexivity].
  rewrite aborted_run in Hab1; [discriminate|].
  now rewrite abortable_aborted.
Qed.

End RaceFacts.

Section RaceClaims.

Context {V : Type}.
Implicit Types (st : state V) (o : outcome V) (tr : list (event V)).

(** X3.  If the wrapped promise is settled while the signal is not yet
    aborted (before the call or after it), the promise that [abortable]
    returns is settled with its outcome once the microtasks have run,
    whatever happens next: an abort that comes later, even before any
    microtask has run, changes nothing. *)
Theorem abortable_promise_settled_first st (promise : nat) tr1 tr2 o :
  wf st -> promise < length (heap st) ->
  Forall (admissible (length (heap st))) tr1 ->
  Forall (admissible (length (heap st))) tr2 ->
  let result := (abortable promise st).1 in
  let st1 := run tr1 (abortable promise st).2 in
  aborted (signal st1) = false ->
  pstateOf st1 promise = Some (Settled o) ->
  pstateOf (drain (run tr2 st1)) result = Some (Settled o).
Proof.
  intros Hwf Hp Htr1 Htr2 result st1 Hab1 Hset.
  pose proof (not_aborted_before _ _ _ Hab1) as Hab.
  apply race_decided; try assumption.
  now apply settled_first_leads.
Qed.


End RaceClaims.

Lemma abortable_promise_settled_first_witness :
  let st : state nat := mkState [mkPromise Pending []] [] (mkSignal false []) in
  let tr1 := [Settle 0 (Fulfilled 7)] in
  let tr2 := [Abort; Microtask; Create] in
  pstateOf (drain (run tr2 (run tr1 (abortable 0 st).2))) (abortable 0 st).1
  = Some (Settled (Fulfilled 7)).
Proof.
  intros st tr1 tr2.
  apply (abortable_promise_settled_first st 0 tr1 tr2 (Fulfilled 7)).
  - repeat constructor.
  - simpl. lia.
  - repeat (apply Forall_cons; split;
            [first [exact I|simpl; unfold outside; simpl; lia]|]). constructor.
  - repeat (apply Forall_cons; split;
            [first [exact I|simpl; unfold outside; simpl; lia]|]). constructor.
  - reflexivity.
  - reflexivity.
Defined.


(** ** The probe answers what the browser answers *)
Section ProbeMore.

Variable currentSrcSet : string -> bool.
Implicit Types (st : cdstate) (type t : string) (evs : list cd_event).

Local Abbreviation cd_live := (cd_live currentSrcSet).
Local Abbreviation cd_step := (cd_step currentSrcSet).
Local Abbreviation cd_run := (cd_run currentSrcSet).

Lemma cd_live_init : cd_live cd_init.
Proof.
  constructor; simpl.
  - intros j H. inversion H.
  - intros t p H. rewrite lookup_empty in H. discriminate.
  - intros q. unfold reactionsOf. simpl. now destruct q.
  - intros t1 t2 p H. rewrite lookup_empty in H. discriminate.
Qed.

Lemma cd_live_lt st t p :
  cd_live st -> canDecodeCache st !! t = Some p -> p < length (heap (host st)).
Proof.
  intros HL H. destruct (live_cache _ _ HL _ _ H) as [Hs|[Hs _]];
    eapply pstateOf_lt; eauto.
Qed.

Lemma cd_live_call type st : cd_live st -> cd_live (cd_step (Call type) st).
Proof.
  intros HL. rewrite cd_step_Call.
  destruct (canDecodeCache st !! type) as [p'|] eqn:E.
  - now rewrite (canDecode_hit _ _ _ _ E).
  - rewrite (canDecode_miss _ _ _ E). cbn [snd].
    set (n := length (heap (host st))).
    assert (Hfresh : forall t p, canDecodeCache st !! t = Some p -> p <> n).
    { intros t p H. pose proof (cd_live_lt _ _ _ HL H). unfold n. lia. }
    assert (Hstate : forall q, q <> n ->
              pstateOf (mkState (heap (host st) ++ [mkPromise Pending []])
                         (jobs (host st) ++ [ReactionJob n (Fulfilled (currentSrcSet type))])
                         (signal (host st))) q
              = pstateOf (host st) q).
    { intros q Hq. destruct (newPromise_spec (host st)) as (_ & Hs & _).
      specialize (Hs q). unfold pstateOf in *. simpl in *.
      rewrite Hs. now rewrite decide_False. }
    constructor; cbn [host canDecodeCache].
    + intros j [Hin|Hin]%elem_of_app.
      * destruct (live_jobs _ _ HL _ Hin) as (t & p & -> & Hc).
        exists t, p. split; [reflexivity|].
        rewrite lookup_insert_ne; [exact Hc|]. intros ->. congruence.
      * apply list_elem_of_singleton in Hin as ->.
        exists type, n. split; [reflexivity|apply lookup_insert_eq].
    + intros t p. destruct (decide (type = t)) as [->|Hne].
      * rewrite lookup_insert_eq. intros [= <-]. right. split.
        -- unfold pstateOf. cbn [heap].
           now rewrite lookup_app_r, Nat.sub_diag by lia.
        -- cbn [jobs]. apply elem_of_app. right. now apply list_elem_of_singleton.
      * rewrite lookup_insert_ne by assumption. intros Hc.
        rewrite Hstate by (eapply Hfresh; eauto).
        destruct (live_cache _ _ HL _ _ Hc) as [?|[? Hin]]; [now left|right].
        split; [assumption|]. cbn [jobs]. apply elem_of_app. now left.
    + intros q. destruct (newPromise_spec (host st)) as (_ & _ & Hr & _).
      specialize (Hr q). unfold reactionsOf in *. simpl in *.
      rewrite Hr. apply (live_reactions _ _ HL).
    + intros t1 t2 p.
      destruct (decide (type = t1)) as [<-|Hne1];
        destruct (decide (type = t2)) as [<-|Hne2];
        rewrite ?lookup_insert_eq, ?lookup_insert_ne by assumption.
      * reflexivity.
      * intros [= <-] H. exfalso. eapply Hfresh; eauto.
      * intros H [= <-]. exfalso. eapply Hfresh; eauto.
      * apply (live_inj _ _ HL).
Qed.

Lemma cd_live_tick st :
  cd_live st ->
  cd_live (cd_step Tick st) /\
  length (jobs (host (cd_step Tick st))) = pred (length (jobs (host st))).
Proof.
  intros HL. rewrite cd_step_Tick. cbn [host].
  unfold runMicrotask. destruct (jobs (host st)) as [|j js] eqn:Hjobs.
  { split; [|now rewrite Hjobs].
    destruct HL as [H1 H2 H3 H4]. constructor; auto. }
  destruct (live_jobs _ _ HL j) as (t & p & -> & Hc);
    [rewrite Hjobs; now left|].
  cbn [runJob]. set (h := mkState (heap (host st)) js (signal (host st))).
  assert (Hreact : forall q, reactionsOf h q = [])
    by (intros q; apply (live_reactions _ _ HL q)).
  destruct (settle_spec p (Fulfilled (currentSrcSet t)) h)
    as [(Hp & Hs & Hr & Hj & _)|[Hnp Heq]].
  - rewrite Hreact in Hj. simpl in Hj. rewrite app_nil_r in Hj.
    split; [|now rewrite Hj].
    constructor; cbn [host canDecodeCache].
    + intros j. rewrite Hj. intros Hin. apply (live_jobs _ _ HL).
      rewrite Hjobs. now right.
    + intros t' p' Hc'. rewrite Hs, Hj. case_decide as Hq.
      * subst p'. left. now rewrite (live_inj _ _ HL _ _ _ Hc' Hc).
      * destruct (live_cache _ _ HL _ _ Hc') as [?|[? Hin]]; [now left|right].
        split; [assumption|]. rewrite Hjobs in Hin.
        apply elem_of_cons in Hin as [[= ? _]|?]; [congruence|assumption].
    + intros q. rewrite Hr. case_decide; [reflexivity|apply Hreact].
    + apply (live_inj _ _ HL).
  - rewrite Heq. split; [|reflexivity].
    constructor; cbn [host canDecodeCache].
    + intros j Hin. apply (live_jobs _ _ HL). rewrite Hjobs. now right.
    + intros t' p' Hc'.
      destruct (live_cache _ _ HL _ _ Hc') as [?|[Hpend Hin]]; [now left|right].
      split; [assumption|]. rewrite Hjobs in Hin.
      apply elem_of_cons in Hin as [[= -> _]|?]; [|assumption].
      exfalso. apply Hnp. exact Hpend.
    + exact Hreact.
    + apply (live_inj _ _ HL).
Qed.

Lemma cd_live_step e st : cd_live st -> cd_live (cd_step e st).
Proof.
  intros HL. destruct e as [type|]; [now apply cd_live_call|now apply cd_live_tick].
Qed.

Lemma cd_live_run evs : forall st, cd_live st -> cd_live (cd_run evs st).
Proof.
  induction evs as [|e evs IH]; intros st H; [exact H|].
  rewrite cd_run_cons. apply IH. now apply cd_live_step.
Qed.

Lemma cd_ticks_drain n : forall st,
  cd_live st -> length (jobs (host st)) <= n ->
  jobs (host (cd_run (replicate n Tick) st)) = [].
Proof.
  induction n as [|n IH]; intros st HL Hn.
  - simpl. destruct (jobs (host st)); [reflexivity|simpl in Hn; lia].
  - change (replicate (S n) Tick) with (Tick :: replicate n Tick).
    rewrite cd_run_cons. destruct (cd_live_tick st HL) as [HL' Hlen].
    apply IH; [exact HL'|]. rewrite Hlen. lia.
Qed.

End ProbeMore.

(** X5.  The promise that [canDecodeImageType] keeps for a label is
    never rejected and never fulfilled with anything but the browser's
    answer for that label: it is pending or fulfilled with it, and
    fulfilled with it once the microtasks that are queued have run; no
    other label shares the promise. *)
Theorem canDecodeImageType_answer
    (currentSrcSet : string -> bool) (evs : list cd_event) (type : string) (p : nat) :
  let st := cd_run currentSrcSet evs cd_init in
  canDecodeCache st !! type = Some p ->
  (pstateOf (host st) p = Some Pending \/
   pstateOf (host st) p = Some (Settled (Fulfilled (currentSrcSet type)))) /\
  pstateOf (host (cd_run currentSrcSet
                    (replicate (length (jobs (host st))) Tick) st)) p
  = Some (Settled (Fulfilled (currentSrcSet type))) /\
  (forall type', canDecodeCache st !! type' = Some p -> type' = type).
Proof.
  intros st Hc.
  pose proof (cd_live_run currentSrcSet evs cd_init (cd_live_init currentSrcSet)) as HL.
  fold st in HL. split; [|split].
  - destruct (live_cache _ _ HL _ _ Hc) as [?|[? _]]; auto.
  - set (ticks := replicate _ Tick).
    pose proof (cd_live_run currentSrcSet ticks st HL) as HL'.
    pose proof (cd_ticks_drain currentSrcSet _ st HL (le_n _)) as Hnil.
    fold ticks in Hnil.
    pose proof (cd_run_cache currentSrcSet ticks st _ _ Hc) as Hc'.
    destruct (live_cache _ _ HL' _ _ Hc') as [?|[_ Hin]]; [assumption|].
    rewrite Hnil in Hin. inversion Hin.
  - intros type' Hc'. apply (live_inj _ _ HL _ _ _ Hc' Hc).
Qed.

Lemma canDecodeImageType_answer_witness :
  let currentSrcSet := fun type : string => String.eqb type "image/webp" in
  let st := cd_run currentSrcSet
              [Call "image/webp"; Call "image/avif"; Tick; Call "image/webp"]
              cd_init in
  (pstateOf (host st) 1 = Some Pending \/
   pstateOf (host st) 1 = Some (Settled (Fulfilled false))) /\
  pstateOf (host (cd_run currentSrcSet
                    (replicate (length (jobs (host st))) Tick) st)) 1
  = Some (Settled (Fulfilled false)) /\
  (forall type', canDecodeCache st !! type' = Some 1 -> type' = "image/avif").
Proof.
  intros currentSrcSet st.
  apply (canDecodeImageType_answer currentSrcSet
           [Call "image/webp"; Call "image/avif"; Tick; Call "image/webp"]
           "image/avif" 1).
  reflexivity.
Defined.

(** ** shallowEqual: when it tells the truth *)
Section ShallowFacts.

Context {number : Type} `{EqDecision number}.
Variable objectPrototype : gmap string (jsval number).
Implicit Types (one two o : gmap string (jsval number)) (i k : string).
Implicit Types (v w : jsval number).

Local Abbreviation get := (getProp objectPrototype).
Local Abbreviation has := (hasProp objectPrototype).
Local Abbreviation equal := (shallowEqual objectPrototype).

Lemma strictEq_true v w : strictEq v w = true <-> v = w /\ v <> NaN.
Proof.
  unfold strictEq. split.
  - destruct v, w; try discriminate; intros Hb%bool_decide_eq_true;
      (split; [exact Hb|discriminate]).
  - intros [-> Hn]. destruct w; try (now apply bool_decide_eq_true); congruence.
Qed.

Lemma elem_of_forInKeys o i : i ∈ forInKeys o <-> is_Some (o !! i).
Proof.
  unfold forInKeys. rewrite list_elem_of_fmap. split.
  - intros ([k v] & -> & Hin). apply elem_of_map_to_list in Hin. simpl. eauto.
  - intros [v Hv]. exists (i, v). split; [reflexivity|].
    now apply elem_of_map_to_list.
Qed.

Lemma getProp_own o i v : o !! i = Some v -> get o i = v.
Proof. intros H. unfold getProp. now rewrite H. Qed.

Lemma shallowEqual_true one two :
  equal one two = true <->
  (forall i v, one !! i = Some v -> strictEq v (get two i) = true) /\
  (forall i, is_Some (two !! i) -> has one i = true).
Proof.
  unfold shallowEqual.
  destruct (existsb _ (forInKeys one)) eqn:E1.
  - split; [discriminate|]. intros [H1 _]. exfalso.
    apply existsb_exists in E1 as (i & Hin & Hneg).
    apply list_elem_of_In, elem_of_forInKeys in Hin as [v Hv].
    rewrite (getProp_own _ _ _ Hv), (H1 i v Hv) in Hneg. discriminate.
  - assert (H1 : forall i v, one !! i = Some v ->
                             strictEq v (get two i) = true).
    { intros i v Hv. destruct (strictEq v (get two i)) eqn:Es; [reflexivity|].
      assert (Hex : existsb (fun i => negb (strictEq (get one i) (get two i)))
                      (forInKeys one) = true).
      { apply existsb_exists. exists i. split.
        - apply list_elem_of_In, elem_of_forInKeys. eauto.
        - now rewrite (getProp_own _ _ _ Hv), Es. }
      congruence. }
    destruct (existsb _ (forInKeys two)) eqn:E2.
    + split; [discriminate|]. intros [_ H2]. exfalso.
      apply existsb_exists in E2 as (i & Hin & Hneg).
      apply list_elem_of_In, elem_of_forInKeys in Hin.
      rewrite (H2 i Hin) in Hneg. discriminate.
    + split; [|reflexivity]. intros _. split; [exact H1|].
      intros i Hi. destruct (has one i) eqn:Eh; [reflexivity|].
      assert (Hex : existsb (fun i => negb (has one i)) (forInKeys two) = true).
      { apply existsb_exists. exists i. split.
        - now apply list_elem_of_In, elem_of_forInKeys.
        - now rewrite Eh. }
      congruence.
Qed.

Lemma hasProp_true o i :
  has o i = true <-> is_Some (o !! i) \/ is_Some (objectPrototype !! i).
Proof.
  unfold hasProp. rewrite orb_true_iff, !bool_decide_eq_true. reflexivity.
Qed.

(** X6.  For objects whose property names are not names of the
    prototype, the first holding neither [undefined] nor NaN,
    [shallowEqual] is true exactly when the two objects have the same
    properties with the same values. *)
Theorem shallowEqual_same one two :
  (forall i v, one !! i = Some v -> v <> NaN /\ v <> Undefined) ->
  (forall i, is_Some (one !! i) \/ is_Some (two !! i) ->
             objectPrototype !! i = None) ->
  (shallowEqual objectPrototype one two = true <-> one = two).
Proof.
  intros Hvals Hnames. rewrite shallowEqual_true. split.
  - intros [H1 H2]. apply map_eq. intros i.
    destruct (one !! i) as [v|] eqn:Ev.
    + specialize (H1 i v Ev). apply strictEq_true in H1 as [Heq _].
      destruct (Hvals i v Ev) as [_ Hu].
      unfold getProp in Heq.
      destruct (two !! i) as [w|] eqn:Ew; [congruence|].
      rewrite (Hnames i) in Heq by (left; rewrite Ev; eauto).
      simpl in Heq. congruence.
    + destruct (two !! i) as [w|] eqn:Ew; [|reflexivity].
      assert (Hi : is_Some (two !! i)) by (rewrite Ew; eauto).
      apply H2, hasProp_true in Hi as [[? ?]|[? Hp]]; [congruence|].
      rewrite (Hnames i) in Hp by (right; rewrite Ew; eauto). discriminate.
  - intros <-. split.
    + intros i v Ev. apply strictEq_true.
      rewrite (getProp_own _ _ _ Ev). split; [reflexivity|apply (Hvals i v Ev)].
    + intros i Hi. apply hasProp_true. now left.
Qed.

(** X7.  A property that holds [undefined] is seen from one side only:
    an object with such a property more than another compares equal to
    the other as the first argument, and different as the second. *)
Theorem shallowEqual_undefined_property one i :
  one !! i = None -> objectPrototype !! i = None ->
  (forall k v, one !! k = Some v -> v <> NaN) ->
  shallowEqual objectPrototype (<[i := Undefined]> one) one = true /\
  shallowEqual objectPrototype one (<[i := Undefined]> one) = false.
Proof.
  intros Hi Hp Hnan. split.
  - apply shallowEqual_true. split.
    + intros k v. destruct (decide (i = k)) as [<-|Hne].
      * rewrite lookup_insert_eq. intros [= <-]. apply strictEq_true.
        unfold getProp. rewrite Hi, Hp. split; [reflexivity|discriminate].
      * rewrite lookup_insert_ne by assumption. intros Hk.
        apply strictEq_true. rewrite (getProp_own _ _ _ Hk).
        split; [reflexivity|eauto].
    + intros k Hk. apply hasProp_true. left.
      destruct (decide (i = k)) as [<-|Hne];
        [rewrite lookup_insert_eq; eauto|now rewrite lookup_insert_ne].
  - destruct (equal one (<[i:=Undefined]> one)) eqn:E; [|reflexivity].
    apply shallowEqual_true in E as [_ H2].
    assert (Hin : is_Some (<[i:=Undefined]> one !! i))
      by (rewrite lookup_insert_eq; eauto).
    apply H2, hasProp_true in Hin as [[? ?]|[? ?]]; congruence.
Qed.

(** X8.  An object compares equal to itself exactly when none of its
    properties holds NaN. *)
Theorem shallowEqual_self one :
  shallowEqual objectPrototype one one = true <-> forall i, one !! i <> Some NaN.
Proof.
  rewrite shallowEqual_true. split.
  - intros [H1 _] i Hi. specialize (H1 i NaN Hi).
    apply strictEq_true in H1 as [_ ?]. congruence.
  - intros Hnan. split.
    + intros i v Hv. apply strictEq_true. rewrite (getProp_own _ _ _ Hv).
      split; [reflexivity|]. intros ->. now apply (Hnan i).
    + intros i Hi. apply hasProp_true. now left.
Qed.

(** X9.  A property of the second object whose name is a name of the
    prototype goes unnoticed: the first object compares equal to itself
    with such a property added, whatever the value. *)
Theorem shallowEqual_inherited_name one i v w :
  one !! i = None -> objectPrototype !! i = Some w ->
  (forall k u, one !! k = Some u -> u <> NaN) ->
  shallowEqual objectPrototype one (<[i := v]> one) = true.
Proof.
  intros Hi Hp Hnan. apply shallowEqual_true. split.
  - intros k u Hk. apply strictEq_true.
    assert (Hne : i <> k) by (intros ->; congruence).
    unfold getProp. rewrite lookup_insert_ne, Hk by assumption.
    split; [reflexivity|eauto].
  - intros k Hk. apply hasProp_true.
    destruct (decide (i = k)) as [<-|Hne]; [right; rewrite Hp; eauto|].
    left. now rewrite lookup_insert_ne in Hk.
Qed.

End ShallowFacts.

Lemma shallowEqual_same_witness :
  let one : gmap string (jsval Z) := {["quality" := Number 75%Z]} in
  let two : gmap string (jsval Z) := {["quality" := Number 80%Z]} in
  shallowEqual ∅ one two = true <-> one = two.
Proof.
  intros one two. apply shallowEqual_same.
  - intros i v. unfold one. intros [_ <-]%lookup_singleton_Some.
    split; discriminate.
  - intros i _. apply lookup_empty.
Defined.

Lemma shallowEqual_undefined_property_witness :
  let one : gmap string (jsval Z) := {["quality" := Number 75%Z]} in
  shallowEqual ∅ (<["method" := Undefined]> one) one = true /\
  shallowEqual ∅ one (<["method" := Undefined]> one) = false.
Proof.
  intros one. apply shallowEqual_undefined_property.
  - apply lookup_singleton_ne. discriminate.
  - apply lookup_empty.
  - intros k v. unfold one. intros [_ <-]%lookup_singleton_Some. discriminate.
Defined.

Lemma shallowEqual_inherited_name_witness :
  let objectPrototype : gmap string (jsval Z) := {["toString" := Ref 0]} in
  let one : gmap string (jsval Z) := {["quality" := Number 75%Z]} in
  shallowEqual objectPrototype one (<["toString" := Str "x"]> one) = true.
Proof.
  intros objectPrototype one.
  apply (shallowEqual_inherited_name objectPrototype one "toString" (Str "x") (Ref 0)).
  - apply lookup_singleton_ne. discriminate.
  - apply lookup_singleton_eq.
  - intros k v. unfold one. intros [_ <-]%lookup_singleton_Some. discriminate.
Defined.

(** ** konami: the digits, not the keys *)
Section KonamiFacts.

Local Arguments String.append : simpl nomatch.

Lemma las_append (a b : string) :
  list_ascii_of_string (a +:+ b) = list_ascii_of_string a ++ list_ascii_of_string b.
Proof. induction a as [|c a IH]; simpl; [reflexivity|]. now rewrite IH. Qed.

Lemma las_length (s : string) : length (list_ascii_of_string s) = String.length s.
Proof. induction s as [|c s IH]; simpl; [reflexivity|]. now rewrite IH. Qed.

Lemma las_dropString n : forall s,
  list_ascii_of_string (dropString n s) = drop n (list_ascii_of_string s).
Proof.
  induction n as [|n IH]; intros s; [reflexivity|].
  destruct s as [|c s]; [reflexivity|]. simpl. apply IH.
Qed.

Lemma las_inj (a b : string) :
  list_ascii_of_string a = list_ascii_of_string b -> a = b.
Proof.
  intros H. rewrite <- (string_of_list_ascii_of_string a),
                    <- (string_of_list_ascii_of_string b). now rewrite H.
Qed.

(** The last twenty characters. *)
Lemma las_slice20 (s : string) :
  list_ascii_of_string (stringSlice (-20) s)
  = drop (String.length s - 20) (list_ascii_of_string s).
Proof.
  unfold stringSlice. change (-20 <? 0)%Z with true. cbv iota.
  rewrite las_dropString. f_equal. lia.
Qed.

Lemma slice20_slice20_append (a b : string) :
  stringSlice (-20) (stringSlice (-20) a +:+ b) = stringSlice (-20) (a +:+ b).
Proof.
  apply las_inj. rewrite !las_slice20, !las_append, las_slice20.
  assert (Hl : forall s, String.length s = length (list_ascii_of_string s))
    by (intros; now rewrite las_length).
  rewrite !Hl, !las_append, las_slice20, !length_app, length_drop, <- !Hl.
  set (la := String.length a). set (lb := String.length b).
  generalize (list_ascii_of_string a) (list_ascii_of_string b) (Hl a) (Hl b).
  fold la lb. intros A B HA HB.
  rewrite !drop_app, drop_drop, length_drop, <- HA.
  f_equal; f_equal; lia.
Qed.

Lemma slice20_is_pattern (s : string) :
  stringSlice (-20) s = expectedPattern <->
  exists pre, s = pre +:+ expectedPattern.
Proof.
  split.
  - intros H. apply (f_equal list_ascii_of_string) in H.
    rewrite las_slice20 in H.
    exists (string_of_list_ascii
              (take (String.length s - 20) (list_ascii_of_string s))).
    apply las_inj. rewrite las_append, list_ascii_of_string_of_list_ascii, <- H.
    symmetry. apply take_drop.
  - intros (pre & ->). apply las_inj. rewrite las_slice20, las_append.
    replace (String.length (pre +:+ expectedPattern) - 20)
      with (length (list_ascii_of_string pre)).
    + now rewrite drop_app_length.
    + rewrite las_length. rewrite <- (las_length (pre +:+ _)), las_append, length_app.
      rewrite las_length. simpl. lia.
Qed.

Lemma typed_app (a b : list N) : typed (a ++ b) = typed a +:+ typed b.
Proof.
  unfold typed. induction a as [|x a IH]; [reflexivity|].
  simpl map. destruct a as [|y a].
  - simpl. destruct b as [|z b]; simpl.
    + clear. induction (numberToString x) as [|c s IH]; simpl; [reflexivity|].
      now rewrite <- IH.
    + reflexivity.
  - change (String.concat "" (numberToString x :: map numberToString ((y :: a) ++ b)))
      with (numberToString x +:+ "" +:+
            String.concat "" (map numberToString ((y :: a) ++ b))).
    rewrite IH.
    change (String.concat "" (numberToString x :: map numberToString (y :: a)))
      with (numberToString x +:+ "" +:+
            String.concat "" (map numberToString (y :: a))).
    generalize (String.concat "" (map numberToString (y :: a))).
    intros s. simpl. clear.
    induction (numberToString x) as [|c u IH]; simpl; [reflexivity|].
    now rewrite IH.
Qed.

Lemma konami_snoc (keys : list N) (k : N) :
  konami (keys ++ [k]) = keydown k (konami keys).
Proof. unfold konami. now rewrite foldl_app. Qed.

Lemma konami_resolved_stays (keys more : list N) :
  resolved (konami keys) = true -> resolved (konami (keys ++ more)) = true.
Proof.
  unfold konami. rewrite foldl_app.
  generalize (foldl (fun st keyCode => keydown keyCode st) (mkKonami "" false) keys). induction more as [|k more IH]; intros st H; [exact H|].
  simpl. apply IH. unfold keydown. now rewrite H.
Qed.

(** While the promise is not resolved, the closure holds the last
    twenty digits typed. *)
Lemma konami_rolling (keys : list N) :
  resolved (konami keys) = false ->
  rollingPattern (konami keys) = stringSlice (-20) (typed keys).
Proof.
  induction keys as [|k keys IH] using rev_ind; intros H; [reflexivity|].
  rewrite konami_snoc in *. unfold keydown in *.
  destruct (resolved (konami keys)) eqn:E; [congruence|].
  unfold konamiListener. cbn [rollingPattern].
  change (- Z.of_nat (String.length expectedPattern))%Z with (-20)%Z.
  rewrite IH by reflexivity. rewrite slice20_slice20_append, typed_app.
  reflexivity.
Qed.

Lemma konami_step_resolved (keys : list N) (k : N) :
  resolved (konami keys) = false ->
  (resolved (konami (keys ++ [k])) = true <->
   exists pre, typed (keys ++ [k]) = pre +:+ expectedPattern).
Proof.
  intros H. rewrite konami_snoc. unfold keydown. rewrite H.
  unfold konamiListener. cbn [resolved].
  change (- Z.of_nat (String.length expectedPattern))%Z with (-20)%Z.
  rewrite (konami_rolling keys H), slice20_slice20_append, String.eqb_eq.
  rewrite slice20_is_pattern, typed_app. reflexivity.
Qed.

End KonamiFacts.

Section KonamiClaims.

Local Arguments String.append : simpl nomatch.

Lemma typed_nil_no_pattern pre : typed [] <> pre +:+ expectedPattern.
Proof.
  intros H. apply (f_equal String.length) in H. rewrite length_append in H.
  simpl in H. lia.
Qed.

Lemma konami_resolved_iff (keys : list N) :
  resolved (konami keys) = true <->
  exists keys1 keys2 pre,
    keys = keys1 ++ keys2 /\ typed keys1 = pre +:+ expectedPattern.
Proof.
  induction keys as [|k keys IH] using rev_ind.
  - split; [discriminate|].
    intros (keys1 & keys2 & pre & Heq & Ht). symmetry in Heq.
    apply app_eq_nil in Heq as [-> _]. now apply typed_nil_no_pattern in Ht.
  - split.
    + intros H. destruct (resolved (konami keys)) eqn:E.
      * destruct (proj1 IH eq_refl) as (keys1 & keys2 & pre & -> & Ht).
        exists keys1, (keys2 ++ [k]), pre. now rewrite app_assoc.
      * apply (konami_step_resolved keys k E) in H as (pre & Ht).
        exists (keys ++ [k]), [], pre. now rewrite app_nil_r.
    + intros (keys1 & keys2 & pre & Heq & Ht).
      destruct keys2 as [|k2 keys2] using rev_ind.
      * rewrite app_nil_r in Heq. subst keys1.
        destruct (resolved (konami keys)) eqn:E.
        -- now apply konami_resolved_stays.
        -- apply (konami_step_resolved keys k E). eauto.
      * clear IHkeys2. rewrite app_assoc in Heq.
        apply app_inj_tail in Heq as [-> _].
        apply konami_resolved_stays. apply IH. eauto.
Qed.

(** X10.  The promise of [konami] is resolved exactly when, at some
    key, the decimal digits of the key codes pressed so far, written one
    after the other, end with "38384040373937396665". *)
Theorem konami_resolved_when (keys : list N) :
  resolved (konami keys) = true <->
  exists keys1 keys2 pre,
    keys = keys1 ++ keys2 /\ typed keys1 = pre +:+ expectedPattern.
Proof. apply konami_resolved_iff. Qed.

(** X11.  Pressing up, up, down, down, left, right, left, right, B, A
    resolves the promise, whatever was pressed before and whatever is
    pressed after. *)
Theorem konami_code_resolves (before after : list N) :
  resolved (konami (before ++ konamiCode ++ after)) = true.
Proof.
  apply konami_resolved_iff.
  exists (before ++ konamiCode), after, (typed before).
  split; [now rewrite app_assoc|]. now rewrite typed_app.
Qed.

(** X12.  The promise can be resolved without the code being pressed:
    the digits of other keys can run together to the same text, as those
    of the keys 3, 83, 8 do to "3838". *)
Theorem konami_other_keys :
  ~ (forall keys : list N,
       resolved (konami keys) = true ->
       exists before after, keys = before ++ konamiCode ++ after).
Proof.
  intros H.
  destruct (H [3; 83; 8; 40; 40; 37; 39; 37; 39; 66; 65]%N eq_refl)
    as (before & after & Heq).
  destruct before as [|b1 [|b2 before]].
  - discriminate Heq.
  - discriminate Heq.
  - apply (f_equal length) in Heq. rewrite !length_cons, !length_app in Heq.
    simpl in Heq. lia.
Qed.

End KonamiClaims.

(** ** blobToImg gives its object URL back *)
Section BlobToImgFacts.

Variable Image : Type.
Variable loading : nat -> ImageLoading Image.

Lemma decodeImage_cases (l : ImageLoading Image) :
  decodeImage l = Never \/
  decodeImage l = Settles (Return (img l)) /\ load l = Some true \/
  decodeImage l = Settles (Throw (Error "Image loading error")) /\
    load l = Some false.
Proof.
  unfold decodeImage, loaded.
  destruct (hasDecode l); [destruct (decode l) as [[[]|e]|]; simpl|];
    destruct (load l) as [[|]|]; auto.
Qed.

(** X13.  When [blobToImg] settles, the object URL it made is revoked
    and the live object URLs are those of before the call; it returns
    the image when the image loads and throws "Image loading error" when
    loading fails, a rejection of [img.decode()] never being the
    failure.  While it has not settled the URL stays alive. *)
Theorem blobToImg_revokes (blob : Blob) (urls : gmap nat Blob) :
  let url := fresh (dom urls) in
  match (blobToImg loading blob urls).1 with
  | Settles c =>
      (blobToImg loading blob urls).2 = urls /\
      (c = Return (img (loading url)) /\ load (loading url) = Some true \/
       c = Throw (Error "Image loading error") /\
         load (loading url) = Some false)
  | Never =>
      (blobToImg loading blob urls).2 = <[url := blob]> urls /\
      urls !! url = None
  end.
Proof.
  intros url. unfold blobToImg, createObjectURL. fold url.
  assert (Hfresh : urls !! url = None).
  { apply not_elem_of_dom. apply is_fresh. }
  destruct (decodeImage_cases (loading url)) as [H|[[H Hl]|[H Hl]]];
    rewrite H; cbn [fst snd].
  - auto.
  - split; [|auto]. unfold revokeObjectURL.
    rewrite delete_insert_eq. now apply delete_id.
  - split; [|auto]. unfold revokeObjectURL.
    rewrite delete_insert_eq. now apply delete_id.
Qed.

End BlobToImgFacts.

(** ** transitionHeight waits for the element's own transition *)
Section TransitionFacts.

Context {number : Type}.
Variable numberEq : number -> number -> bool.
Variable numberString : number -> string.
Variable zero thousand : number.

Lemma dispatchAll_finished (el : nat) (events : list Event) (st : elState) :
  finished st = true -> onTransitionend st = false ->
  onTransitioncancel st = false ->
  dispatchAll el events st = st.
Proof.
  intros Hf He Hc. induction events as [|ev events IH]; [reflexivity|].
  simpl. unfold dispatch. destruct (type ev); rewrite ?He, ?Hc; exact IH.
Qed.

Lemma dispatchAll_waiting (el : nat) (events : list Event) (st : elState) :
  onTransitionend st = true -> onTransitioncancel st = true ->
  finished st = false ->
  dispatchAll el events st =
    if existsb (fun ev => Nat.eqb (target ev) el) events
    then mkElState (styleHeight st) "" false false true
    else st.
Proof.
  intros He Hc Hf. revert st He Hc Hf.
  induction events as [|ev events IH]; intros st He Hc Hf; [reflexivity|].
  simpl. unfold dispatch at 1. unfold listener.
  replace (match type ev with transitionend => onTransitionend st
           | transitioncancel => onTransitioncancel st end) with true
    by (destruct (type ev); congruence).
  destruct (Nat.eqb (target ev) el); simpl.
  - now apply dispatchAll_finished.
  - now apply IH.
Qed.

(** X14.  A transition that has to run (the two heights differ and the
    duration is not 0) is over exactly when one of the events that
    reached the element had the element itself as target: events of
    the elements below it are ignored.  When it is over the listener is
    registered for neither event and the inline transition is cleared;
    until then both are in place.  The inline height is the target
    height throughout. *)
Theorem transitionHeight_own_event (el : nat) (clientHeight : number)
    (opts : TransitionOptions number) (st : elState) (events : list Event) :
  let from' := default clientHeight (from opts) in
  let to' := default clientHeight (to opts) in
  let duration' := default thousand (duration opts) in
  let st' := dispatchAll el events
    (transitionHeight numberEq numberString zero thousand el clientHeight opts st) in
  numberEq from' to' = false -> numberEq duration' zero = false ->
  styleHeight st' = numberString to' +:+ "px" /\
  (finished st' = true <-> exists ev, In ev events /\ target ev = el) /\
  (finished st' = true ->
     styleTransition st' = "" /\
     onTransitionend st' = false /\ onTransitioncancel st' = false) /\
  (finished st' = false ->
     styleTransition st' =
       "height " +:+ numberString duration' +:+ "ms " +:+
       default "ease-in-out" (easing opts) /\
     onTransitionend st' = true /\ onTransitioncancel st' = true).
Proof.
  intros from' to' duration' st' Hft Hd. subst st'.
  unfold transitionHeight. fold from' to' duration'. rewrite Hft, Hd.
  cbn [orb]. rewrite dispatchAll_waiting by reflexivity.
  destruct (existsb _ events) eqn:Hex; cbn.
  - apply existsb_exists in Hex as (ev & Hin & Heq).
    apply Nat.eqb_eq in Heq. repeat split; eauto; discriminate.
  - repeat split; try discriminate.
    intros (ev & Hin & Heq). 
    assert (existsb (fun ev => Nat.eqb (target ev) el) events = true).
    { apply existsb_exists. exists ev. split; [exact Hin|]. now apply Nat.eqb_eq. }
    congruence.
Qed.

End TransitionFacts.

(** A transition from 100 to 40, with an event of a child and then the
    element's own. *)
Lemma transitionHeight_own_event_witness :
  let st := dispatchAll 0%nat [mkEvent transitionend 1%nat; mkEvent transitioncancel 0%nat]
    (transitionHeight Z.eqb (fun _ => "n") 0%Z 1000%Z 0%nat 100%Z
       (mkTransitionOptions None (Some 40%Z) None None)
       (mkElState "" "" false false false)) in
  styleHeight st = "npx" /\ finished st = true.
Proof.
  pose proof (transitionHeight_own_event Z.eqb (fun _ => "n") 0%Z 1000%Z 0%nat 100%Z
    (mkTransitionOptions None (Some 40%Z) None None)
    (mkElState "" "" false false false)
    [mkEvent transitionend 1%nat; mkEvent transitioncancel 0%nat]
    eq_refl eq_refl) as (Hh & Hf & _).
  split; [exact Hh|]. apply Hf.
  exists (mkEvent transitioncancel 0%nat). split; [right; left; reflexivity|reflexivity].
Defined.

(** ** Well-formed states stay well formed *)
Section WfFacts.

Context {V : Type}.
Implicit Types (st : state V) (o : outcome V) (j : job V) (q t x : nat).
Implicit Types (e : event V) (tr : list (event V)).

Lemma reaction_jobs_refs (n : nat) o (rs : list nat) :
  Forall (fun t => t < n) rs ->
  Forall (fun j => Forall (fun t => t < n) (jobRefs j))
         (map (fun t => ReactionJob t o) rs).
Proof.
  induction 1 as [|t rs' Ht Hrs IH]; simpl; constructor; auto.
  simpl. now constructor.
Qed.

Lemma wf_settle q o st : wf st -> wf (settle q o st).
Proof.
  intros (Hj & Hh & Hl). unfold settle.
  destruct (heap st !! q) as [[[|o'] rs]|] eqn:E; try (now split).
  unfold wf. cbn [heap jobs signal]. rewrite length_insert.
  split; [|split; [|exact Hl]].
  - apply Forall_app. split; [exact Hj|].
    apply reaction_jobs_refs. exact (Forall_lookup_1 _ _ _ _ Hh E).
  - apply Forall_insert; [exact Hh|]. simpl. constructor.
Qed.

Lemma wf_promiseThen q t st :
  wf st -> t < length (heap st) -> wf (promiseThen q t st).
Proof.
  intros (Hj & Hh & Hl) Ht. unfold promiseThen.
  destruct (heap st !! q) as [[[|o'] rs]|] eqn:E; try (now split).
  - unfold wf. cbn [heap jobs signal]. rewrite length_insert.
    split; [exact Hj|split; [|exact Hl]].
    apply Forall_insert; [exact Hh|]. simpl.
    apply Forall_app. split; [|now repeat constructor].
    exact (Forall_lookup_1 _ _ _ _ Hh E).
  - unfold wf. cbn [heap jobs signal]. split; [|split; assumption].
    apply Forall_app. split; [exact Hj|]. repeat constructor. exact Ht.
Qed.

Lemma wf_resolveWithPromise t s st :
  wf st -> t < length (heap st) -> s < length (heap st) ->
  wf (resolveWithPromise t s st).
Proof.
  intros (Hj & Hh & Hl) Ht Hs. unfold wf, resolveWithPromise.
  cbn [heap jobs signal]. split; [|split; assumption].
  apply Forall_app. split; [exact Hj|]. repeat constructor; assumption.
Qed.

(** New promises without reactions, and new listeners for them. *)
Lemma wf_extend st (ps : list (promise V)) (b : bool) (ls : list nat) :
  wf st ->
  Forall (fun p => p_reactions p = []) ps ->
  Forall (fun l => l < length (heap st) + length ps) ls ->
  wf (mkState (heap st ++ ps) (jobs st)
              (mkSignal b (listeners (signal st) ++ ls))).
Proof.
  intros (Hj & Hh & Hl) Hps Hls. unfold wf. cbn [heap jobs signal listeners].
  rewrite length_app. split; [|split].
  - eapply Forall_impl; [exact Hj|]. intros j Hrefs.
    eapply Forall_impl; [exact Hrefs|]. simpl. lia.
  - apply Forall_app. split.
    + eapply Forall_impl; [exact Hh|]. intros p Hrefs.
      eapply Forall_impl; [exact Hrefs|]. simpl. lia.
    + eapply Forall_impl; [exact Hps|]. intros p ->. constructor.
  - apply Forall_app. split; [|exact Hls].
    eapply Forall_impl; [exact Hl|]. simpl. lia.
Qed.

Lemma wf_alloc st (s : pstate V) :
  wf st -> wf (mkState (heap st ++ [mkPromise s []]) (jobs st) (signal st)).
Proof.
  intros Hwf.
  pose proof (wf_extend st [mkPromise s []] (aborted (signal st)) [] Hwf) as H.
  rewrite app_nil_r in H. destruct (signal st). apply H; repeat constructor.
Qed.

Lemma wf_runMicrotask st : wf st -> wf (runMicrotask st).
Proof.
  intros Hwf. unfold runMicrotask. destruct (jobs st) as [|j js] eqn:E; [exact Hwf|].
  destruct Hwf as (Hj & Hh & Hl). rewrite E in Hj.
  inversion Hj as [|? ? Hrefs Hjs]; subst.
  assert (Hwf' : wf (mkState (heap st) js (signal st))) by (now split).
  destruct j as [t o|t s]; simpl.
  - now apply wf_settle.
  - inversion Hrefs as [|? ? Ht _]; subst. now apply wf_promiseThen.
Qed.

Lemma wf_signalAbort st : wf st -> wf (signalAbort st).
Proof.
  intros Hwf. apply signalAbort_fold; [|exact Hwf|].
  - intros s q o. apply wf_settle.
  - destruct Hwf as (Hj & Hh & Hl). now split.
Qed.

Lemma wf_step e st : wf st -> inrange st e -> wf (step e st).
Proof.
  intros Hwf He. destruct e as [|q o| | |q t|t s]; cbn [step].
  - now apply wf_runMicrotask.
  - now apply wf_settle.
  - now apply wf_signalAbort.
  - now apply wf_alloc.
  - now apply wf_promiseThen.
  - destruct He. now apply wf_resolveWithPromise.
Qed.

Lemma wf_run tr : forall st, wf st -> runs tr st -> wf (run tr st).
Proof.
  induction tr as [|e tr IH]; intros st Hwf Hr; [exact Hwf|].
  destruct Hr as [He Hr]. rewrite run_cons. apply IH; [|exact Hr].
  now apply wf_step.
Qed.

End WfFacts.

(** ** Awaiting the promise that [abortable] returns *)
Section AwaitFacts.

Context {V : Type}.
Implicit Types (st : state V) (o : outcome V) (tr : list (event V)).

Lemma aborted_signalAbort st : aborted (signal (signalAbort st)) = true.
Proof.
  unfold signalAbort. destruct (aborted (signal st)) eqn:E; [exact E|].
  set (st' := mkState _ _ _).
  assert (H : aborted (signal st') = true) by reflexivity.
  clearbody st'. revert st' H.
  induction (listeners (signal st)) as [|l ls IH]; intros st' H; simpl; [exact H|].
  apply IH. now rewrite signal_settle.
Qed.

Lemma await_settled_first promise st tra trb o :
  wf st -> promise < length (heap st) ->
  Forall (admissible (length (heap st))) tra ->
  Forall (admissible (length (heap st))) trb ->
  let st1 := run tra (abortable promise st).2 in
  aborted (signal st1) = false ->
  pstateOf st1 promise = Some (Settled o) ->
  jobs (run trb st1) = [] ->
  await (abortable promise st).1 (tra ++ trb) (abortable promise st).2
  = (settlementOf o, run trb st1).
Proof.
  intros Hwf Hp Htra Htrb st1 Hab1 Hset Hjobs.
  pose proof (not_aborted_before _ _ _ Hab1) as Hab.
  destruct (race_verdict promise st tra trb o Hwf Hp Hab Htra Htrb) as [_ Hres].
  { now apply settled_first_leads. }
  unfold await. rewrite run_app. fold st1 in Hres |- *.
  replace (abortable promise st).1 with (length (heap st))
    by now rewrite abortable_not_aborted.
  now rewrite (Hres Hjobs).
Qed.

Lemma await_aborted_first promise st tra trb :
  wf st -> promise < length (heap st) ->
  Forall (admissible (length (heap st))) tra ->
  Forall (admissible (length (heap st))) trb ->
  let st1 := run tra (abortable promise st).2 in
  aborted (signal st1) = false ->
  pstateOf st1 promise = Some Pending ->
  let r := await (abortable promise st).1 (tra ++ Abort :: trb)
                 (abortable promise st).2 in
  r.2 = run trb (step Abort st1) /\
  aborted (signal r.2) = true /\
  (r.1 = Never \/ r.1 = Settles (Throw AbortError)) /\
  (jobs r.2 = [] -> r.1 = Settles (Throw AbortError)).
Proof.
  intros Hwf Hp Htra Htrb st1 Hab1 Hpend r.
  pose proof (not_aborted_before _ _ _ Hab1) as Hab.
  assert (Hadm : Forall (admissible (V:=V) (length (heap st))) (tra ++ [Abort])).
  { apply Forall_app. split; [exact Htra|]. repeat constructor. }
  assert (Hst2 : run (tra ++ [Abort]) (abortable promise st).2 = step Abort st1).
  { now rewrite run_app. }
  destruct (race_verdict promise st (tra ++ [Abort]) trb (Rejected AbortError)
              Hwf Hp Hab Hadm Htrb) as [Huniq Hres].
  { rewrite Hst2. now apply aborted_first_leads. }
  rewrite Hst2 in Huniq, Hres.
  assert (Hr2 : r.2 = run trb (step Abort st1)).
  { unfold r, await. cbn [snd]. now rewrite run_app, run_cons. }
  assert (Hr1 : r.1 = match pstateOf (run trb (step Abort st1)) (length (heap st)) with
                      | Some (Settled o) => settlementOf o
                      | _ => Never
                      end).
  { unfold r, await. cbn [fst]. rewrite run_app, run_cons. fold st1.
    now rewrite abortable_not_aborted. }
  split; [exact Hr2|]. split; [|split].
  - rewrite Hr2. apply aborted_run. apply aborted_signalAbort.
  - rewrite Hr1.
    destruct (pstateOf (run trb (step Abort st1)) (length (heap st)))
      as [[|o]|] eqn:E; [now left| |now left].
    rewrite (Huniq o eq_refl). now right.
  - rewrite Hr2, Hr1. intros Hjobs. now rewrite (Hres Hjobs).
Qed.

End AwaitFacts.

(** ** builtinDecode: the two decoders and the signal *)
Section BuiltinDecodeFacts.

Context {V : Type}.
Variable truthy : V -> bool.
Variable canvasContext : bool.
Variable getImageData : V -> V.
Implicit Types (st : state V) (o : outcome V) (tr : list (event V)).

(** WebCodecs supports the type and the signal is not aborted: the
    decoder is called and its promise awaited. *)
Lemma decodeWithWebCodecs_supported
    (s0 d0 : pstate V) st tr1 tr2 (v : V) :
  let st1 := run tr1 (callAsync (Return s0) st).2 in
  let st2 := (callAsync (Return d0) st1).2 in
  pstateOf st1 (length (heap st)) = Some (Settled (Fulfilled v)) ->
  truthy v = true ->
  aborted (signal st1) = false ->
  decodeWithWebCodecs truthy (Return s0) (Return d0) tr1 tr2 st =
    match await (abortable (length (heap st1)) st2).1 tr2
                (abortable (length (heap st1)) st2).2 with
    | (Settles (Return data), s) => (Some (Settles (Return data)), s)
    | (Settles (Throw _), s) => (None, s)
    | (Never, s) => (Some Never, s)
    end.
Proof.
  intros st1 st2 HS Ht Hab. unfold decodeWithWebCodecs.
  cbn [callAsync]. unfold await at 1. cbn [callAsync snd] in st1. fold st1.
  rewrite HS. cbn [settlementOf]. rewrite Ht.
  unfold assertSignal. rewrite Hab. fold st2.
  change (length (heap st1)) with (length (heap st1)).
  now destruct (abortable (length (heap st1)) _) as [p s] eqn:E.
Qed.

(** The signal is not aborted at the second [assertSignal]: the canvas
    decoder is called and its promise awaited. *)
Lemma decodeWithCanvas_started (b0 : pstate V) st tr3 :
  let st2 := (callAsync (Return b0) st).2 in
  aborted (signal st) = false ->
  decodeWithCanvas canvasContext getImageData (Return b0) tr3 st =
    match await (abortable (length (heap st)) st2).1 tr3
                (abortable (length (heap st)) st2).2 with
    | (Settles (Return drawable), s) =>
        (Settles (drawableToImageData canvasContext getImageData drawable), s)
    | r => r
    end.
Proof.
  intros st2 Hab. unfold decodeWithCanvas, assertSignal. rewrite Hab.
  cbn [callAsync]. fold st2.
  now destruct (abortable (length (heap st)) _) as [p s] eqn:E.
Qed.

Lemma callAsync_facts (s : pstate V) st :
  let st' := (callAsync (Return s) st).2 in
  (wf st -> wf st') /\ signal st' = signal st /\
  length (heap st') = S (length (heap st)) /\
  pstateOf st' (length (heap st)) = Some s.
Proof.
  cbn [callAsync snd]. split; [apply wf_alloc|]. split; [reflexivity|]. split.
  - cbn [heap]. rewrite length_app. simpl. lia.
  - unfold pstateOf. cbn [heap]. now rewrite lookup_app_r, Nat.sub_diag by lia.
Qed.

End BuiltinDecodeFacts.

Section BuiltinDecodeClaims.

Context {V : Type}.
Variable truthy : V -> bool.
Variable canvasContext : bool.
Variable getImageData : V -> V.
Implicit Types (st : state V) (o : outcome V) (tr : list (event V)).

(** X15.  WebCodecs supports the type and its decoder is at work, the
    promise of [WebCodecs.decode] pending, when the signal is aborted:
    [builtinDecode] returns no image and does not go on to the other
    decoder.  Nothing more is done to the state; the function has thrown
    the AbortError or has not been resumed yet, and with the microtasks
    run it has thrown it. *)
Theorem builtinDecode_abort_WebCodecs
    (createImageBitmap : completion (pstate V)) (s0 d0 : pstate V)
    st tr1 tr2a tr2b tr3 (v : V) :
  let st1 := run tr1 (callAsync (Return s0) st).2 in
  let decoding := length (heap st1) in
  let st2 := (callAsync (Return d0) st1).2 in
  let st3 := run tr2a (abortable decoding st2).2 in
  let r := builtinDecode truthy canvasContext getImageData
             (Return s0) (Return d0) createImageBitmap
             tr1 (tr2a ++ Abort :: tr2b) tr3 st in
  wf st -> runs tr1 (callAsync (Return s0) st).2 ->
  pstateOf st1 (length (heap st)) = Some (Settled (Fulfilled v)) ->
  truthy v = true ->
  Forall (admissible (length (heap st2))) tr2a ->
  Forall (admissible (length (heap st2))) tr2b ->
  aborted (signal st3) = false ->
  pstateOf st3 decoding = Some Pending ->
  r.2 = run tr2b (step Abort st3) /\
  (r.1 = Never \/ r.1 = Settles (Throw AbortError)) /\
  (jobs r.2 = [] -> r.1 = Settles (Throw AbortError)).
Proof.
  intros st1 decoding st2 st3 r Hwf Hr1 HS Ht Ha Hb Hab3 Hpend.
  destruct (callAsync_facts s0 st) as (Hwf0 & _ & _ & _).
  destruct (callAsync_facts d0 st1) as (Hwf2 & Hsig2 & Hlen2 & _).
  fold st2 in Hwf2, Hsig2, Hlen2.
  assert (Hwf1 : wf st1) by (apply wf_run; auto).
  pose proof (not_aborted_before _ _ _ Hab3) as Hab2.
  assert (Hab1 : aborted (signal st1) = false) by now rewrite <- Hsig2.
  destruct (await_aborted_first decoding st2 tr2a tr2b (Hwf2 Hwf1)
              ltac:(fold decoding in Hlen2; lia) Ha Hb Hab3 Hpend)
    as (Hs & Habs & Hcases & Hq).
  unfold r, builtinDecode.
  rewrite (decodeWithWebCodecs_supported truthy s0 d0 st tr1 _ v HS Ht Hab1).
  fold st1 decoding st2.
  destruct (await _ _ _) as [x s]. cbn [fst snd] in Hs, Habs, Hcases, Hq.
  destruct Hcases as [-> | ->].
  - cbn [fst snd]. split; [exact Hs|]. split; [now left|exact Hq].
  - unfold decodeWithCanvas, assertSignal. rewrite Habs. cbn [fst snd].
    split; [exact Hs|]. split; [now right|reflexivity].
Qed.

(** X16.  The same for the other decoder: the function has come to its
    second part, [createImageBitmap] (or [blobToImg]) is at work, its
    promise pending, when the signal is aborted.  No image is returned:
    the function has thrown the AbortError or has not been resumed yet,
    and with the microtasks run it has thrown it. *)
Theorem builtinDecode_abort_canvas
    (isTypeSupported webCodecsDecode : completion (pstate V)) (b0 : pstate V)
    st tr1 tr2 tr3a tr3b (s : state V) :
  let drawing := length (heap s) in
  let s2 := (callAsync (Return b0) s).2 in
  let s3 := run tr3a (abortable drawing s2).2 in
  let r := builtinDecode truthy canvasContext getImageData
             isTypeSupported webCodecsDecode (Return b0)
             tr1 tr2 (tr3a ++ Abort :: tr3b) st in
  decodeWithWebCodecs truthy isTypeSupported webCodecsDecode tr1 tr2 st
    = (None, s) ->
  wf s ->
  Forall (admissible (length (heap s2))) tr3a ->
  Forall (admissible (length (heap s2))) tr3b ->
  aborted (signal s3) = false ->
  pstateOf s3 drawing = Some Pending ->
  r.2 = run tr3b (step Abort s3) /\
  (r.1 = Never \/ r.1 = Settles (Throw AbortError)) /\
  (jobs r.2 = [] -> r.1 = Settles (Throw AbortError)).
Proof.
  intros drawing s2 s3 r Hfall Hwf Ha Hb Hab3 Hpend.
  destruct (callAsync_facts b0 s) as (Hwf2 & Hsig2 & Hlen2 & _).
  fold s2 in Hwf2, Hsig2, Hlen2.
  pose proof (not_aborted_before _ _ _ Hab3) as Hab2.
  assert (Hab : aborted (signal s) = false) by now rewrite <- Hsig2.
  destruct (await_aborted_first drawing s2 tr3a tr3b (Hwf2 Hwf)
              ltac:(fold drawing in Hlen2; lia) Ha Hb Hab3 Hpend)
    as (Hs & Habs & Hcases & Hq).
  unfold r, builtinDecode. rewrite Hfall.
  rewrite (decodeWithCanvas_started canvasContext getImageData b0 s _ Hab).
  fold drawing s2.
  destruct (await _ _ _) as [x s']. cbn [fst snd] in Hs, Habs, Hcases, Hq.
  destruct Hcases as [-> | ->]; cbn [fst snd].
  - split; [exact Hs|]. split; [now left|exact Hq].
  - split; [exact Hs|]. split; [now right|reflexivity].
Qed.

(** X17.  WebCodecs supports the type and the promise of
    [WebCodecs.decode] is settled while the signal is not aborted.  Once
    the microtasks have run, whatever else happened in between, an abort
    included: if it was fulfilled, [builtinDecode] returns its value; if
    it was rejected, the reason is dropped and the function goes on with
    its second part, from the state as it is then. *)
Theorem builtinDecode_WebCodecs_outcome
    (createImageBitmap : completion (pstate V)) (s0 d0 : pstate V)
    st tr1 tr2a tr2b tr3 (v : V) o :
  let st1 := run tr1 (callAsync (Return s0) st).2 in
  let decoding := length (heap st1) in
  let st2 := (callAsync (Return d0) st1).2 in
  let st3 := run tr2a (abortable decoding st2).2 in
  wf st -> runs tr1 (callAsync (Return s0) st).2 ->
  pstateOf st1 (length (heap st)) = Some (Settled (Fulfilled v)) ->
  truthy v = true ->
  Forall (admissible (length (heap st2))) tr2a ->
  Forall (admissible (length (heap st2))) tr2b ->
  aborted (signal st3) = false ->
  pstateOf st3 decoding = Some (Settled o) ->
  jobs (run tr2b st3) = [] ->
  builtinDecode truthy canvasContext getImageData
    (Return s0) (Return d0) createImageBitmap tr1 (tr2a ++ tr2b) tr3 st
  = match o with
    | Fulfilled data => (Settles (Return data), run tr2b st3)
    | Rejected _ =>
        decodeWithCanvas canvasContext getImageData createImageBitmap tr3
                         (run tr2b st3)
    end.
Proof.
  intros st1 decoding st2 st3 Hwf Hr1 HS Ht Ha Hb Hab3 Hset Hjobs.
  destruct (callAsync_facts s0 st) as (Hwf0 & _ & _ & _).
  destruct (callAsync_facts d0 st1) as (Hwf2 & Hsig2 & Hlen2 & _).
  fold st2 in Hwf2, Hsig2, Hlen2.
  assert (Hwf1 : wf st1) by (apply wf_run; auto).
  pose proof (not_aborted_before _ _ _ Hab3) as Hab2.
  assert (Hab1 : aborted (signal st1) = false) by now rewrite <- Hsig2.
  unfold builtinDecode.
  rewrite (decodeWithWebCodecs_supported truthy s0 d0 st tr1 _ v HS Ht Hab1).
  fold st1 decoding st2.
  rewrite (await_settled_first decoding st2 tr2a tr2b o (Hwf2 Hwf1)
             ltac:(fold decoding in Hlen2; lia) Ha Hb Hab3 Hset Hjobs).
  fold st3. now destruct o.
Qed.

(** X18.  The function has come to its second part and the promise of
    [createImageBitmap] (or [blobToImg]) is settled while the signal is
    not aborted.  Once the microtasks have run, whatever else happened
    in between, an abort included: if it was fulfilled, [builtinDecode]
    ends as [drawableToImageData] does on its value, with the image
    data or with "Could not create canvas context"; if it was rejected,
    [builtinDecode] throws its reason. *)
Theorem builtinDecode_canvas_outcome
    (isTypeSupported webCodecsDecode : completion (pstate V)) (b0 : pstate V)
    st tr1 tr2 tr3a tr3b (s : state V) o :
  let drawing := length (heap s) in
  let s2 := (callAsync (Return b0) s).2 in
  let s3 := run tr3a (abortable drawing s2).2 in
  decodeWithWebCodecs truthy isTypeSupported webCodecsDecode tr1 tr2 st
    = (None, s) ->
  wf s ->
  Forall (admissible (length (heap s2))) tr3a ->
  Forall (admissible (length (heap s2))) tr3b ->
  aborted (signal s3) = false ->
  pstateOf s3 drawing = Some (Settled o) ->
  jobs (run tr3b s3) = [] ->
  builtinDecode truthy canvasContext getImageData
    isTypeSupported webCodecsDecode (Return b0) tr1 tr2 (tr3a ++ tr3b) st
  = (match o with
     | Fulfilled drawable =>
         Settles (if canvasContext then Return (getImageData drawable)
                  else Throw (Error "Could not create canvas context"))
     | Rejected e => Settles (Throw e)
     end, run tr3b s3).
Proof.
  intros drawing s2 s3 Hfall Hwf Ha Hb Hab3 Hset Hjobs.
  destruct (callAsync_facts b0 s) as (Hwf2 & Hsig2 & Hlen2 & _).
  fold s2 in Hwf2, Hsig2, Hlen2.
  pose proof (not_aborted_before _ _ _ Hab3) as Hab2.
  assert (Hab : aborted (signal s) = false) by now rewrite <- Hsig2.
  unfold builtinDecode. rewrite Hfall.
  rewrite (decodeWithCanvas_started canvasContext getImageData b0 s _ Hab).
  fold drawing s2.
  rewrite (await_settled_first drawing s2 tr3a tr3b o (Hwf2 Hwf)
             ltac:(fold drawing in Hlen2; lia) Ha Hb Hab3 Hset Hjobs).
  fold s3. destruct o as [drawable|e]; cbn [settlementOf]; [|reflexivity].
  unfold drawableToImageData. now destruct canvasContext.
Qed.

End BuiltinDecodeClaims.

(** WebCodecs says yes at once; the signal is aborted while its decoder
    is at work, and three microtasks run. *)
Lemma builtinDecode_abort_WebCodecs_witness :
  (builtinDecode (fun v : nat => negb (Nat.eqb v 0)) true (fun v => v)
     (Return (Settled (Fulfilled 1))) (Return Pending) (Return Pending)
     [] ([] ++ Abort :: [Microtask; Microtask; Microtask]) []
     (mkState [] [] (mkSignal false []))).1
  = Settles (Throw AbortError).
Proof.
  apply (builtinDecode_abort_WebCodecs (fun v : nat => negb (Nat.eqb v 0)) true
           (fun v => v) (Return Pending) (Settled (Fulfilled 1)) Pending
           (mkState [] [] (mkSignal false [])) [] []
           [Microtask; Microtask; Microtask] [] 1).
  - repeat split; constructor.
  - exact I.
  - reflexivity.
  - reflexivity.
  - constructor.
  - repeat constructor.
  - reflexivity.
  - reflexivity.
  - reflexivity.
Defined.

(** WebCodecs says no at once; the signal is aborted while
    [createImageBitmap] is at work, and three microtasks run. *)
Lemma builtinDecode_abort_canvas_witness :
  (builtinDecode (fun v : nat => negb (Nat.eqb v 0)) true (fun v => v)
     (Return (Settled (Fulfilled 0))) (Return Pending) (Return Pending)
     [] [] ([] ++ Abort :: [Microtask; Microtask; Microtask])
     (mkState [] [] (mkSignal false []))).1
  = Settles (Throw AbortError).
Proof.
  apply (builtinDecode_abort_canvas (fun v : nat => negb (Nat.eqb v 0)) true
           (fun v => v) (Return (Settled (Fulfilled 0))) (Return Pending) Pending
           (mkState [] [] (mkSignal false [])) [] [] []
           [Microtask; Microtask; Microtask]
           (mkState [mkPromise (Settled (Fulfilled 0)) []] [] (mkSignal false []))).
  - reflexivity.
  - repeat split; repeat constructor.
  - constructor.
  - repeat constructor.
  - reflexivity.
  - reflexivity.
  - reflexivity.
Defined.

(** WebCodecs says yes and its decoder delivers 7 before the signal is
    aborted. *)
Lemma builtinDecode_WebCodecs_outcome_witness :
  (builtinDecode (fun v : nat => negb (Nat.eqb v 0)) true (fun v => v)
     (Return Pending) (Return Pending) (Return Pending)
     [Settle 0 (Fulfilled 1)]
     ([Settle 1 (Fulfilled 7)] ++ [Abort; Microtask; Microtask; Microtask; Microtask]) []
     (mkState [] [] (mkSignal false []))).1
  = Settles (Return 7).
Proof.
  rewrite (builtinDecode_WebCodecs_outcome (fun v : nat => negb (Nat.eqb v 0)) true
           (fun v => v) (Return Pending) Pending Pending
           (mkState [] [] (mkSignal false [])) [Settle 0 (Fulfilled 1)]
           [Settle 1 (Fulfilled 7)] [Abort; Microtask; Microtask; Microtask; Microtask] []
           1 (Fulfilled 7)).
  - reflexivity.
  - repeat split; constructor.
  - repeat split.
  - reflexivity.
  - reflexivity.
  - repeat constructor.
  - repeat constructor.
  - reflexivity.
  - reflexivity.
  - reflexivity.
Defined.

(** WebCodecs says no; [createImageBitmap] fails before the signal is
    aborted. *)
Lemma builtinDecode_canvas_outcome_witness :
  (builtinDecode (fun v : nat => negb (Nat.eqb v 0)) true (fun v => v)
     (Return (Settled (Fulfilled 0))) (Return Pending) (Return Pending)
     [] [] ([Settle 1 (Rejected (Error "decode"))] ++
            [Abort; Microtask; Microtask; Microtask; Microtask])
     (mkState [] [] (mkSignal false []))).1
  = Settles (Throw (Error "decode")).
Proof.
  rewrite (builtinDecode_canvas_outcome (fun v : nat => negb (Nat.eqb v 0)) true
           (fun v => v) (Return (Settled (Fulfilled 0))) (Return Pending) Pending
           (mkState [] [] (mkSignal false [])) [] []
           [Settle 1 (Rejected (Error "decode"))]
           [Abort; Microtask; Microtask; Microtask; Microtask]
           (mkState [mkPromise (Settled (Fulfilled 0)) []] [] (mkSignal false []))
           (Rejected (Error "decode"))).
  - reflexivity.
  - reflexivity.
  - repeat split; repeat constructor.
  - repeat constructor.
  - repeat constructor.
  - reflexivity.
  - reflexivity.
  - reflexivity.
Defined.
